(** * Verification of the big-integer engine (src/big_integer.h, src/big_integer.cpp)

    A shallow embedding of [big_num_arithmetic::BigInteger] and of the
    stream operators, followed by the properties of the specification
    that are settled against it.

    Conventions of the embedding.
    - [int64_t] values are integers of [Z].  Signed arithmetic whose exact
      result does not fit the type has undefined behaviour in C++.  The
      narrowing conversion [operator int64_t] reaches such an operation
      on a canonical operand that its own guard lets through, so its
      arithmetic goes through [checked], and a run that overflows has
      the outcome [Undefined].  The limb arithmetic of the
      other functions goes through [Int64.add], [Int64.sub], [Int64.mul]
      (reduction modulo 2^64); a property that rests on a result of
      theirs is proved under hypotheses that keep the exact result
      within the type, where the reduction changes nothing.
      C++ [/] and [%] on integers are [Z.quot] and [Z.rem] (truncation
      toward zero).
    - [std::vector<int64_t> digits_] is a [list Z], least significant limb
      first, exactly as the vector stores it.
    - A [throw] is the [Throw] outcome of the [outcome] type.  Loops whose
      exit depends on big-integer data, and the self-delegating operators,
      take a [fuel : nat] that bounds the number of iterations and of
      nested calls; [OutOfFuel] stands for a run that did not finish
      within it, and [finishes f v] says that [f] returns [v] for every
      large enough fuel.
    - The three loops driven by a single 64-bit quantity that shrinks by a
      constant factor each round (the constructor, the carry rounds of
      [MultiplyByShort], the bisection of [GuessDigit]) are total
      functions iterated at most [Int64.bits] times; a lemma for each
      shows that the bound is never what stops them.
    - The text stream is the record [ostream]: the format flags that
      [operator<<] tests and the characters written. *)

From Stdlib Require Import Ascii String DecimalString.
From Stdlib Require Import ZArith List Lia Bool.
Import ListNotations.
Local Open Scope Z_scope.

(** ** Machine integers *)

Module Int64.

Definition min_signed : Z := -9223372036854775808.
Definition max_signed : Z := 9223372036854775807.

(** Two's complement reduction into [-2^63, 2^63). *)
Definition wrap (z : Z) : Z :=
  (z + 9223372036854775808) mod 18446744073709551616 - 9223372036854775808.

Definition in_range (z : Z) : Prop := min_signed <= z <= max_signed.

Definition add (a b : Z) : Z := wrap (a + b).
Definition sub (a b : Z) : Z := wrap (a - b).
Definition mul (a b : Z) : Z := wrap (a * b).

(** The width of the type: a bound on the number of rounds of any loop
    that at least halves a 64-bit quantity per round. *)
Definition bits : nat := 64.

End Int64.

(** [static_cast<uint32_t>] *)
Definition wrap_uint32 (z : Z) : Z := z mod 4294967296.

(** ** Outcomes of fallible code *)

Inductive exception : Type :=
| DivisionByZeroError : exception                  (* struct DivisionByZeroError *)
| logic_error : string -> exception                (* std::logic_error(what) *)
| runtime_error : string -> exception.             (* std::runtime_error(what) *)

Inductive outcome (A : Type) : Type :=
| Ret : A -> outcome A
| Throw : exception -> outcome A
| Undefined : outcome A                            (* signed overflow *)
| OutOfFuel : outcome A.

Arguments Ret {A} _.
Arguments Throw {A} _.
Arguments Undefined {A}.
Arguments OutOfFuel {A}.

Definition bind {A B : Type} (m : outcome A) (k : A -> outcome B) : outcome B :=
  match m with
  | Ret a => k a
  | Throw e => Throw e
  | Undefined => Undefined
  | OutOfFuel => OutOfFuel
  end.

Notation "x <- m ;; k" := (bind m (fun x => k))
  (at level 61, m at next level, right associativity).
Notation "m ;;; k" := (bind m (fun _ => k))
  (at level 61, right associativity).

(** The result [z] of a signed [int64_t] operation: returned when the
    type can represent it, undefined behaviour otherwise. *)
Definition checked (z : Z) : outcome Z :=
  if (Int64.min_signed <=? z) && (z <=? Int64.max_signed)
  then Ret z else Undefined.

(** ** The data model *)

Record BigInteger : Type := mkBigInteger {
  digits_ : list Z;        (* std::vector<int64_t> digits_ *)
  is_negative : bool       (* bool is_negative{false} *)
}.

(** [BigInteger() = default] *)
Definition BigInteger_default : BigInteger :=
  {| digits_ := []; is_negative := false |}.

(** [int64_t BigInteger::internal_base = 1'000'000'000] *)
Definition internal_base : Z := 1000000000.

Definition INT64_MAX : Z := Int64.max_signed.
Definition INT64_MIN : Z := Int64.min_signed.

(** ** Private accessors and mutators *)

Definition NumberOfDigits (x : BigInteger) : Z := Z.of_nat (length (digits_ x)).

(** [Sign()]: 0 for an empty limb vector, else -1 or 1 from the flag. *)
Definition Sign (x : BigInteger) : Z :=
  if NumberOfDigits x =? 0 then 0 else if is_negative x then -1 else 1.

Definition Negate (x : BigInteger) : BigInteger :=
  {| digits_ := digits_ x; is_negative := negb (is_negative x) |}.

Definition Abs (x : BigInteger) : BigInteger :=
  {| digits_ := digits_ x; is_negative := false |}.

(** The scan of [RemoveZeroes] from the last index downward, on the
    reversed vector: what is left starts at [rightmost_nonzero]. *)
Fixpoint skip_zeroes (r : list Z) : list Z :=
  match r with
  | [] => []
  | d :: t => if negb (d =? 0) then r else skip_zeroes t
  end.

(** [RemoveZeroes]: [digits_.resize(rightmost_nonzero + 1)]. *)
Definition RemoveZeroes (x : BigInteger) : BigInteger :=
  {| digits_ := firstn (length (skip_zeroes (rev (digits_ x)))) (digits_ x);
     is_negative := is_negative x |}.

Definition InsertLeastSignificantDigit (x : BigInteger) (digit : Z) : BigInteger :=
  {| digits_ := digit :: digits_ x; is_negative := is_negative x |}.

(** The two-argument overload: [quantity] copies of [digit] at the front. *)
Definition InsertLeastSignificantDigits (x : BigInteger) (digit : Z) (quantity : nat)
  : BigInteger :=
  {| digits_ := repeat digit quantity ++ digits_ x; is_negative := is_negative x |}.

Definition PushLeadingDigit (x : BigInteger) (digit : Z) : BigInteger :=
  {| digits_ := digits_ x ++ [digit]; is_negative := is_negative x |}.

Definition PushDigitToEnd (x : BigInteger) (digit : Z) : BigInteger :=
  {| digits_ := digits_ x ++ [digit]; is_negative := is_negative x |}.

Definition ReverseDigitsAndNormalize (x : BigInteger) : BigInteger :=
  RemoveZeroes {| digits_ := rev (digits_ x); is_negative := is_negative x |}.

(** [RemainderByBase]: [((number % B) + B) % B]. *)
Definition RemainderByBase (number : Z) : Z :=
  Z.rem (Int64.add (Z.rem number internal_base) internal_base) internal_base.

(** ** Construction from a native integer *)

(** The body of [while (value != 0)] in the constructor.  [value] is a
    64-bit integer divided by [internal_base] each round, so [bound]
    rounds with [bound = Int64.bits] are never used up
    (lemma [ctor_loop_bound]). *)
Fixpoint ctor_loop (bound : nat) (value : Z) : list Z :=
  match bound with
  | O => []
  | S k =>
      if negb (value =? 0)
      then Z.abs (Z.rem value internal_base) :: ctor_loop k (Z.quot value internal_base)
      else []
  end.

(** [explicit BigInteger(int64_t value)] *)
Definition BigInteger_of_int64 (value : Z) : BigInteger :=
  {| digits_ := ctor_loop Int64.bits value; is_negative := value <? 0 |}.

(** ** Comparison *)

(** The loop of [CompareAbsoluteValues] from index [n-1] down to 0, on the
    two reversed vectors. *)
Fixpoint compare_from_top (l r : list Z) : Z :=
  match l, r with
  | x :: l', y :: r' =>
      if negb (x =? y) then (if x <? y then -1 else 1) else compare_from_top l' r'
  | _, _ => 0
  end.

Definition CompareAbsoluteValues (lhs rhs : BigInteger) : Z :=
  if negb (NumberOfDigits lhs =? NumberOfDigits rhs)
  then (if NumberOfDigits lhs <? NumberOfDigits rhs then -1 else 1)
  else compare_from_top (rev (digits_ lhs)) (rev (digits_ rhs)).

Definition operator_eq (this rhs : BigInteger) : bool :=
  if negb (Sign this =? Sign rhs) then false
  else CompareAbsoluteValues this rhs =? 0.

Definition operator_ne (this rhs : BigInteger) : bool :=
  negb (operator_eq this rhs).

Definition operator_lt (this rhs : BigInteger) : bool :=
  if negb (Sign this =? Sign rhs) then Sign this <? Sign rhs
  else CompareAbsoluteValues this rhs * Sign this =? -1.

Definition operator_gt (this rhs : BigInteger) : bool :=
  negb (operator_eq this rhs || operator_lt this rhs).

Definition operator_le (this rhs : BigInteger) : bool :=
  operator_eq this rhs || operator_lt this rhs.

Definition operator_ge (this rhs : BigInteger) : bool :=
  negb (operator_lt this rhs).

(** Comparisons against a native right operand promote it. *)
Definition operator_eq_int (this : BigInteger) (rhs : Z) : bool :=
  operator_eq this (BigInteger_of_int64 rhs).
Definition operator_ne_int (this : BigInteger) (rhs : Z) : bool :=
  operator_ne this (BigInteger_of_int64 rhs).
Definition operator_lt_int (this : BigInteger) (rhs : Z) : bool :=
  operator_lt this (BigInteger_of_int64 rhs).
Definition operator_gt_int (this : BigInteger) (rhs : Z) : bool :=
  operator_gt this (BigInteger_of_int64 rhs).
Definition operator_le_int (this : BigInteger) (rhs : Z) : bool :=
  operator_le this (BigInteger_of_int64 rhs).
Definition operator_ge_int (this : BigInteger) (rhs : Z) : bool :=
  operator_ge this (BigInteger_of_int64 rhs).

(** The friend forms with the native operand on the left. *)
Definition int_operator_eq (lhs : Z) (rhs : BigInteger) : bool := operator_eq_int rhs lhs.
Definition int_operator_ne (lhs : Z) (rhs : BigInteger) : bool := operator_ne_int rhs lhs.
Definition int_operator_lt (lhs : Z) (rhs : BigInteger) : bool := operator_gt_int rhs lhs.
Definition int_operator_gt (lhs : Z) (rhs : BigInteger) : bool := operator_lt_int rhs lhs.
Definition int_operator_le (lhs : Z) (rhs : BigInteger) : bool := operator_ge_int rhs lhs.
Definition int_operator_ge (lhs : Z) (rhs : BigInteger) : bool := operator_le_int rhs lhs.

(** ** Unary minus *)

Definition operator_neg (this : BigInteger) : BigInteger := Negate this.

(** ** Limb-scalar multiplication *)

(** Rounds of the loop of [MultiplyByShort] past the last limb, which run
    while [carry != 0].  [carry] is a 64-bit integer divided by
    [internal_base] each round (lemma [MultiplyByShort_tail_bound]). *)
Fixpoint MultiplyByShort_tail (bound : nat) (carry : Z) : list Z :=
  match bound with
  | O => []
  | S k =>
      if negb (carry =? 0)
      then Z.rem carry internal_base :: MultiplyByShort_tail k (Z.quot carry internal_base)
      else []
  end.

(** Rounds with [i < lhs.NumberOfDigits()]; [ds] holds the limbs from
    index [i] on. *)
Fixpoint MultiplyByShort_loop (ds : list Z) (rhs carry : Z) : list Z :=
  match ds with
  | [] => MultiplyByShort_tail Int64.bits carry
  | d :: ds' =>
      let digit := Int64.add carry (Int64.mul d rhs) in
      Z.rem digit internal_base
        :: MultiplyByShort_loop ds' rhs (Z.quot digit internal_base)
  end.

Definition MultiplyByShort (lhs : BigInteger) (rhs : Z) : BigInteger :=
  let result := {| digits_ := MultiplyByShort_loop (digits_ lhs) rhs 0;
                   is_negative := false |} in
  let result := RemoveZeroes result in
  {| digits_ := digits_ result; is_negative := operator_lt_int lhs 0 |}.

(** ** Addition and subtraction *)

(** The loop of [operator+]; [xs] and [ys] hold the limbs of [*this] and
    of [rhs] from index [i] on, [s] is [rhs.Sign()].  The result lists the
    limbs pushed from this round on. *)
Fixpoint add_loop (fuel : nat) (xs ys : list Z) (s carry : Z) : outcome (list Z) :=
  match xs, negb (carry =? 0) with
  | [], false => Ret []
  | _, _ =>
      match fuel with
      | O => OutOfFuel
      | S f =>
          let digit := carry in
          let digit := match xs with
                       | x :: _ => Int64.add digit x
                       | [] => digit
                       end in
          let digit := match ys with
                       | y :: _ => Int64.add digit (Int64.mul s y)
                       | [] => digit
                       end in
          let leading := RemainderByBase digit in
          let carry' := Z.quot (Int64.sub digit leading) internal_base in
          r <- add_loop f (tl xs) (tl ys) s carry' ;;
          Ret (leading :: r)
      end
  end.

(** [operator+(const BigInteger&)] *)
Fixpoint operator_add (fuel : nat) (this rhs : BigInteger) : outcome BigInteger :=
  if CompareAbsoluteValues this rhs =? -1 then
    match fuel with
    | O => OutOfFuel
    | S f => operator_add f rhs this
    end
  else if operator_lt_int this 0 then
    match fuel with
    | O => OutOfFuel
    | S f =>
        r <- operator_add f (operator_neg this) (operator_neg rhs) ;;
        Ret (operator_neg r)
    end
  else
    ds <- add_loop fuel (digits_ this) (digits_ rhs) (Sign rhs) 0 ;;
    Ret (RemoveZeroes {| digits_ := ds; is_negative := false |}).

(** [operator-(const BigInteger&)] *)
Definition operator_sub (fuel : nat) (this rhs : BigInteger) : outcome BigInteger :=
  if operator_lt_int this 0
  then r <- operator_add fuel (operator_neg this) rhs ;; Ret (operator_neg r)
  else operator_add fuel this (operator_neg rhs).

(** ** Multiplication *)

(** The loop of [operator*] over the limbs of [rhs]; [ds] holds the limbs
    from index [i] on. *)
Fixpoint mul_loop (fuel : nat) (this : BigInteger) (ds : list Z) (i : nat)
                  (result : BigInteger) : outcome BigInteger :=
  match ds with
  | [] => Ret result
  | d :: ds' =>
      let lhs_times_digit := MultiplyByShort this d in
      let lhs_times_digit := InsertLeastSignificantDigits lhs_times_digit 0 i in
      result' <- operator_add fuel result lhs_times_digit ;;
      mul_loop fuel this ds' (S i) result'
  end.

(** [operator*(const BigInteger&)] *)
Fixpoint operator_mul (fuel : nat) (this rhs : BigInteger) : outcome BigInteger :=
  if operator_lt_int this 0 then
    match fuel with
    | O => OutOfFuel
    | S f => r <- operator_mul f (operator_neg this) rhs ;; Ret (operator_neg r)
    end
  else if operator_lt_int rhs 0 then
    match fuel with
    | O => OutOfFuel
    | S f => r <- operator_mul f this (operator_neg rhs) ;; Ret (operator_neg r)
    end
  else
    r <- mul_loop fuel this (digits_ rhs) 0 (BigInteger_of_int64 0) ;;
    Ret (RemoveZeroes r).

(** ** Division *)

(** The bisection of [GuessDigit].  The width [u - l] starts at
    [internal_base] and is halved each round, so [bound = Int64.bits]
    rounds are never used up (lemma [GuessDigit_loop_bound]). *)
Fixpoint GuessDigit_loop (bound : nat) (lhs rhs : BigInteger) (l u : Z) : Z :=
  match bound with
  | O => l
  | S k =>
      if Int64.add l 1 <? u then
        let middle_candidate := Z.quot (Int64.add l u) 2 in
        if operator_gt (MultiplyByShort rhs middle_candidate) lhs
        then GuessDigit_loop k lhs rhs l middle_candidate
        else GuessDigit_loop k lhs rhs middle_candidate u
      else l
  end.

Definition GuessDigit (lhs rhs : BigInteger) : Z :=
  GuessDigit_loop Int64.bits lhs rhs 0 internal_base.

(** The loop of [operator/] from the most significant limb of [*this]
    downward; [ds] holds the limbs still to be brought down, most
    significant first. *)
Fixpoint div_loop (fuel : nat) (ds : list Z) (rhs : BigInteger)
                  (reversed_result trailing_dividend : BigInteger)
  : outcome BigInteger :=
  match ds with
  | [] => Ret reversed_result
  | d :: ds' =>
      let trailing_dividend := InsertLeastSignificantDigit trailing_dividend d in
      let digit := GuessDigit trailing_dividend rhs in
      let reversed_result := PushDigitToEnd reversed_result digit in
      trailing_dividend <-
        operator_sub fuel trailing_dividend (MultiplyByShort rhs digit) ;;
      div_loop fuel ds' rhs reversed_result trailing_dividend
  end.

(** [operator/(const BigInteger&)] *)
Fixpoint operator_div (fuel : nat) (this rhs : BigInteger) : outcome BigInteger :=
  if operator_eq_int rhs 0 then Throw DivisionByZeroError
  else if operator_lt_int this 0 then
    match fuel with
    | O => OutOfFuel
    | S f => r <- operator_div f (operator_neg this) rhs ;; Ret (operator_neg r)
    end
  else if operator_lt_int rhs 0 then
    match fuel with
    | O => OutOfFuel
    | S f => r <- operator_div f this (operator_neg rhs) ;; Ret (operator_neg r)
    end
  else
    r <- div_loop fuel (rev (digits_ this)) rhs
                  (BigInteger_of_int64 0) (BigInteger_of_int64 0) ;;
    Ret (ReverseDigitsAndNormalize r).

(** Arithmetic against a native right operand promotes it. *)
Definition operator_add_int (fuel : nat) (this : BigInteger) (rhs : Z) :=
  operator_add fuel this (BigInteger_of_int64 rhs).
Definition operator_sub_int (fuel : nat) (this : BigInteger) (rhs : Z) :=
  operator_sub fuel this (BigInteger_of_int64 rhs).
Definition operator_mul_int (fuel : nat) (this : BigInteger) (rhs : Z) :=
  operator_mul fuel this (BigInteger_of_int64 rhs).
Definition operator_div_int (fuel : nat) (this : BigInteger) (rhs : Z) :=
  operator_div fuel this (BigInteger_of_int64 rhs).

(** ** Narrowing conversion and native remainder *)

(** The loop of [operator int64_t] over the limbs, least significant
    first: [result += digit * power], then [power *= internal_base]
    when the big-integer product of the two is at most [INT64_MAX]. *)
Fixpoint to_int64_loop (fuel : nat) (ds : list Z) (result power : Z) : outcome Z :=
  match ds with
  | [] => Ret result
  | digit :: ds' =>
      product <- checked (digit * power) ;;
      result <- checked (result + product) ;;
      next <- operator_mul_int fuel (BigInteger_of_int64 power) internal_base ;;
      power <- (if operator_le_int next INT64_MAX
                then checked (power * internal_base) else Ret power) ;;
      to_int64_loop fuel ds' result power
  end.

(** [explicit operator int64_t()] *)
Definition operator_int64 (fuel : nat) (this : BigInteger) : outcome Z :=
  if operator_gt_int this INT64_MAX || operator_lt_int this INT64_MIN
  then Throw (runtime_error "int64_t overflow")
  else
    result <- to_int64_loop fuel (digits_ this) 0 1 ;;
    checked (result * Sign this).

(** [uint32_t operator%(uint32_t rhs)]: the difference between [this]
    and [this / rhs * rhs], narrowed to [int64_t], plus [rhs], modulo
    [rhs]. *)
Definition operator_mod (fuel : nat) (this : BigInteger) (rhs : Z) : outcome Z :=
  quotient <- operator_div_int fuel this rhs ;;
  product <- operator_mul_int fuel quotient rhs ;;
  difference <- operator_sub fuel this product ;;
  narrowed <- operator_int64 fuel difference ;;
  Ret (wrap_uint32 (Z.rem (Int64.add narrowed rhs) rhs)).

(** ** Base conversion *)

Definition ThrowIfBaseIsInvalid (base : Z) : outcome unit :=
  if (base <? 2) || (base >? 36)
  then Throw (logic_error "Invalid base")
  else Ret tt.

Definition char_code (ch : ascii) : Z := Z.of_N (N_of_ascii ch).

(** [static_cast<char>] *)
Definition char_of_code (z : Z) : ascii := ascii_of_N (Z.to_N (z mod 256)).

Definition CharToDigit (ch : ascii) : Z :=
  if (char_code "0" <=? char_code ch) && (char_code ch <=? char_code "9")
  then char_code ch - char_code "0"
  else if (char_code "a" <=? char_code ch) && (char_code ch <=? char_code "z")
  then char_code ch - char_code "a" + 10
  else -1.

Definition DigitToChar (digit : Z) : ascii :=
  char_of_code (if digit <? 10
                then Int64.add digit (char_code "0")
                else Int64.add (Int64.sub digit 10) (char_code "a")).

Definition GetReversedBasePrefix (base : Z) : list ascii :=
  if base =? 8 then ["0"%char]
  else if base =? 16 then ["x"%char; "0"%char]
  else [].

(** [std::to_string(size_t)] *)
Definition to_string (i : nat) : string := NilEmpty.string_of_uint (Nat.to_uint i).

(** [input[0]]; for an empty string this is the terminating null. *)
Definition front (input : string) : ascii :=
  match input with
  | String c _ => c
  | EmptyString => zero
  end.

(** The first loop of [FromString]; [cs] holds the characters from
    index [i] on. *)
Fixpoint FromString_check (input : string) (cs : list ascii) (i : nat) (base : Z)
  : outcome unit :=
  match cs with
  | [] => Ret tt
  | c :: cs' =>
      if (i =? 0)%nat && (front input =? "-")%char
      then FromString_check input cs' (S i) base
      else
        let digit := CharToDigit c in
        if (digit >=? base) || (digit =? -1)
        then Throw (runtime_error ("Invalid symbol at index " ++ to_string i)%string)
        else FromString_check input cs' (S i) base
  end.

(** The second loop of [FromString], over the characters from the last
    to the first. *)
Fixpoint FromString_accumulate (fuel : nat) (cs : list ascii) (base : Z)
                               (result base_power : BigInteger)
  : outcome BigInteger :=
  match cs with
  | [] => Ret result
  | c :: cs' =>
      if (c =? "-")%char
      then FromString_accumulate fuel cs' base result base_power
      else
        result <- operator_add fuel result (MultiplyByShort base_power (CharToDigit c)) ;;
        FromString_accumulate fuel cs' base result (MultiplyByShort base_power base)
  end.

(** [static BigInteger FromString(const std::string&, int)] *)
Definition FromString (fuel : nat) (input : string) (base : Z) : outcome BigInteger :=
  ThrowIfBaseIsInvalid base ;;;
  FromString_check input (list_ascii_of_string input) 0 base ;;;
  result <- FromString_accumulate fuel (rev (list_ascii_of_string input)) base
              (BigInteger_of_int64 0) (BigInteger_of_int64 1) ;;
  Ret (if (front input =? "-")%char then operator_neg result else result).

(** The loop [while (temp != 0)] of [ToString]; the result lists the
    characters appended to [reversed_result]. *)
Fixpoint ToString_loop (fuel : nat) (temp : BigInteger) (base : Z)
  : outcome (list ascii) :=
  if operator_ne_int temp 0 then
    match fuel with
    | O => OutOfFuel
    | S f =>
        quotient <- operator_div_int f temp base ;;
        difference <- operator_sub f temp (MultiplyByShort quotient base) ;;
        digit <- operator_int64 f difference ;;
        temp' <- operator_div_int f temp base ;;
        rest <- ToString_loop f temp' base ;;
        Ret (DigitToChar digit :: rest)
    end
  else Ret [].

(** [std::string ToString(int base, bool should_show_base = false)] *)
Definition ToString (fuel : nat) (this : BigInteger) (base : Z) (should_show_base : bool)
  : outcome string :=
  ThrowIfBaseIsInvalid base ;;;
  let reversed_result := if operator_eq_int this 0 then ["0"%char] else [] in
  appended <- ToString_loop fuel (Abs this) base ;;
  let reversed_result := reversed_result ++ appended in
  let reversed_result :=
    if should_show_base
    then reversed_result ++ GetReversedBasePrefix base
    else reversed_result in
  let reversed_result :=
    if operator_lt_int this 0 then reversed_result ++ ["-"%char] else reversed_result in
  Ret (string_of_list_ascii (rev reversed_result)).

(** ** The output stream operator *)

(** The part of [std::ostream] that [operator<<] reads and writes: the
    [showbase] flag, the three bits of [basefield], and the characters
    written so far. *)
Record ostream : Type := mkOstream {
  showbase : bool;
  hex : bool;
  oct : bool;
  dec : bool;
  written : string
}.

Definition put_char (os : ostream) (c : ascii) : ostream :=
  {| showbase := showbase os; hex := hex os; oct := oct os; dec := dec os;
     written := (written os ++ String c EmptyString)%string |}.

Definition put_string (os : ostream) (s : string) : ostream :=
  {| showbase := showbase os; hex := hex os; oct := oct os; dec := dec os;
     written := (written os ++ s)%string |}.

(** The manipulators [std::hex], [std::oct], [std::showbase]. *)
Definition set_hex (os : ostream) : ostream :=
  {| showbase := showbase os; hex := true; oct := false; dec := false;
     written := written os |}.
Definition set_oct (os : ostream) : ostream :=
  {| showbase := showbase os; hex := false; oct := true; dec := false;
     written := written os |}.
Definition set_showbase (os : ostream) : ostream :=
  {| showbase := true; hex := hex os; oct := oct os; dec := dec os;
     written := written os |}.

(** [GetStreamBase] of the anonymous namespace (not called by
    [operator<<]). *)
Definition GetStreamBase (os : ostream) : Z :=
  if hex os && negb (oct os) && negb (dec os) then 16
  else if oct os && negb (hex os) && negb (dec os) then 8
  else 10.

(** [std::ostream& operator<<(std::ostream&, const BigInteger&)] *)
Definition operator_shl (fuel : nat) (os : ostream) (big_int : BigInteger)
  : outcome ostream :=
  str <- ToString fuel big_int 10 false ;;
  if showbase os then
    if hex os then
      if operator_lt_int big_int 0
      then Ret (put_string (set_showbase (set_hex (put_char os "-"))) str)
      else Ret (put_string (set_showbase (set_hex os)) str)
    else if oct os then
      if operator_lt_int big_int 0
      then Ret (put_string (set_showbase (set_oct (put_char os "-"))) str)
      else Ret (put_string (set_showbase (set_oct os)) str)
    else
      if operator_lt_int big_int 0
      then Ret (put_string (put_char os "-") str)
      else Ret (put_string os str)
  else Ret (put_string os str).

(** ** The abstract value and the canonical form *)

(** The magnitude denoted by a limb vector: the sum of [limb i * B^i]. *)
Fixpoint val (l : list Z) : Z :=
  match l with
  | [] => 0
  | d :: t => d + internal_base * val t
  end.

(** The integer denoted by a representation. *)
Definition value (x : BigInteger) : Z := Sign x * val (digits_ x).

(** Every limb lies in [[0, B)]. *)
Definition digits_ok (l : list Z) : bool :=
  forallb (fun d => (0 <=? d) && (d <? internal_base)) l.

(** The most significant limb, when there is one, is not zero. *)
Definition trimmed (l : list Z) : bool :=
  match rev l with
  | [] => true
  | d :: _ => negb (d =? 0)
  end.

(** Canonical form: limbs in range and no most-significant zero limb, so
    that zero is the empty vector.  The flag is left free. *)
Definition canonical (x : BigInteger) : bool :=
  digits_ok (digits_ x) && trimmed (digits_ x).

(** [f] finishes with [v] whenever it is given enough fuel. *)
Definition finishes {A : Type} (f : nat -> outcome A) (v : A) : Prop :=
  exists n, forall fuel, (n <= fuel)%nat -> f fuel = Ret v.

(** The running remainder after a limb has been brought down: limbs in
    range, flag clear, and either trimmed or the single limb 0 (a zero
    limb brought down onto an empty remainder). *)
Definition trailing_ok (t : BigInteger) : Prop :=
  digits_ok (digits_ t) = true /\ is_negative t = false /\ digits_ t <> [] /\
  (trimmed (digits_ t) = true \/ digits_ t = [0]).

(** [f] settles on the outcome [o] whenever it is given enough fuel. *)
Definition settles {A : Type} (f : nat -> outcome A) (o : outcome A) : Prop :=
  exists n, forall fuel, (n <= fuel)%nat -> f fuel = o.

(** The power kept by the loop of [operator int64_t] after a round:
    multiplied by the base while the product still fits. *)
Definition next_power (power : Z) : outcome Z :=
  if power * internal_base <=? INT64_MAX
  then checked (power * internal_base) else Ret power.

(** The accumulation of [operator int64_t] once the big-integer test of
    each round is replaced by its verdict. *)
Fixpoint to_int64_acc (ds : list Z) (result power : Z) : outcome Z :=
  match ds with
  | [] => Ret result
  | digit :: ds' =>
      product <- checked (digit * power) ;;
      result <- checked (result + product) ;;
      power <- next_power power ;;
      to_int64_acc ds' result power
  end.

(** The number written by a sequence of digit characters, least
    significant first. *)
Fixpoint digits_value (base : Z) (cs : list ascii) : Z :=
  match cs with
  | [] => 0
  | c :: r => CharToDigit c + base * digits_value base r
  end.

(** The test of the first loop of [FromString] on one character, negated:
    the character maps to a digit below the base. *)
Definition digit_ok (base : Z) (c : ascii) : bool :=
  negb ((CharToDigit c >=? base) || (CharToDigit c =? -1)).

(** The outcome is not a thrown exception. *)
Definition no_throw {A : Type} (o : outcome A) : Prop :=
  match o with
  | Throw _ => False
  | _ => True
  end.

(** ** Further operators of the class *)

(** The friend forms of the arithmetic with the native operand on the
    left promote it. *)
Definition int_operator_add (fuel : nat) (lhs : Z) (rhs : BigInteger) :=
  operator_add fuel (BigInteger_of_int64 lhs) rhs.
Definition int_operator_sub (fuel : nat) (lhs : Z) (rhs : BigInteger) :=
  operator_sub fuel (BigInteger_of_int64 lhs) rhs.
Definition int_operator_mul (fuel : nat) (lhs : Z) (rhs : BigInteger) :=
  operator_mul fuel (BigInteger_of_int64 lhs) rhs.
Definition int_operator_div (fuel : nat) (lhs : Z) (rhs : BigInteger) :=
  operator_div fuel (BigInteger_of_int64 lhs) rhs.

(** The compound assignments store the result of the binary operator in
    [*this]; the outcome is the new [*this]. *)
Definition operator_add_assign (fuel : nat) (this rhs : BigInteger) :=
  operator_add fuel this rhs.
Definition operator_sub_assign (fuel : nat) (this rhs : BigInteger) :=
  operator_sub fuel this rhs.
Definition operator_mul_assign (fuel : nat) (this rhs : BigInteger) :=
  operator_mul fuel this rhs.
Definition operator_div_assign (fuel : nat) (this rhs : BigInteger) :=
  operator_div fuel this rhs.

Definition operator_add_assign_int (fuel : nat) (this : BigInteger) (value : Z) :=
  operator_add_assign fuel this (BigInteger_of_int64 value).
Definition operator_sub_assign_int (fuel : nat) (this : BigInteger) (value : Z) :=
  operator_sub_assign fuel this (BigInteger_of_int64 value).
Definition operator_mul_assign_int (fuel : nat) (this : BigInteger) (value : Z) :=
  operator_mul_assign fuel this (BigInteger_of_int64 value).
Definition operator_div_assign_int (fuel : nat) (this : BigInteger) (value : Z) :=
  operator_div_assign fuel this (BigInteger_of_int64 value).

(** Increment and decrement.  The outcome pairs the new [*this] with the
    value returned: the copy taken before the update for the postfix
    forms, the updated object for the prefix forms. *)
Definition operator_post_inc (fuel : nat) (this : BigInteger)
  : outcome (BigInteger * BigInteger) :=
  let temp := this in
  this' <- operator_add_assign_int fuel this 1 ;;
  Ret (this', temp).

Definition operator_pre_inc (fuel : nat) (this : BigInteger)
  : outcome (BigInteger * BigInteger) :=
  this' <- operator_add_assign_int fuel this 1 ;;
  Ret (this', this').

Definition operator_post_dec (fuel : nat) (this : BigInteger)
  : outcome (BigInteger * BigInteger) :=
  let temp := this in
  this' <- operator_sub_assign_int fuel this 1 ;;
  Ret (this', temp).

Definition operator_pre_dec (fuel : nat) (this : BigInteger)
  : outcome (BigInteger * BigInteger) :=
  this' <- operator_sub_assign_int fuel this 1 ;;
  Ret (this', this').

(** ** The input stream operator *)

(** The part of [std::istream] that [operator>>] uses: the [hex] and
    [oct] bits of its flags, and [token], the whitespace-delimited word
    that [is >> number] stores in [number] (empty when nothing could be
    extracted). *)
Record istream : Type := mkIstream {
  in_hex : bool;
  in_oct : bool;
  token : string
}.

(** What a call of [operator>>] comes to: [std::out_of_range] thrown by
    [std::string::at] or [std::string::substr], or the outcome of the
    parse and of the multiplication by the sign. *)
Inductive extraction : Type :=
| StringOutOfRange : extraction
| Parsed : outcome BigInteger -> extraction.

(** [s.substr(pos, n)]: throws (here [None]) when [pos > s.size()].  The
    count is written as the source computes it, [size - pos]; the
    wrap-around of that subtraction for [size < pos] is never reached,
    since [substr] throws there. *)
Definition substr (s : string) (pos n : nat) : option string :=
  if (pos <=? String.length s)%nat then Some (substring pos n s) else None.

(** [std::istream& operator>>(std::istream&, BigInteger&)]; the result is
    what is stored in [big_int]. *)
Definition operator_shr (fuel : nat) (ins : istream) : extraction :=
  let number := token ins in
  match number with
  | EmptyString => StringOutOfRange                    (* number.at(0) *)
  | String c rest =>
      let sign := if (c =? "-")%char then -1 else 1 in
      let number := if (c =? "-")%char then rest else number in
      let parsed :=
        if in_hex ins then
          match substr number 2 (String.length number - 2) with
          | None => None
          | Some number16 => Some (FromString fuel number16 16)
          end
        else if in_oct ins then
          match substr number 1 (String.length number - 1) with
          | None => None
          | Some number8 => Some (FromString fuel number8 8)
          end
        else Some (FromString fuel number 10) in
      match parsed with
      | None => StringOutOfRange
      | Some o => Parsed (big_int <- o ;; operator_mul_assign_int fuel big_int sign)
      end
  end.

(** The value written by a sequence of digit characters, most
    significant first (Horner's rule). *)
Definition numeral_value (base : Z) (body : list ascii) : Z :=
  fold_left (fun acc c => acc * base + CharToDigit c) body 0.


(** * Proofs *)

#[local] Arguments internal_base : simpl never.
#[local] Arguments Z.mul : simpl never.
#[local] Arguments Z.add : simpl never.
#[local] Arguments Z.sub : simpl never.
#[local] Arguments Z.pow : simpl never.
#[local] Arguments Z.quot : simpl never.
#[local] Arguments Z.rem : simpl never.
#[local] Arguments Z.div : simpl never.
#[local] Arguments Z.modulo : simpl never.
#[local] Arguments Z.of_nat : simpl never.
#[local] Arguments Int64.bits : simpl never.

(** ** Machine arithmetic *)

Lemma wrap_small (z : Z) : Int64.in_range z -> Int64.wrap z = z.
Proof.
  unfold Int64.in_range, Int64.min_signed, Int64.max_signed, Int64.wrap.
  intros H. rewrite Z.mod_small by lia. lia.
Qed.

Lemma add_small (a b : Z) :
  -9223372036854775808 <= a + b <= 9223372036854775807 -> Int64.add a b = a + b.
Proof. intros; apply wrap_small; exact H. Qed.

Lemma sub_small (a b : Z) :
  -9223372036854775808 <= a - b <= 9223372036854775807 -> Int64.sub a b = a - b.
Proof. intros; apply wrap_small; exact H. Qed.

Lemma mul_small (a b : Z) :
  -9223372036854775808 <= a * b <= 9223372036854775807 -> Int64.mul a b = a * b.
Proof. intros; apply wrap_small; exact H. Qed.

Lemma wrap_in_range (z : Z) : Int64.in_range (Int64.wrap z).
Proof.
  unfold Int64.in_range, Int64.min_signed, Int64.max_signed, Int64.wrap.
  pose proof (Z.mod_pos_bound (z + 9223372036854775808) 18446744073709551616).
  lia.
Qed.

(** ** Running with enough fuel *)

Lemma finishes_ret {A : Type} (v : A) : finishes (fun _ => Ret v) v.
Proof. exists 0%nat; reflexivity. Qed.

Lemma finishes_bind {A B : Type} (f : nat -> outcome A) (g : A -> nat -> outcome B)
      (v : A) (w : B) :
  finishes f v -> finishes (g v) w ->
  finishes (fun fuel => x <- f fuel ;; g x fuel) w.
Proof.
  intros [n Hn] [m Hm]. exists (Nat.max n m). intros fuel Hf.
  rewrite Hn by lia. simpl. apply Hm; lia.
Qed.

Lemma finishes_ext {A : Type} (f g : nat -> outcome A) (v : A) :
  (forall fuel, f fuel = g fuel) -> finishes f v -> finishes g v.
Proof.
  intros E [n Hn]. exists n. intros fuel Hf. rewrite <- E. auto.
Qed.

Lemma finishes_succ {A : Type} (f : nat -> outcome A) (v : A) :
  finishes f v ->
  finishes (fun fuel => match fuel with O => OutOfFuel | S k => f k end) v.
Proof.
  intros [n Hn]. exists (S n). intros [|k] Hf; [lia|]. apply Hn; lia.
Qed.

Lemma finishes_unique {A : Type} (f : nat -> outcome A) (v w : A) :
  finishes f v -> finishes f w -> v = w.
Proof.
  intros [n Hn] [m Hm].
  specialize (Hn (Nat.max n m) ltac:(lia)). specialize (Hm (Nat.max n m) ltac:(lia)).
  congruence.
Qed.

(** ** Limb vectors *)

Lemma base_pos : 0 < internal_base.
Proof. reflexivity. Qed.

Lemma val_app (l r : list Z) :
  val (l ++ r) = val l + internal_base ^ Z.of_nat (length l) * val r.
Proof.
  induction l as [|d l IH]; simpl val.
  - simpl app. simpl length. rewrite Z.pow_0_r. lia.
  - simpl app. simpl val. rewrite IH. change (length (d :: l)) with (S (length l)).
    rewrite Nat2Z.inj_succ, Z.pow_succ_r by lia. ring.
Qed.

Lemma digits_ok_cons (d : Z) (l : list Z) :
  digits_ok (d :: l) = true <-> (0 <= d < internal_base) /\ digits_ok l = true.
Proof.
  unfold digits_ok; simpl. rewrite !andb_true_iff, Z.leb_le, Z.ltb_lt. tauto.
Qed.

Lemma digits_ok_app (l r : list Z) :
  digits_ok (l ++ r) = true <-> digits_ok l = true /\ digits_ok r = true.
Proof.
  unfold digits_ok. rewrite forallb_app, andb_true_iff. tauto.
Qed.

Lemma digits_ok_rev (l : list Z) : digits_ok (rev l) = digits_ok l.
Proof.
  induction l as [|d l IH]; [reflexivity|].
  simpl rev. unfold digits_ok in *. rewrite forallb_app, IH. simpl.
  rewrite andb_true_r. apply andb_comm.
Qed.

Lemma val_bounds (l : list Z) :
  digits_ok l = true -> 0 <= val l < internal_base ^ Z.of_nat (length l).
Proof.
  induction l as [|d l IH]; intros H.
  - simpl. lia.
  - apply digits_ok_cons in H. destruct H as [Hd Hl]. specialize (IH Hl).
    change (length (d :: l)) with (S (length l)).
    rewrite Nat2Z.inj_succ, Z.pow_succ_r by lia. simpl val.
    pose proof base_pos. nia.
Qed.

Lemma val_nonneg (l : list Z) : digits_ok l = true -> 0 <= val l.
Proof. intros H; apply val_bounds in H; lia. Qed.

Lemma trimmed_snoc (l : list Z) (d : Z) : trimmed (l ++ [d]) = negb (d =? 0).
Proof. unfold trimmed. rewrite rev_app_distr. reflexivity. Qed.

Lemma trimmed_nil : trimmed [] = true.
Proof. reflexivity. Qed.

Lemma trimmed_cons (d : Z) (l : list Z) :
  l <> [] -> trimmed (d :: l) = trimmed l.
Proof.
  intros Hl. destruct (exists_last Hl) as [l' [e ->]].
  rewrite app_comm_cons, !trimmed_snoc. reflexivity.
Qed.

Lemma trimmed_single (d : Z) : trimmed [d] = negb (d =? 0).
Proof. reflexivity. Qed.

(** A trimmed non-empty vector denotes at least [B^(n-1)]. *)
Lemma val_lower (l : list Z) :
  digits_ok l = true -> trimmed l = true -> l <> [] ->
  internal_base ^ Z.of_nat (length l - 1) <= val l.
Proof.
  intros Hok Htr Hl. destruct (exists_last Hl) as [l' [e ->]].
  rewrite trimmed_snoc in Htr. apply digits_ok_app in Hok. destruct Hok as [Hl' He].
  apply digits_ok_cons in He. destruct He as [He _].
  rewrite val_app. simpl val. rewrite length_app. simpl length.
  replace (length l' + 1 - 1)%nat with (length l') by lia.
  pose proof (val_nonneg _ Hl').
  assert (0 < internal_base ^ Z.of_nat (length l')) by (apply Z.pow_pos_nonneg; [reflexivity|lia]).
  apply negb_true_iff, Z.eqb_neq in Htr. nia.
Qed.

Lemma val_pos (l : list Z) :
  digits_ok l = true -> trimmed l = true -> l <> [] -> 0 < val l.
Proof.
  intros Hok Htr Hl. pose proof (val_lower l Hok Htr Hl).
  assert (0 < internal_base ^ Z.of_nat (length l - 1)) by (apply Z.pow_pos_nonneg; [reflexivity|lia]).
  lia.
Qed.

Lemma val_zero_nil (l : list Z) :
  digits_ok l = true -> trimmed l = true -> val l = 0 -> l = [].
Proof.
  intros Hok Htr Hv. destruct l as [|d l]; [reflexivity|].
  pose proof (val_pos (d :: l) Hok Htr ltac:(discriminate)). lia.
Qed.

(** ** Normalisation *)

Lemma skip_zeroes_spec (r : list Z) :
  exists k, r = repeat 0 k ++ skip_zeroes r.
Proof.
  induction r as [|d r [k IH]].
  - exists 0%nat. reflexivity.
  - simpl. destruct (Z.eqb_spec d 0) as [->|Hd]; simpl.
    + exists (S k). simpl. f_equal. exact IH.
    + exists 0%nat. reflexivity.
Qed.

Lemma skip_zeroes_head (r : list Z) :
  match skip_zeroes r with [] => True | d :: _ => d <> 0 end.
Proof.
  induction r as [|d r IH]; simpl; [exact I|].
  destruct (Z.eqb_spec d 0); simpl; auto.
Qed.

Lemma RemoveZeroes_digits (x : BigInteger) :
  digits_ (RemoveZeroes x) = rev (skip_zeroes (rev (digits_ x))).
Proof.
  unfold RemoveZeroes. simpl.
  destruct (skip_zeroes_spec (rev (digits_ x))) as [k Hk].
  set (s := skip_zeroes (rev (digits_ x))) in *.
  assert (E : digits_ x = rev s ++ repeat 0 k).
  { rewrite <- (rev_involutive (digits_ x)), Hk, rev_app_distr.
    f_equal. clear. induction k; simpl; [reflexivity|].
    rewrite IHk. clear. induction k; simpl; [reflexivity|]. f_equal; exact IHk. }
  rewrite E, <- (length_rev s), firstn_app, Nat.sub_diag, firstn_all. simpl.
  apply app_nil_r.
Qed.

Lemma val_repeat_zero (k : nat) : val (repeat 0 k) = 0.
Proof. induction k; simpl; [reflexivity|]. rewrite IHk. lia. Qed.

Lemma digits_ok_repeat_zero (k : nat) : digits_ok (repeat 0 k) = true.
Proof. induction k; simpl; [reflexivity|]. exact IHk. Qed.

Lemma rev_repeat {A : Type} (a : A) (k : nat) : rev (repeat a k) = repeat a k.
Proof.
  induction k; simpl; [reflexivity|]. rewrite IHk. clear.
  induction k; simpl; [reflexivity|]. f_equal; exact IHk.
Qed.

Lemma RemoveZeroes_decompose (x : BigInteger) :
  exists k, digits_ x = digits_ (RemoveZeroes x) ++ repeat 0 k.
Proof.
  rewrite RemoveZeroes_digits.
  destruct (skip_zeroes_spec (rev (digits_ x))) as [k Hk]. exists k.
  rewrite <- (rev_involutive (digits_ x)), Hk at 1.
  rewrite rev_app_distr, rev_repeat. reflexivity.
Qed.

Lemma RemoveZeroes_val (x : BigInteger) :
  val (digits_ (RemoveZeroes x)) = val (digits_ x).
Proof.
  destruct (RemoveZeroes_decompose x) as [k Hk]. rewrite Hk at 1.
  rewrite val_app, val_repeat_zero. lia.
Qed.

Lemma RemoveZeroes_digits_ok (x : BigInteger) :
  digits_ok (digits_ x) = true -> digits_ok (digits_ (RemoveZeroes x)) = true.
Proof.
  destruct (RemoveZeroes_decompose x) as [k Hk]. rewrite Hk at 1.
  rewrite digits_ok_app. tauto.
Qed.

Lemma RemoveZeroes_trimmed (x : BigInteger) :
  trimmed (digits_ (RemoveZeroes x)) = true.
Proof.
  rewrite RemoveZeroes_digits. unfold trimmed. rewrite rev_involutive.
  pose proof (skip_zeroes_head (rev (digits_ x))) as H.
  destruct (skip_zeroes (rev (digits_ x))); [reflexivity|].
  apply negb_true_iff, Z.eqb_neq. exact H.
Qed.

Lemma RemoveZeroes_canonical (x : BigInteger) :
  digits_ok (digits_ x) = true -> canonical (RemoveZeroes x) = true.
Proof.
  intros H. unfold canonical.
  rewrite RemoveZeroes_digits_ok, RemoveZeroes_trimmed; auto.
Qed.

Lemma RemoveZeroes_flag (x : BigInteger) :
  is_negative (RemoveZeroes x) = is_negative x.
Proof. reflexivity. Qed.

Lemma skip_zeroes_id (r : list Z) :
  match r with [] => True | d :: _ => d <> 0 end -> skip_zeroes r = r.
Proof.
  destruct r as [|d r]; simpl; [reflexivity|].
  intros H. apply Z.eqb_neq in H. rewrite H. reflexivity.
Qed.

Lemma RemoveZeroes_trimmed_id (l : list Z) (b : bool) :
  trimmed l = true -> digits_ (RemoveZeroes (mkBigInteger l b)) = l.
Proof.
  intros H. rewrite RemoveZeroes_digits. simpl.
  rewrite skip_zeroes_id; [apply rev_involutive|].
  unfold trimmed in H. destruct (rev l); [exact I|].
  apply negb_true_iff, Z.eqb_neq in H. exact H.
Qed.

(** ** Signs and values *)

Lemma Sign_cases (x : BigInteger) :
  (digits_ x = [] /\ Sign x = 0) \/
  (digits_ x <> [] /\ is_negative x = true /\ Sign x = -1) \/
  (digits_ x <> [] /\ is_negative x = false /\ Sign x = 1).
Proof.
  unfold Sign, NumberOfDigits. destruct (digits_ x) as [|d l]; simpl length.
  - left. auto.
  - right. rewrite Nat2Z.inj_succ.
    destruct (Z.eqb_spec (Z.succ (Z.of_nat (length l))) 0); [lia|].
    destruct (is_negative x); [left|right]; repeat split; discriminate.
Qed.

Lemma Sign_nil (b : bool) : Sign (mkBigInteger [] b) = 0.
Proof. reflexivity. Qed.

Lemma Sign_Negate (x : BigInteger) : Sign (Negate x) = - Sign x.
Proof.
  unfold Sign, NumberOfDigits, Negate. simpl.
  destruct (Z.of_nat (length (digits_ x)) =? 0); [reflexivity|].
  destruct (is_negative x); reflexivity.
Qed.

Lemma value_Negate (x : BigInteger) : value (operator_neg x) = - value x.
Proof. unfold value, operator_neg. rewrite Sign_Negate. simpl. ring. Qed.

Lemma canonical_Negate (x : BigInteger) : canonical (operator_neg x) = canonical x.
Proof. reflexivity. Qed.

Lemma canonical_parts (x : BigInteger) :
  canonical x = true <-> digits_ok (digits_ x) = true /\ trimmed (digits_ x) = true.
Proof. unfold canonical. apply andb_true_iff. Qed.

(** For a canonical representation the sign query is the sign of the
    value, and the value is zero exactly for the empty vector. *)
Lemma Sign_value (x : BigInteger) :
  canonical x = true -> Sign x = Z.sgn (value x).
Proof.
  intros H. apply canonical_parts in H. destruct H as [Hok Htr].
  unfold value.
  destruct (Sign_cases x) as [[E S]|[[E [_ S]]|[E [_ S]]]]; rewrite S.
  - reflexivity.
  - pose proof (val_pos _ Hok Htr E). lia.
  - pose proof (val_pos _ Hok Htr E). lia.
Qed.

Lemma value_abs (x : BigInteger) :
  canonical x = true -> Z.abs (value x) = val (digits_ x).
Proof.
  intros H. apply canonical_parts in H. destruct H as [Hok Htr].
  unfold value. pose proof (val_nonneg _ Hok).
  destruct (Sign_cases x) as [[E S]|[[E [_ S]]|[E [_ S]]]]; rewrite S.
  - rewrite E. reflexivity.
  - lia.
  - lia.
Qed.

Lemma value_zero_digits (x : BigInteger) :
  canonical x = true -> (value x = 0 <-> digits_ x = []).
Proof.
  intros H. pose proof (value_abs x H) as Ha.
  apply canonical_parts in H. destruct H as [Hok Htr]. split.
  - intros E. apply val_zero_nil; auto. lia.
  - intros E. unfold value. rewrite E. simpl. lia.
Qed.

(** ** The absolute-value comparator *)

Lemma compare_from_top_spec (l r : list Z) :
  length l = length r -> digits_ok l = true -> digits_ok r = true ->
  compare_from_top l r = Z.sgn (val (rev l) - val (rev r)).
Proof.
  revert r. induction l as [|x l IH]; intros [|y r] Hlen Hl Hr; try discriminate.
  - reflexivity.
  - apply digits_ok_cons in Hl. apply digits_ok_cons in Hr.
    destruct Hl as [Hx Hl], Hr as [Hy Hr]. injection Hlen as Hlen.
    simpl rev. rewrite !val_app, !length_rev, <- Hlen. simpl val.
    rewrite <- digits_ok_rev in Hl, Hr.
    pose proof (val_bounds _ Hl) as Bl. pose proof (val_bounds _ Hr) as Br.
    rewrite length_rev in Bl, Br. rewrite <- Hlen in Br.
    rewrite digits_ok_rev in Hl, Hr.
    simpl compare_from_top.
    set (P := internal_base ^ Z.of_nat (length l)) in *.
    destruct (Z.eqb_spec x y) as [->|Hxy]; simpl negb; cbv iota.
    + rewrite (IH r Hlen Hl Hr). f_equal. lia.
    + destruct (Z.ltb_spec x y); nia.
Qed.

Lemma CompareAbsoluteValues_range (a b : BigInteger) :
  CompareAbsoluteValues a b = -1 \/ CompareAbsoluteValues a b = 0 \/
  CompareAbsoluteValues a b = 1.
Proof.
  unfold CompareAbsoluteValues.
  destruct (negb (NumberOfDigits a =? NumberOfDigits b)).
  - destruct (NumberOfDigits a <? NumberOfDigits b); auto.
  - generalize (rev (digits_ a)) (rev (digits_ b)). intros l.
    induction l as [|x l IH]; intros [|y r]; simpl; auto.
    destruct (negb (x =? y)); [destruct (x <? y); auto | apply IH].
Qed.

(** The comparator never answers "not smaller" for a shorter vector. *)
Lemma CompareAbsoluteValues_length (a b : BigInteger) :
  CompareAbsoluteValues a b <> -1 -> (length (digits_ b) <= length (digits_ a))%nat.
Proof.
  unfold CompareAbsoluteValues, NumberOfDigits.
  destruct (Z.eqb_spec (Z.of_nat (length (digits_ a))) (Z.of_nat (length (digits_ b))));
    simpl negb; cbv iota; [lia|].
  destruct (Z.ltb_spec (Z.of_nat (length (digits_ a))) (Z.of_nat (length (digits_ b))));
    [congruence | lia].
Qed.

Lemma compare_from_top_swap (l r : list Z) :
  compare_from_top l r = -1 -> compare_from_top r l = 1.
Proof.
  revert r. induction l as [|x l IH]; intros [|y r]; simpl; try discriminate.
  destruct (Z.eqb_spec x y) as [->|Hxy]; simpl negb; cbv iota.
  - rewrite Z.eqb_refl. simpl. apply IH.
  - destruct (Z.eqb_spec y x); [congruence|]. simpl.
    destruct (Z.ltb_spec x y); [|discriminate].
    destruct (Z.ltb_spec y x); [lia|reflexivity].
Qed.

Lemma CompareAbsoluteValues_swap (a b : BigInteger) :
  CompareAbsoluteValues a b = -1 -> CompareAbsoluteValues b a = 1.
Proof.
  unfold CompareAbsoluteValues. rewrite (Z.eqb_sym (NumberOfDigits b)).
  destruct (Z.eqb_spec (NumberOfDigits a) (NumberOfDigits b)); simpl negb; cbv iota.
  - apply compare_from_top_swap.
  - destruct (Z.ltb_spec (NumberOfDigits a) (NumberOfDigits b)); [|discriminate].
    destruct (Z.ltb_spec (NumberOfDigits b) (NumberOfDigits a)); [lia|reflexivity].
Qed.

Lemma CompareAbsoluteValues_flags (l r : list Z) (b1 b2 b3 b4 : bool) :
  CompareAbsoluteValues (mkBigInteger l b1) (mkBigInteger r b2) =
  CompareAbsoluteValues (mkBigInteger l b3) (mkBigInteger r b4).
Proof. reflexivity. Qed.

(** On trimmed vectors with limbs in range the comparator orders the
    magnitudes. *)
Lemma CompareAbsoluteValues_spec (a b : BigInteger) :
  canonical a = true -> canonical b = true ->
  CompareAbsoluteValues a b = Z.sgn (val (digits_ a) - val (digits_ b)).
Proof.
  intros Ha Hb. apply canonical_parts in Ha, Hb.
  destruct Ha as [Oa Ta], Hb as [Ob Tb].
  unfold CompareAbsoluteValues, NumberOfDigits.
  pose proof (val_bounds _ Oa) as Ba. pose proof (val_bounds _ Ob) as Bb.
  destruct (Z.eqb_spec (Z.of_nat (length (digits_ a))) (Z.of_nat (length (digits_ b))))
    as [E|E]; simpl negb; cbv iota.
  - rewrite compare_from_top_spec.
    + rewrite !rev_involutive. reflexivity.
    + rewrite !length_rev. lia.
    + rewrite digits_ok_rev. exact Oa.
    + rewrite digits_ok_rev. exact Ob.
  - destruct (Z.ltb_spec (Z.of_nat (length (digits_ a))) (Z.of_nat (length (digits_ b)))).
    + assert (Nb : digits_ b <> []) by (intros N; rewrite N in *; simpl in *; lia).
      pose proof (val_lower _ Ob Tb Nb).
      assert (internal_base ^ Z.of_nat (length (digits_ a))
              <= internal_base ^ Z.of_nat (length (digits_ b) - 1))
        by (apply Z.pow_le_mono_r; [reflexivity|lia]).
      lia.
    + assert (Na : digits_ a <> []) by (intros N; rewrite N in *; simpl in *; lia).
      pose proof (val_lower _ Oa Ta Na).
      assert (internal_base ^ Z.of_nat (length (digits_ b))
              <= internal_base ^ Z.of_nat (length (digits_ a) - 1))
        by (apply Z.pow_le_mono_r; [reflexivity|lia]).
      lia.
Qed.

(** ** The relational operators on canonical operands *)

Lemma operator_eq_spec (a b : BigInteger) :
  canonical a = true -> canonical b = true ->
  operator_eq a b = (value a =? value b).
Proof.
  intros Ha Hb. unfold operator_eq.
  rewrite (CompareAbsoluteValues_spec a b Ha Hb).
  rewrite (Sign_value a Ha), (Sign_value b Hb).
  pose proof (value_abs a Ha). pose proof (value_abs b Hb).
  destruct (Z.eqb_spec (Z.sgn (value a)) (Z.sgn (value b))); simpl negb; cbv iota.
  - destruct (Z.eqb_spec (value a) (value b)), 
             (Z.eqb_spec (Z.sgn (val (digits_ a) - val (digits_ b))) 0); try reflexivity; lia.
  - destruct (Z.eqb_spec (value a) (value b)); [congruence|reflexivity].
Qed.

Lemma operator_lt_spec (a b : BigInteger) :
  canonical a = true -> canonical b = true ->
  operator_lt a b = (value a <? value b).
Proof.
  intros Ha Hb. unfold operator_lt.
  rewrite (CompareAbsoluteValues_spec a b Ha Hb).
  rewrite (Sign_value a Ha), (Sign_value b Hb).
  pose proof (value_abs a Ha). pose proof (value_abs b Hb).
  destruct (Z.eqb_spec (Z.sgn (value a)) (Z.sgn (value b))); simpl negb; cbv iota.
  - destruct (Z.ltb_spec (value a) (value b)),
      (Z.eqb_spec (Z.sgn (val (digits_ a) - val (digits_ b)) * Z.sgn (value a)) (-1));
      try reflexivity; lia.
  - destruct (Z.ltb_spec (value a) (value b)),
      (Z.ltb_spec (Z.sgn (value a)) (Z.sgn (value b))); try reflexivity; lia.
Qed.

Lemma operator_gt_spec (a b : BigInteger) :
  canonical a = true -> canonical b = true ->
  operator_gt a b = (value b <? value a).
Proof.
  intros Ha Hb. unfold operator_gt.
  rewrite operator_eq_spec, operator_lt_spec by assumption.
  destruct (Z.eqb_spec (value a) (value b)), (Z.ltb_spec (value a) (value b)),
    (Z.ltb_spec (value b) (value a)); try reflexivity; lia.
Qed.

Lemma operator_le_spec (a b : BigInteger) :
  canonical a = true -> canonical b = true ->
  operator_le a b = (value a <=? value b).
Proof.
  intros Ha Hb. unfold operator_le.
  rewrite operator_eq_spec, operator_lt_spec by assumption.
  destruct (Z.eqb_spec (value a) (value b)), (Z.ltb_spec (value a) (value b)),
    (Z.leb_spec (value a) (value b)); try reflexivity; lia.
Qed.

(** ** Construction from a native integer *)

Lemma ctor_loop_spec (bound : nat) (v : Z) :
  Z.abs v < internal_base ^ Z.of_nat bound ->
  val (ctor_loop bound v) = Z.abs v /\
  digits_ok (ctor_loop bound v) = true /\
  trimmed (ctor_loop bound v) = true /\
  (v <> 0 -> ctor_loop bound v <> []).
Proof.
  revert v. induction bound as [|k IH]; intros v Hv.
  - change (Z.of_nat 0) with 0 in Hv. rewrite Z.pow_0_r in Hv.
    assert (v = 0) by lia. subst v. simpl. repeat split; auto.
  - rewrite Nat2Z.inj_succ, Z.pow_succ_r in Hv by lia.
    simpl ctor_loop. destruct (Z.eqb_spec v 0) as [->|Hv0]; simpl negb; cbv iota.
    + repeat split; auto.
    + pose proof (Z.quot_rem' v internal_base) as QR.
      pose proof base_pos as BP.
      assert (0 < internal_base ^ Z.of_nat k) by (apply Z.pow_pos_nonneg; lia).
      assert (Hq : Z.abs (Z.quot v internal_base) < internal_base ^ Z.of_nat k)
        by (unfold internal_base in *; Z.to_euclidean_division_equations; nia).
      destruct (IH _ Hq) as [V [O [T N]]].
      assert (Hr : Z.abs (Z.rem v internal_base) < internal_base)
        by (unfold internal_base in *; Z.to_euclidean_division_equations; lia).
      assert (Hsum : Z.abs v = Z.abs (Z.rem v internal_base)
                               + internal_base * Z.abs (Z.quot v internal_base))
        by (unfold internal_base in *; Z.to_euclidean_division_equations; lia).
      repeat split.
      * simpl val. rewrite V. lia.
      * apply digits_ok_cons. split; [lia|exact O].
      * destruct (Z.eq_dec (Z.quot v internal_base) 0) as [E|E].
        -- rewrite E. destruct k; simpl; apply negb_true_iff, Z.eqb_neq;
             rewrite E in Hsum; lia.
        -- rewrite trimmed_cons; auto.
      * discriminate.
Qed.

Lemma int64_below_bound (v : Z) :
  Int64.in_range v -> Z.abs v < internal_base ^ Z.of_nat Int64.bits.
Proof.
  unfold Int64.in_range, Int64.min_signed, Int64.max_signed. intros H.
  assert (9223372036854775808 < internal_base ^ Z.of_nat Int64.bits) by (vm_compute; reflexivity).
  lia.
Qed.

Lemma ctor_loop_more (k n : nat) (v : Z) :
  Z.abs v < internal_base ^ Z.of_nat k -> (k <= n)%nat ->
  ctor_loop n v = ctor_loop k v.
Proof.
  revert n v. induction k as [|k IH]; intros n v Hv Hn.
  - change (Z.of_nat 0) with 0 in Hv. rewrite Z.pow_0_r in Hv.
    assert (v = 0) by lia. subst v. destruct n; reflexivity.
  - destruct n as [|n]; [lia|]. simpl.
    destruct (Z.eqb_spec v 0); simpl negb; cbv iota; [reflexivity|].
    f_equal. apply IH; [|lia].
    rewrite Nat2Z.inj_succ, Z.pow_succ_r in Hv by lia.
    assert (0 < internal_base ^ Z.of_nat k) by (apply Z.pow_pos_nonneg; [reflexivity|lia]).
    unfold internal_base in *. Z.to_euclidean_division_equations. nia.
Qed.

(** The iteration bound of the constructor is never met: any larger bound
    yields the same limbs. *)
Lemma ctor_loop_bound (v : Z) (n : nat) :
  Int64.in_range v -> (Int64.bits <= n)%nat ->
  ctor_loop n v = ctor_loop Int64.bits v.
Proof.
  intros Hv Hn. apply ctor_loop_more; [apply int64_below_bound; exact Hv | exact Hn].
Qed.

Lemma BigInteger_of_int64_canonical (v : Z) :
  Int64.in_range v -> canonical (BigInteger_of_int64 v) = true.
Proof.
  intros Hv. destruct (ctor_loop_spec Int64.bits v (int64_below_bound v Hv)) as [_ [O [T _]]].
  apply canonical_parts. unfold BigInteger_of_int64. cbn [digits_]. auto.
Qed.

Lemma BigInteger_of_int64_value (v : Z) :
  Int64.in_range v -> value (BigInteger_of_int64 v) = v.
Proof.
  intros Hv. destruct (ctor_loop_spec Int64.bits v (int64_below_bound v Hv)) as [V [O [T N]]].
  unfold value.
  destruct (Sign_cases (BigInteger_of_int64 v)) as [[E S]|[[E [F S]]|[E [F S]]]];
    rewrite S; unfold BigInteger_of_int64 in *; cbn [digits_ is_negative] in *; rewrite V.
  - destruct (Z.eq_dec v 0); [lia|]. exfalso. apply (N n). exact E.
  - apply Z.ltb_lt in F. lia.
  - apply Z.ltb_ge in F. lia.
Qed.

Lemma BigInteger_of_int64_zero : BigInteger_of_int64 0 = BigInteger_default.
Proof. reflexivity. Qed.

Lemma operator_lt_int_zero (x : BigInteger) :
  operator_lt_int x 0 = (Sign x =? -1).
Proof.
  unfold operator_lt_int, operator_lt. rewrite BigInteger_of_int64_zero.
  change (Sign BigInteger_default) with 0.
  destruct (Sign_cases x) as [[E S]|[[E [F S]]|[E [F S]]]]; rewrite S;
    rewrite ?Z.mul_0_r; reflexivity.
Qed.

Lemma operator_eq_int_zero (x : BigInteger) :
  operator_eq_int x 0 = (Sign x =? 0).
Proof.
  unfold operator_eq_int, operator_eq. rewrite BigInteger_of_int64_zero.
  change (Sign BigInteger_default) with 0.
  destruct (Sign_cases x) as [[E S]|[[E [F S]]|[E [F S]]]]; rewrite S; try reflexivity.
  unfold CompareAbsoluteValues, NumberOfDigits. rewrite E. reflexivity.
Qed.

(** ** Addition *)

Lemma RemainderByBase_spec (d : Z) :
  -4000000000 <= d <= 4000000000 -> RemainderByBase d = d mod internal_base.
Proof.
  intros H. unfold RemainderByBase, internal_base.
  rewrite add_small by (Z.to_euclidean_division_equations; lia).
  Z.to_euclidean_division_equations; lia.
Qed.

Lemma add_loop_done (fuel : nat) (ys : list Z) (s : Z) :
  add_loop fuel [] ys s 0 = Ret [].
Proof. destruct fuel; reflexivity. Qed.

Lemma add_loop_step (f : nat) (xs ys : list Z) (s carry : Z) :
  xs <> [] \/ carry <> 0 ->
  add_loop (S f) xs ys s carry =
  (let digit := carry in
   let digit := match xs with x :: _ => Int64.add digit x | [] => digit end in
   let digit := match ys with y :: _ => Int64.add digit (Int64.mul s y) | [] => digit end in
   let leading := RemainderByBase digit in
   let carry' := Z.quot (Int64.sub digit leading) internal_base in
   r <- add_loop f (tl xs) (tl ys) s carry' ;; Ret (leading :: r)).
Proof.
  intros H. simpl add_loop.
  destruct xs as [|x xs]; [|reflexivity].
  destruct (Z.eqb_spec carry 0); [|reflexivity].
  destruct H; congruence.
Qed.

(** One round of the addition loop on limbs in range: the pushed limb
    and the next carry are the floor remainder and quotient. *)
Lemma add_round (carry x y s : Z) :
  -1 <= carry <= 1 -> 0 <= x < internal_base -> 0 <= y < internal_base ->
  -1 <= s <= 1 ->
  let digit := carry + x + s * y in
  Int64.add (Int64.add carry x) (Int64.mul s y) = digit /\
  RemainderByBase digit = digit mod internal_base /\
  Z.quot (Int64.sub digit (RemainderByBase digit)) internal_base = digit / internal_base /\
  -1 <= digit / internal_base <= 1.
Proof.
  intros Hc Hx Hy Hs. unfold internal_base in *.
  assert (E : Int64.add (Int64.add carry x) (Int64.mul s y) = carry + x + s * y).
  { rewrite mul_small by nia. rewrite (add_small carry x) by lia.
    rewrite add_small by nia. reflexivity. }
  cbv zeta. rewrite E.
  assert (R : -1000000000 <= carry + x + s * y <= 1999999999) by nia.
  generalize dependent (carry + x + s * y). clear. intros d _ R.
  rewrite RemainderByBase_spec by lia. unfold internal_base.
  rewrite sub_small by (Z.to_euclidean_division_equations; lia).
  split; [reflexivity|]. split; [reflexivity|]. split.
  - replace (d - d mod 1000000000) with (d / 1000000000 * 1000000000)
      by (Z.to_euclidean_division_equations; lia).
    apply Z.quot_mul. lia.
  - Z.to_euclidean_division_equations; lia.
Qed.

Lemma add_loop_spec (xs : list Z) :
  forall (ys : list Z) (s carry : Z),
    digits_ok xs = true -> digits_ok ys = true ->
    -1 <= s <= 1 -> -1 <= carry <= 1 ->
    (length ys <= length xs)%nat ->
    0 <= carry + val xs + s * val ys ->
    exists r,
      (forall fuel, (length xs + 1 <= fuel)%nat -> add_loop fuel xs ys s carry = Ret r) /\
      digits_ok r = true /\
      val r = carry + val xs + s * val ys.
Proof.
  induction xs as [|x xs IH]; intros ys s carry Hxs Hys Hs Hc Hlen Htot.
  - destruct ys; [|simpl in Hlen; lia]. simpl val in *.
    assert (carry = 0 \/ carry = 1) as [->| ->] by lia.
    + exists []. split; [|split]; [intros; apply add_loop_done | reflexivity | simpl; lia].
    + exists [1]. split; [|split]; [|reflexivity | simpl; unfold internal_base; lia].
      intros [|f] Hf; [simpl in Hf; lia|].
      rewrite add_loop_step by (right; lia). cbv zeta. simpl tl.
      replace (RemainderByBase 1) with 1 by reflexivity.
      replace (Z.quot (Int64.sub 1 1) internal_base) with 0 by reflexivity.
      rewrite add_loop_done. reflexivity.
  - apply digits_ok_cons in Hxs. destruct Hxs as [Hx Hxs].
    assert (exists y ys', (y :: ys' = ys \/ (ys = [] /\ y = 0 /\ ys' = [])) /\
                          0 <= y < internal_base /\ digits_ok ys' = true /\
                          val ys = y + internal_base * val ys' /\
                          (length ys' <= length xs)%nat /\ tl ys = ys')
      as [y [ys' [Hshape [Hy [Hys' [Hval [Hlen' Htl]]]]]]].
    { destruct ys as [|y ys'].
      - exists 0, []. repeat split; auto; try (unfold internal_base; lia).
        simpl; lia.
      - apply digits_ok_cons in Hys. destruct Hys as [Hy Hys'].
        exists y, ys'. repeat split; auto; try lia. simpl in Hlen; lia. }
    pose proof (add_round carry x y s Hc Hx Hy Hs) as R. cbv zeta in R.
    destruct R as [Ed [Er [Eq Hq]]].
    set (digit := carry + x + s * y) in *.
    assert (Hdm : digit = digit mod internal_base + internal_base * (digit / internal_base))
      by (rewrite Z.add_comm; apply Z.div_mod; discriminate).
    assert (Hrem : 0 <= digit mod internal_base < internal_base)
      by (apply Z.mod_pos_bound; reflexivity).
    simpl val in Htot. rewrite Hval in Htot.
    destruct (IH ys' s (digit / internal_base) Hxs Hys' Hs Hq Hlen') as [r [Hrun [Hok Hv]]].
    { pose proof base_pos. nia. }
    exists (digit mod internal_base :: r). split; [|split].
    + intros [|f] Hf; [simpl in Hf; lia|].
      rewrite add_loop_step by (left; discriminate). cbv zeta. simpl tl. rewrite Htl.
      assert (Edig : match ys with
                     | y0 :: _ => Int64.add (Int64.add carry x) (Int64.mul s y0)
                     | [] => Int64.add carry x
                     end = digit).
      { destruct Hshape as [<- | [-> [Hy0 _]]]; [exact Ed|].
        subst y. unfold digit. unfold internal_base in *.
        rewrite add_small by lia. lia. }
      rewrite Edig.
      rewrite Eq, Er. rewrite Hrun by (simpl in Hf; lia). reflexivity.
    + apply digits_ok_cons. split; assumption.
    + simpl val. rewrite Hv, Hval. lia.
Qed.

Lemma operator_add_unfold (fuel : nat) (this rhs : BigInteger) :
  operator_add fuel this rhs =
  if CompareAbsoluteValues this rhs =? -1 then
    match fuel with
    | O => OutOfFuel
    | S f => operator_add f rhs this
    end
  else if operator_lt_int this 0 then
    match fuel with
    | O => OutOfFuel
    | S f =>
        r <- operator_add f (operator_neg this) (operator_neg rhs) ;;
        Ret (operator_neg r)
    end
  else
    ds <- add_loop fuel (digits_ this) (digits_ rhs) (Sign rhs) 0 ;;
    Ret (RemoveZeroes {| digits_ := ds; is_negative := false |}).
Proof. destruct fuel; reflexivity. Qed.

Lemma Sign_range (x : BigInteger) : -1 <= Sign x <= 1.
Proof. destruct (Sign_cases x) as [[_ S]|[[_ [_ S]]|[_ [_ S]]]]; lia. Qed.

Lemma value_nonneg_sign (x : BigInteger) :
  digits_ok (digits_ x) = true -> 0 <= Sign x -> value x = val (digits_ x).
Proof.
  intros Hok Hs. unfold value.
  destruct (Sign_cases x) as [[E S]|[[_ [_ S]]|[_ [_ S]]]]; rewrite S in *; try lia.
  rewrite E. reflexivity.
Qed.

Lemma canonical_flag (l : list Z) (b1 b2 : bool) :
  canonical (mkBigInteger l b1) = canonical (mkBigInteger l b2).
Proof. reflexivity. Qed.

(** The limb loop of addition, entered with a non-negative left operand
    that the comparator did not find smaller. *)
Lemma add_core (a b : BigInteger) :
  digits_ok (digits_ a) = true -> digits_ok (digits_ b) = true ->
  CompareAbsoluteValues a b <> -1 -> 0 <= Sign a ->
  0 <= val (digits_ a) + Sign b * val (digits_ b) ->
  exists r,
    finishes (fun fuel => operator_add fuel a b) r /\
    canonical r = true /\ is_negative r = false /\
    value r = val (digits_ a) + Sign b * val (digits_ b).
Proof.
  intros Oa Ob Hc Hs Htot.
  pose proof (CompareAbsoluteValues_length a b Hc) as Hlen.
  destruct (add_loop_spec (digits_ a) (digits_ b) (Sign b) 0 Oa Ob (Sign_range b)
              ltac:(lia) Hlen ltac:(lia)) as [ds [Hrun [Hok Hv]]].
  set (r := RemoveZeroes {| digits_ := ds; is_negative := false |}).
  assert (Cr : canonical r = true) by (apply RemoveZeroes_canonical; exact Hok).
  exists r. split; [|split; [|split]].
  - exists (length (digits_ a) + 1)%nat. intros fuel Hf.
    rewrite operator_add_unfold.
    destruct (Z.eqb_spec (CompareAbsoluteValues a b) (-1)); [contradiction|].
    rewrite operator_lt_int_zero.
    destruct (Z.eqb_spec (Sign a) (-1)); [lia|].
    rewrite Hrun by exact Hf. reflexivity.
  - exact Cr.
  - reflexivity.
  - rewrite value_nonneg_sign.
    + unfold r. rewrite RemoveZeroes_val. simpl. lia.
    + apply canonical_parts in Cr. tauto.
    + destruct (Sign_cases r) as [[_ S]|[[_ [F _]]|[_ [_ S]]]]; try lia. discriminate.
Qed.

(** Addition of two operands with non-negative sign needs no canonical
    form: limbs in range are enough. *)
Lemma operator_add_nonneg (a b : BigInteger) :
  digits_ok (digits_ a) = true -> digits_ok (digits_ b) = true ->
  0 <= Sign a -> 0 <= Sign b ->
  exists r,
    finishes (fun fuel => operator_add fuel a b) r /\
    canonical r = true /\ is_negative r = false /\
    value r = value a + value b.
Proof.
  intros Oa Ob Sa Sb.
  pose proof (val_nonneg _ Oa). pose proof (val_nonneg _ Ob).
  pose proof (value_nonneg_sign a Oa Sa) as Va.
  pose proof (value_nonneg_sign b Ob Sb) as Vb.
  destruct (Z.eq_dec (CompareAbsoluteValues a b) (-1)) as [E|E].
  - destruct (add_core b a Ob Oa) as [r [Hf [Cr [Fr Vr]]]].
    + rewrite (CompareAbsoluteValues_swap a b E). lia.
    + exact Sb.
    + unfold value in Va. lia.
    + exists r. split; [|split; [|split]]; auto.
      * apply finishes_succ in Hf.
        eapply finishes_ext; [|exact Hf]. intros fuel. cbv beta.
        rewrite (operator_add_unfold fuel a b), E. reflexivity.
      * rewrite Vr, Vb. unfold value. lia.
  - destruct (add_core a b Oa Ob E Sa) as [r [Hf [Cr [Fr Vr]]]].
    + unfold value in Vb. lia.
    + exists r. split; [|split; [|split]]; auto.
      rewrite Vr, Va. unfold value. reflexivity.
Qed.

(** Addition with the operand of larger magnitude on the left. *)
Lemma add_dominant (a b : BigInteger) :
  canonical a = true -> canonical b = true ->
  val (digits_ b) <= val (digits_ a) ->
  exists r,
    finishes (fun fuel => operator_add fuel a b) r /\
    canonical r = true /\
    value r = value a + value b.
Proof.
  intros Ca Cb Hle.
  pose proof (CompareAbsoluteValues_spec a b Ca Cb) as Hcmp.
  assert (Hne : CompareAbsoluteValues a b <> -1) by lia.
  pose proof Ca as Ca'. pose proof Cb as Cb'.
  apply canonical_parts in Ca', Cb'. destruct Ca' as [Oa Ta], Cb' as [Ob Tb].
  pose proof (val_nonneg _ Oa). pose proof (val_nonneg _ Ob).
  pose proof (Sign_range b) as Rb.
  destruct (Z.eq_dec (Sign a) (-1)) as [Sa|Sa].
  - destruct (add_core (operator_neg a) (operator_neg b)) as [r [Hf [Cr [Fr Vr]]]];
      try assumption.
    + unfold operator_neg. rewrite Sign_Negate. lia.
    + unfold operator_neg. rewrite Sign_Negate. simpl. nia.
    + exists (operator_neg r). split; [|split].
      * apply (finishes_bind _ (fun x _ => Ret (operator_neg x)) r (operator_neg r)) in Hf;
          [|apply finishes_ret].
        apply finishes_succ in Hf.
        eapply finishes_ext; [|exact Hf]. intros fuel. cbv beta.
        rewrite (operator_add_unfold fuel a b).
        destruct (Z.eqb_spec (CompareAbsoluteValues a b) (-1)); [contradiction|].
        rewrite operator_lt_int_zero, Sa. reflexivity.
      * rewrite canonical_Negate. exact Cr.
      * rewrite value_Negate, Vr. unfold operator_neg. rewrite Sign_Negate. simpl.
        unfold value. rewrite Sa. ring.
  - pose proof (Sign_range a).
    destruct (add_core a b Oa Ob Hne) as [r [Hf [Cr [Fr Vr]]]].
    + lia.
    + nia.
    + exists r. split; [|split]; auto.
      rewrite Vr. rewrite (value_nonneg_sign a Oa) by lia. reflexivity.
Qed.

(** [operator+] on canonical operands. *)
Lemma operator_add_spec (a b : BigInteger) :
  canonical a = true -> canonical b = true ->
  exists r,
    finishes (fun fuel => operator_add fuel a b) r /\
    canonical r = true /\
    value r = value a + value b.
Proof.
  intros Ca Cb.
  destruct (Z.le_gt_cases (val (digits_ b)) (val (digits_ a))) as [Hle|Hgt].
  - apply add_dominant; assumption.
  - destruct (add_dominant b a Cb Ca ltac:(lia)) as [r [Hf [Cr Vr]]].
    exists r. split; [|split]; auto; [|lia].
    apply finishes_succ in Hf.
    eapply finishes_ext; [|exact Hf]. intros fuel. cbv beta.
    rewrite (operator_add_unfold fuel a b).
    rewrite (CompareAbsoluteValues_spec a b Ca Cb).
    destruct (Z.eqb_spec (Z.sgn (val (digits_ a) - val (digits_ b))) (-1)); [reflexivity|lia].
Qed.

(** [operator-] on canonical operands. *)
Lemma operator_sub_spec (a b : BigInteger) :
  canonical a = true -> canonical b = true ->
  exists r,
    finishes (fun fuel => operator_sub fuel a b) r /\
    canonical r = true /\
    value r = value a - value b.
Proof.
  intros Ca Cb. unfold operator_sub. rewrite operator_lt_int_zero.
  destruct (Z.eqb_spec (Sign a) (-1)).
  - destruct (operator_add_spec (operator_neg a) b) as [r [Hf [Cr Vr]]]; auto.
    exists (operator_neg r). split; [|split].
    + apply (finishes_bind _ (fun x _ => Ret (operator_neg x)) r (operator_neg r)) in Hf;
        [exact Hf | apply finishes_ret].
    + rewrite canonical_Negate. exact Cr.
    + rewrite value_Negate, Vr, value_Negate. ring.
  - destruct (operator_add_spec a (operator_neg b)) as [r [Hf [Cr Vr]]]; auto.
    exists r. split; [|split]; auto. rewrite Vr, value_Negate. ring.
Qed.

(** ** Limb-scalar multiplication *)

Lemma MultiplyByShort_tail_small (n : nat) (carry : Z) :
  0 <= carry < internal_base ->
  MultiplyByShort_tail (S (S n)) carry = if carry =? 0 then [] else [carry].
Proof.
  intros H. cbn [MultiplyByShort_tail].
  destruct (Z.eqb_spec carry 0); simpl negb; cbv iota; [reflexivity|].
  rewrite Z.rem_small, Z.quot_small by lia. reflexivity.
Qed.

Lemma MultiplyByShort_tail_more (k n : nat) (carry : Z) :
  Z.abs carry < internal_base ^ Z.of_nat k -> (k <= n)%nat ->
  MultiplyByShort_tail n carry = MultiplyByShort_tail k carry.
Proof.
  revert n carry. induction k as [|k IH]; intros n carry Hv Hn.
  - change (Z.of_nat 0) with 0 in Hv. rewrite Z.pow_0_r in Hv.
    assert (carry = 0) by lia. subst carry. destruct n; reflexivity.
  - destruct n as [|n]; [lia|]. simpl.
    destruct (Z.eqb_spec carry 0); simpl negb; cbv iota; [reflexivity|].
    f_equal. apply IH; [|lia].
    rewrite Nat2Z.inj_succ, Z.pow_succ_r in Hv by lia.
    assert (0 < internal_base ^ Z.of_nat k) by (apply Z.pow_pos_nonneg; [reflexivity|lia]).
    unfold internal_base in *. Z.to_euclidean_division_equations. nia.
Qed.

(** The iteration bound of the carry rounds is never met. *)
Lemma MultiplyByShort_tail_bound (carry : Z) (n : nat) :
  Int64.in_range carry -> (Int64.bits <= n)%nat ->
  MultiplyByShort_tail n carry = MultiplyByShort_tail Int64.bits carry.
Proof.
  intros Hv Hn. apply MultiplyByShort_tail_more; [apply int64_below_bound; exact Hv | exact Hn].
Qed.

Lemma MultiplyByShort_loop_spec (ds : list Z) :
  forall (rhs carry : Z),
    digits_ok ds = true -> 0 <= rhs <= internal_base -> 0 <= carry < internal_base ->
    digits_ok (MultiplyByShort_loop ds rhs carry) = true /\
    val (MultiplyByShort_loop ds rhs carry) = carry + rhs * val ds.
Proof.
  induction ds as [|d ds IH]; intros rhs carry Hds Hr Hc.
  - cbn [MultiplyByShort_loop]. unfold Int64.bits.
    rewrite MultiplyByShort_tail_small by exact Hc.
    destruct (Z.eqb_spec carry 0) as [->|Hne]; simpl val.
    + split; [reflexivity|lia].
    + split; [apply digits_ok_cons; split; [lia|reflexivity] | lia].
  - apply digits_ok_cons in Hds. destruct Hds as [Hd Hds].
    cbn [MultiplyByShort_loop].
    assert (E : Int64.add carry (Int64.mul d rhs) = carry + d * rhs).
    { unfold internal_base in *. rewrite mul_small by nia. rewrite add_small by nia.
      reflexivity. }
    rewrite E.
    assert (R : 0 <= carry + d * rhs < internal_base * internal_base)
      by (unfold internal_base in *; nia).
    assert (Hq : 0 <= Z.quot (carry + d * rhs) internal_base < internal_base)
      by (unfold internal_base in *; Z.to_euclidean_division_equations; nia).
    assert (Hm : 0 <= Z.rem (carry + d * rhs) internal_base < internal_base)
      by (unfold internal_base in *; Z.to_euclidean_division_equations; nia).
    destruct (IH rhs _ Hds Hr Hq) as [O V]. split.
    + apply digits_ok_cons. split; assumption.
    + simpl val. rewrite V.
      pose proof (Z.quot_rem' (carry + d * rhs) internal_base). lia.
Qed.

Lemma RemoveZeroes_canonical_id (x : BigInteger) :
  canonical x = true -> RemoveZeroes x = x.
Proof.
  intros H. apply canonical_parts in H. destruct H as [_ T].
  destruct x as [l b]. pose proof (RemoveZeroes_trimmed_id l b T) as E.
  unfold RemoveZeroes in *. simpl in *. rewrite E. reflexivity.
Qed.

Lemma MultiplyByShort_spec (lhs : BigInteger) (rhs : Z) :
  digits_ok (digits_ lhs) = true -> 0 <= rhs <= internal_base ->
  canonical (MultiplyByShort lhs rhs) = true /\
  val (digits_ (MultiplyByShort lhs rhs)) = val (digits_ lhs) * rhs /\
  is_negative (MultiplyByShort lhs rhs) = (Sign lhs =? -1) /\
  value (MultiplyByShort lhs rhs) = value lhs * rhs.
Proof.
  intros Hok Hr.
  destruct (MultiplyByShort_loop_spec (digits_ lhs) rhs 0 Hok Hr ltac:(unfold internal_base; lia))
    as [O V].
  unfold MultiplyByShort. cbv zeta.
  set (raw := {| digits_ := MultiplyByShort_loop (digits_ lhs) rhs 0; is_negative := false |}).
  assert (C : canonical (RemoveZeroes raw) = true) by (apply RemoveZeroes_canonical; exact O).
  assert (Vr : val (digits_ (RemoveZeroes raw)) = val (digits_ lhs) * rhs)
    by (rewrite RemoveZeroes_val; simpl; rewrite V; ring).
  set (res := {| digits_ := digits_ (RemoveZeroes raw);
                 is_negative := operator_lt_int lhs 0 |}).
  assert (Cres : canonical res = true) by exact C.
  split; [exact Cres|]. split; [exact Vr|]. split; [apply operator_lt_int_zero|].
  unfold value at 1. change (digits_ res) with (digits_ (RemoveZeroes raw)). rewrite Vr.
  apply canonical_parts in C. destruct C as [Oc Tc].
  destruct (Sign_cases res) as [[E S]|[[E [F S]]|[E [F S]]]]; rewrite S.
  - change (digits_ res) with (digits_ (RemoveZeroes raw)) in E.
    rewrite E in Vr. simpl in Vr. unfold value. rewrite <- Z.mul_assoc, <- Vr. ring.
  - simpl in F. rewrite operator_lt_int_zero in F. apply Z.eqb_eq in F.
    unfold value. rewrite F. ring.
  - simpl in F. rewrite operator_lt_int_zero in F. apply Z.eqb_neq in F.
    change (digits_ res) with (digits_ (RemoveZeroes raw)) in E.
    pose proof (val_pos _ Oc Tc E) as P. rewrite Vr in P.
    unfold value.
    destruct (Sign_cases lhs) as [[E' S']|[[E' [F' S']]|[E' [F' S']]]]; rewrite S' in *.
    + rewrite E' in P. simpl in P. lia.
    + lia.
    + ring.
Qed.

(** ** Multiplication *)

Lemma val_insert_zeroes (l : list Z) (i : nat) :
  val (repeat 0 i ++ l) = internal_base ^ Z.of_nat i * val l.
Proof. rewrite val_app, val_repeat_zero, repeat_length. lia. Qed.

Lemma mul_loop_spec (this : BigInteger) (ds : list Z) :
  forall (i : nat) (acc : BigInteger),
    digits_ok (digits_ this) = true -> 0 <= Sign this ->
    digits_ok ds = true ->
    digits_ok (digits_ acc) = true -> 0 <= Sign acc ->
    exists r,
      finishes (fun fuel => mul_loop fuel this ds i acc) r /\
      digits_ok (digits_ r) = true /\ 0 <= Sign r /\
      value r = value acc + val (digits_ this) * (internal_base ^ Z.of_nat i * val ds).
Proof.
  induction ds as [|d ds IH]; intros i acc Ot St Ods Oacc Sacc.
  - exists acc. split; [apply finishes_ret|]. split; [exact Oacc|]. split; [exact Sacc|].
    simpl val. lia.
  - apply digits_ok_cons in Ods. destruct Ods as [Hd Ods].
    destruct (MultiplyByShort_spec this d Ot ltac:(lia)) as [Cm [Vm [Fm _]]].
    set (ltd := InsertLeastSignificantDigits (MultiplyByShort this d) 0 i).
    assert (Oltd : digits_ok (digits_ ltd) = true).
    { unfold ltd, InsertLeastSignificantDigits. cbn [digits_]. apply digits_ok_app. split; [apply digits_ok_repeat_zero|].
      apply canonical_parts in Cm. tauto. }
    assert (Sltd : 0 <= Sign ltd).
    { destruct (Sign_cases ltd) as [[_ S]|[[_ [F S]]|[_ [_ S]]]]; try lia.
      unfold ltd, InsertLeastSignificantDigits in F. cbn [is_negative] in F.
      rewrite Fm in F. apply Z.eqb_eq in F. lia. }
    destruct (operator_add_nonneg acc ltd Oacc Oltd Sacc Sltd) as [r1 [Hf1 [C1 [F1 V1]]]].
    assert (O1 : digits_ok (digits_ r1) = true) by (apply canonical_parts in C1; tauto).
    assert (S1 : 0 <= Sign r1).
    { destruct (Sign_cases r1) as [[_ S]|[[_ [F S]]|[_ [_ S]]]]; try lia. congruence. }
    destruct (IH (S i) r1 Ot St Ods O1 S1) as [r [Hf [Or [Sr Vr]]]].
    exists r. split; [|split; [|split]]; auto.
    + cbn [mul_loop]. fold ltd.
      apply (finishes_bind _ (fun x fuel => mul_loop fuel this ds (S i) x) r1 r Hf1 Hf).
    + rewrite Vr, V1. rewrite (value_nonneg_sign ltd Oltd Sltd).
      unfold ltd, InsertLeastSignificantDigits. cbn [digits_].
      rewrite val_insert_zeroes, Vm. cbn [val].
      rewrite Nat2Z.inj_succ, Z.pow_succ_r by lia. ring.
Qed.

Lemma operator_mul_unfold (fuel : nat) (this rhs : BigInteger) :
  operator_mul fuel this rhs =
  if operator_lt_int this 0 then
    match fuel with
    | O => OutOfFuel
    | S f => r <- operator_mul f (operator_neg this) rhs ;; Ret (operator_neg r)
    end
  else if operator_lt_int rhs 0 then
    match fuel with
    | O => OutOfFuel
    | S f => r <- operator_mul f this (operator_neg rhs) ;; Ret (operator_neg r)
    end
  else
    r <- mul_loop fuel this (digits_ rhs) 0 (BigInteger_of_int64 0) ;;
    Ret (RemoveZeroes r).
Proof. destruct fuel; reflexivity. Qed.

Lemma canonical_digits_ok (x : BigInteger) :
  canonical x = true -> digits_ok (digits_ x) = true.
Proof. intros H; apply canonical_parts in H; tauto. Qed.

Lemma value_RemoveZeroes (x : BigInteger) :
  digits_ok (digits_ x) = true -> 0 <= Sign x -> value (RemoveZeroes x) = value x.
Proof.
  intros O S.
  rewrite (value_nonneg_sign x O S).
  rewrite value_nonneg_sign.
  - apply RemoveZeroes_val.
  - apply RemoveZeroes_digits_ok. exact O.
  - destruct (Sign_cases (RemoveZeroes x)) as [[_ S']|[[N [F _]]|[_ [_ S']]]]; try lia.
    rewrite RemoveZeroes_flag in F.
    destruct (Sign_cases x) as [[E _]|[[_ [_ S'']]|[_ [F' _]]]]; [|lia|congruence].
    destruct (RemoveZeroes_decompose x) as [k Hk]. rewrite E in Hk.
    destruct (digits_ (RemoveZeroes x)); [contradiction|discriminate].
Qed.

Lemma mul_nonneg (a b : BigInteger) :
  canonical a = true -> canonical b = true -> 0 <= Sign a -> 0 <= Sign b ->
  exists r,
    finishes (fun fuel => operator_mul fuel a b) r /\
    canonical r = true /\ value r = value a * value b.
Proof.
  intros Ca Cb Sa Sb.
  pose proof (canonical_digits_ok a Ca) as Oa. pose proof (canonical_digits_ok b Cb) as Ob.
  destruct (mul_loop_spec a (digits_ b) 0 (BigInteger_of_int64 0) Oa Sa Ob
              ltac:(reflexivity) ltac:(reflexivity)) as [r [Hf [Or [Sr Vr]]]].
  exists (RemoveZeroes r). split; [|split].
  - apply (finishes_bind _ (fun x _ => Ret (RemoveZeroes x)) r (RemoveZeroes r)) in Hf;
      [|apply finishes_ret].
    eapply finishes_ext; [|exact Hf]. intros fuel. cbv beta.
    rewrite (operator_mul_unfold fuel a b), !operator_lt_int_zero.
    destruct (Z.eqb_spec (Sign a) (-1)); [lia|].
    destruct (Z.eqb_spec (Sign b) (-1)); [lia|]. reflexivity.
  - apply RemoveZeroes_canonical. exact Or.
  - rewrite value_RemoveZeroes by assumption. rewrite Vr.
    change (value (BigInteger_of_int64 0)) with 0.
    rewrite (value_nonneg_sign a Oa Sa), (value_nonneg_sign b Ob Sb).
    change (Z.of_nat 0) with 0. rewrite Z.pow_0_r. ring.
Qed.

Lemma mul_left_nonneg (a b : BigInteger) :
  canonical a = true -> canonical b = true -> 0 <= Sign a ->
  exists r,
    finishes (fun fuel => operator_mul fuel a b) r /\
    canonical r = true /\ value r = value a * value b.
Proof.
  intros Ca Cb Sa. pose proof (Sign_range b).
  destruct (Z.eq_dec (Sign b) (-1)) as [Sb|Sb].
  - destruct (mul_nonneg a (operator_neg b)) as [r [Hf [Cr Vr]]]; auto.
    { unfold operator_neg. rewrite Sign_Negate. lia. }
    exists (operator_neg r). split; [|split].
    + apply (finishes_bind _ (fun x _ => Ret (operator_neg x)) r (operator_neg r)) in Hf;
        [|apply finishes_ret].
      apply finishes_succ in Hf.
      eapply finishes_ext; [|exact Hf]. intros fuel. cbv beta.
      rewrite (operator_mul_unfold fuel a b), !operator_lt_int_zero.
      destruct (Z.eqb_spec (Sign a) (-1)); [lia|]. rewrite Sb. reflexivity.
    + rewrite canonical_Negate. exact Cr.
    + rewrite value_Negate, Vr, value_Negate. ring.
  - apply mul_nonneg; auto. lia.
Qed.

(** [operator*] on canonical operands. *)
Lemma operator_mul_spec (a b : BigInteger) :
  canonical a = true -> canonical b = true ->
  exists r,
    finishes (fun fuel => operator_mul fuel a b) r /\
    canonical r = true /\ value r = value a * value b.
Proof.
  intros Ca Cb. pose proof (Sign_range a).
  destruct (Z.eq_dec (Sign a) (-1)) as [Sa|Sa].
  - destruct (mul_left_nonneg (operator_neg a) b) as [r [Hf [Cr Vr]]]; auto.
    { unfold operator_neg. rewrite Sign_Negate. lia. }
    exists (operator_neg r). split; [|split].
    + apply (finishes_bind _ (fun x _ => Ret (operator_neg x)) r (operator_neg r)) in Hf;
        [|apply finishes_ret].
      apply finishes_succ in Hf.
      eapply finishes_ext; [|exact Hf]. intros fuel. cbv beta.
      rewrite (operator_mul_unfold fuel a b), !operator_lt_int_zero.
      rewrite Sa. reflexivity.
    + rewrite canonical_Negate. exact Cr.
    + rewrite value_Negate, Vr, value_Negate. ring.
  - apply mul_left_nonneg; auto. lia.
Qed.

(** ** Division *)

Lemma cmp_zero_limb (p : BigInteger) (b : bool) :
  canonical p = true -> digits_ p <> [] ->
  CompareAbsoluteValues p (mkBigInteger [0] b) = 1.
Proof.
  intros C N. apply canonical_parts in C. destruct C as [O T].
  unfold CompareAbsoluteValues, NumberOfDigits. cbn [digits_].
  destruct (digits_ p) as [|x [|y l]]; [contradiction| |].
  - cbn. apply digits_ok_cons in O. destruct O as [Hx _].
    rewrite trimmed_single in T. apply negb_true_iff in T. rewrite T. cbn.
    apply Z.eqb_neq in T. destruct (Z.ltb_spec x 0); [lia|reflexivity].
  - cbn [length].
    destruct (Z.eqb_spec (Z.of_nat (S (S (length l)))) (Z.of_nat 1)); [lia|]. cbn [negb].
    destruct (Z.ltb_spec (Z.of_nat (S (S (length l)))) (Z.of_nat 1)); [lia|reflexivity].
Qed.

Lemma Sign_pos (x : BigInteger) :
  digits_ x <> [] -> is_negative x = false -> Sign x = 1.
Proof.
  intros N F. destruct (Sign_cases x) as [[E _]|[[_ [F' _]]|[_ [_ S]]]];
    [contradiction | congruence | exact S].
Qed.

(** The probe of the bisection, [MultiplyByShort(rhs, mid) > lhs], decides
    the order of the two magnitudes. *)
Lemma gt_probe (p t : BigInteger) :
  canonical p = true -> is_negative p = false -> digits_ p <> [] ->
  trailing_ok t ->
  operator_gt p t = (val (digits_ t) <? val (digits_ p)).
Proof.
  intros Cp Fp Np [Ot [Ft [Nt [Tt|Et]]]].
  - assert (Ct : canonical t = true) by (apply canonical_parts; auto).
    rewrite operator_gt_spec by assumption.
    rewrite (value_nonneg_sign t Ot), (value_nonneg_sign p (canonical_digits_ok p Cp));
      [reflexivity | |]; rewrite Sign_pos; auto; lia.
  - destruct t as [tl tf]. cbn [digits_ is_negative] in *. subst tl tf.
    pose proof (cmp_zero_limb p false Cp Np) as Hc.
    apply canonical_parts in Cp. destruct Cp as [Op Tp].
    pose proof (val_pos _ Op Tp Np) as P.
    unfold operator_gt, operator_eq, operator_lt. rewrite Hc.
    rewrite (Sign_pos p Np Fp).
    change (Sign {| digits_ := [0]; is_negative := false |}) with 1.
    cbn [val]. rewrite Z.mul_0_r, Z.add_0_l. cbn.
    destruct (Z.ltb_spec 0 (val (digits_ p))); [reflexivity|lia].
Qed.

Lemma pow2_pos (k : nat) : 0 < 2 ^ Z.of_nat k.
Proof. apply Z.pow_pos_nonneg; lia. Qed.

Section Bisection.

Variables lhs rhs : BigInteger.
Hypothesis Crhs : canonical rhs = true.
Hypothesis Frhs : is_negative rhs = false.
Hypothesis Nrhs : digits_ rhs <> [].
Hypothesis Tlhs : trailing_ok lhs.

Lemma divisor_pos : 0 < val (digits_ rhs).
Proof.
  apply canonical_parts in Crhs. destruct Crhs as [O T].
  apply val_pos; assumption.
Qed.

Lemma probe_spec (mid : Z) :
  1 <= mid <= internal_base ->
  operator_gt (MultiplyByShort rhs mid) lhs = (val (digits_ lhs) <? mid * val (digits_ rhs)).
Proof.
  intros Hm.
  destruct (MultiplyByShort_spec rhs mid (canonical_digits_ok rhs Crhs) ltac:(lia))
    as [Cp [Vp [Fp _]]].
  rewrite (Sign_pos rhs Nrhs Frhs) in Fp. change (1 =? -1) with false in Fp.
  pose proof divisor_pos as P.
  rewrite gt_probe; auto.
  - rewrite Vp. rewrite (Z.mul_comm mid). reflexivity.
  - intros E. rewrite E in Vp. cbn [val] in Vp. nia.
Qed.

Lemma GuessDigit_loop_spec (bound : nat) :
  forall l u : Z,
    0 <= l < u -> u <= internal_base -> u - l <= 2 ^ Z.of_nat bound ->
    l * val (digits_ rhs) <= val (digits_ lhs) < u * val (digits_ rhs) ->
    let q := GuessDigit_loop bound lhs rhs l u in
    l <= q < u /\ q * val (digits_ rhs) <= val (digits_ lhs) < (q + 1) * val (digits_ rhs).
Proof.
  pose proof divisor_pos as P.
  induction bound as [|k IH]; intros l u Hlu Hu Hw Hinv; cbv zeta.
  - change (Z.of_nat 0) with 0 in Hw. rewrite Z.pow_0_r in Hw.
    cbn [GuessDigit_loop]. assert (u = l + 1) by lia. subst u. lia.
  - cbn [GuessDigit_loop]. unfold internal_base in Hu.
    rewrite (add_small l 1) by lia.
    destruct (Z.ltb_spec (l + 1) u) as [Hlt|Hge].
    + rewrite (add_small l u) by lia.
      assert (Hmid : l < Z.quot (l + u) 2 < u) by (Z.to_euclidean_division_equations; lia).
      rewrite probe_spec by (unfold internal_base; lia).
      rewrite Nat2Z.inj_succ, Z.pow_succ_r in Hw by lia.
      assert (Hw1 : Z.quot (l + u) 2 - l <= 2 ^ Z.of_nat k)
        by (Z.to_euclidean_division_equations; lia).
      assert (Hw2 : u - Z.quot (l + u) 2 <= 2 ^ Z.of_nat k)
        by (Z.to_euclidean_division_equations; lia).
      assert (Hu' : u <= internal_base) by (unfold internal_base; lia).
      assert (Hm' : Z.quot (l + u) 2 <= internal_base) by (unfold internal_base; lia).
      destruct (Z.ltb_spec (val (digits_ lhs)) (Z.quot (l + u) 2 * val (digits_ rhs)))
          as [Hp|Hp].
      * pose proof (IH l (Z.quot (l + u) 2) ltac:(lia) Hm' Hw1 ltac:(lia)) as IH'.
        cbv zeta in IH'. lia.
      * pose proof (IH (Z.quot (l + u) 2) u ltac:(lia) Hu' Hw2 ltac:(lia)) as IH'.
        cbv zeta in IH'. lia.
    + assert (u = l + 1) by lia. subst u. lia.
Qed.

(** The digit guessed by the bisection is the quotient limb. *)
Lemma GuessDigit_spec :
  val (digits_ lhs) < internal_base * val (digits_ rhs) ->
  let q := GuessDigit lhs rhs in
  0 <= q < internal_base /\ q * val (digits_ rhs) <= val (digits_ lhs) < (q + 1) * val (digits_ rhs).
Proof.
  intros HR. unfold GuessDigit.
  destruct Tlhs as [Ot _]. pose proof (val_nonneg _ Ot) as HR0.
  apply (GuessDigit_loop_spec Int64.bits 0 internal_base).
  - unfold internal_base. lia.
  - lia.
  - vm_compute. discriminate.
  - lia.
Qed.

End Bisection.

Lemma GuessDigit_loop_more (lhs rhs : BigInteger) (k : nat) :
  forall (n : nat) (l u : Z),
    0 <= l <= internal_base -> u <= internal_base ->
    u - l <= 2 ^ Z.of_nat k -> (k <= n)%nat ->
    GuessDigit_loop n lhs rhs l u = GuessDigit_loop k lhs rhs l u.
Proof.
  induction k as [|k IH]; intros n l u Hl Hu Hw Hn.
  - change (Z.of_nat 0) with 0 in Hw. rewrite Z.pow_0_r in Hw.
    destruct n; [reflexivity|]. cbn [GuessDigit_loop].
    unfold internal_base in Hu, Hl. rewrite add_small by lia.
    destruct (Z.ltb_spec (l + 1) u) as [H|H]; [lia|reflexivity].
  - destruct n as [|n]; [lia|]. cbn [GuessDigit_loop].
    unfold internal_base in Hu, Hl. rewrite (add_small l 1) by lia.
    destruct (Z.ltb_spec (l + 1) u) as [H|H]; [|reflexivity].
    rewrite (add_small l u) by lia.
    rewrite Nat2Z.inj_succ, Z.pow_succ_r in Hw by lia.
    assert (Hmid : l < Z.quot (l + u) 2 < u) by (Z.to_euclidean_division_equations; lia).
    assert (Hw1 : Z.quot (l + u) 2 - l <= 2 ^ Z.of_nat k)
      by (Z.to_euclidean_division_equations; lia).
    assert (Hw2 : u - Z.quot (l + u) 2 <= 2 ^ Z.of_nat k)
      by (Z.to_euclidean_division_equations; lia).
    destruct (operator_gt (MultiplyByShort rhs (Z.quot (l + u) 2)) lhs).
    + apply IH; unfold internal_base; lia.
    + apply IH; unfold internal_base; lia.
Qed.

(** The iteration bound of the bisection is never met. *)
Lemma GuessDigit_loop_bound (lhs rhs : BigInteger) (n : nat) :
  (Int64.bits <= n)%nat ->
  GuessDigit_loop n lhs rhs 0 internal_base = GuessDigit lhs rhs.
Proof.
  intros Hn. unfold GuessDigit.
  apply GuessDigit_loop_more; [unfold internal_base; lia | lia | | exact Hn].
  vm_compute. discriminate.
Qed.

Lemma operator_sub_unfold_nonneg (fuel : nat) (a b : BigInteger) :
  0 <= Sign a ->
  operator_sub fuel a b = operator_add fuel a (operator_neg b).
Proof.
  intros S. unfold operator_sub. rewrite operator_lt_int_zero.
  destruct (Z.eqb_spec (Sign a) (-1)); [lia|reflexivity].
Qed.

(** One step of long division: bring a limb down, guess the quotient
    limb, subtract. *)
Lemma div_step (t rhs : BigInteger) (d : Z) :
  canonical rhs = true -> is_negative rhs = false -> digits_ rhs <> [] ->
  canonical t = true -> is_negative t = false ->
  val (digits_ t) < val (digits_ rhs) ->
  0 <= d < internal_base ->
  let t1 := InsertLeastSignificantDigit t d in
  let q := GuessDigit t1 rhs in
  exists t',
    finishes (fun fuel => operator_sub fuel t1 (MultiplyByShort rhs q)) t' /\
    canonical t' = true /\ is_negative t' = false /\
    0 <= q < internal_base /\
    d + internal_base * val (digits_ t) = q * val (digits_ rhs) + val (digits_ t') /\
    0 <= val (digits_ t') < val (digits_ rhs).
Proof.
  intros Cr Fr Nr Ct Ft Hlt Hd. cbv zeta.
  set (t1 := InsertLeastSignificantDigit t d).
  pose proof Ct as Ct'. apply canonical_parts in Ct'. destruct Ct' as [Ot Tt].
  pose proof (val_nonneg _ Ot) as Pt.
  assert (Tok : trailing_ok t1).
  { unfold trailing_ok, t1, InsertLeastSignificantDigit. cbn [digits_ is_negative].
    split; [apply digits_ok_cons; auto|]. split; [exact Ft|]. split; [discriminate|].
    destruct (digits_ t) as [|x l] eqn:E.
    - destruct (Z.eq_dec d 0) as [->|Hd0]; [right; reflexivity|left].
      rewrite trimmed_single. apply negb_true_iff, Z.eqb_neq. exact Hd0.
    - left. rewrite trimmed_cons by discriminate. exact Tt. }
  assert (V1 : val (digits_ t1) = d + internal_base * val (digits_ t)) by reflexivity.
  pose proof (divisor_pos rhs Cr Nr) as PV. cbv zeta in PV.
  pose proof (GuessDigit_spec t1 rhs Cr Fr Nr Tok) as G. cbv zeta in G.
  destruct G as [Hq Hqr]; [rewrite V1; unfold internal_base in *; nia|].
  set (q := GuessDigit t1 rhs) in *.
  destruct (MultiplyByShort_spec rhs q (canonical_digits_ok rhs Cr) ltac:(lia))
    as [Cp [Vp [Fp Valp]]].
  rewrite (Sign_pos rhs Nr Fr) in Fp. change (1 =? -1) with false in Fp.
  set (p := MultiplyByShort rhs q) in *.
  assert (S1 : Sign t1 = 1) by (apply Sign_pos; [discriminate|exact Ft]).
  assert (Sp : Sign (operator_neg p) * val (digits_ (operator_neg p))
               = - (q * val (digits_ rhs))).
  { unfold operator_neg. rewrite Sign_Negate. cbn [Negate digits_].
    rewrite Vp. destruct (Sign_cases p) as [[E S]|[[_ [F _]]|[_ [_ S]]]].
    - rewrite E in Vp. cbn [val] in Vp. rewrite S. lia.
    - congruence.
    - rewrite S. lia. }
  destruct Tok as [O1 [F1 [N1 Sh]]].
  destruct (add_core t1 (operator_neg p)) as [t' [Hf [C' [F' V']]]].
  - exact O1.
  - exact (canonical_digits_ok p Cp).
  - destruct Sh as [T1|E1].
    + assert (C1 : canonical t1 = true) by (apply canonical_parts; auto).
      rewrite (CompareAbsoluteValues_spec t1 (operator_neg p) C1 Cp).
      cbn [operator_neg Negate digits_]. rewrite Vp. lia.
    + assert (q = 0).
      { rewrite E1 in Hqr. cbn [val] in Hqr. nia. }
      assert (Ep : digits_ p = []).
      { apply canonical_parts in Cp. destruct Cp. apply val_zero_nil; auto.
        rewrite Vp. lia. }
      unfold CompareAbsoluteValues, NumberOfDigits.
      cbn [operator_neg Negate digits_]. rewrite Ep, E1. cbn. discriminate.
  - lia.
  - rewrite Sp. lia.
  - exists t'. rewrite Sp in V'.
    assert (Vt' : value t' = val (digits_ t')).
    { apply value_nonneg_sign; [exact (canonical_digits_ok t' C')|].
      destruct (Sign_cases t') as [[_ S]|[[_ [F _]]|[_ [_ S]]]]; try lia. congruence. }
    rewrite Vt' in V'.
    split; [|split; [|split; [|split; [|split]]]]; auto; try lia.
    eapply finishes_ext; [|exact Hf]. intros fuel. cbv beta.
    rewrite operator_sub_unfold_nonneg by lia. reflexivity.
Qed.

Lemma div_shift (P d B vt vt' v q V : Z) :
  0 < V -> d + B * vt = q * V + vt' ->
  (vt' * P + v) / V + P * q = (vt * (B * P) + (v + P * d)) / V.
Proof.
  intros HV H.
  assert (H' : P * (d + B * vt) = P * (q * V + vt')) by (rewrite H; reflexivity).
  replace (vt * (B * P) + (v + P * d)) with ((vt' * P + v) + (P * q) * V) by lia.
  rewrite Z.div_add by lia. reflexivity.
Qed.

(** The long-division loop: the limbs appended to [reversed_result],
    read most significant first, are the quotient of the dividend formed
    by the running remainder followed by the limbs still to bring down. *)
Lemma div_loop_spec (rhs : BigInteger) (ds : list Z) :
  canonical rhs = true -> is_negative rhs = false -> digits_ rhs <> [] ->
  forall (rr t : BigInteger),
    digits_ok ds = true ->
    canonical t = true -> is_negative t = false ->
    val (digits_ t) < val (digits_ rhs) ->
    exists r qs,
      finishes (fun fuel => div_loop fuel ds rhs rr t) r /\
      digits_ r = digits_ rr ++ qs /\ is_negative r = is_negative rr /\
      digits_ok qs = true /\ length qs = length ds /\
      val (rev qs) =
        (val (digits_ t) * internal_base ^ Z.of_nat (length ds) + val (rev ds))
        / val (digits_ rhs).
Proof.
  intros Cr Fr Nr. pose proof (divisor_pos rhs Cr Nr) as PV. cbv zeta in PV.
  induction ds as [|d ds IH]; intros rr t Ods Ct Ft Hlt.
  - exists rr, []. split; [apply finishes_ret|]. split; [symmetry; apply app_nil_r|].
    split; [reflexivity|]. split; [reflexivity|]. split; [reflexivity|].
    cbn [rev val length]. change (Z.of_nat 0) with 0.
    rewrite Z.pow_0_r, Z.mul_1_r, Z.add_0_r.
    pose proof (val_nonneg _ (canonical_digits_ok t Ct)).
    symmetry. apply Z.div_small. lia.
  - apply digits_ok_cons in Ods. destruct Ods as [Hd Ods].
    destruct (div_step t rhs d Cr Fr Nr Ct Ft Hlt Hd) as [t' [Hf [C' [F' [Hq [Hsplit Hrem]]]]]].
    set (t1 := InsertLeastSignificantDigit t d) in *.
    set (q := GuessDigit t1 rhs) in *.
    destruct (IH (PushDigitToEnd rr q) t' Ods C' F' ltac:(lia))
      as [r [qs [Hfr [Hdig [Hflag [Oqs [Hlen Vqs]]]]]]].
    exists r, (q :: qs). split; [|split; [|split; [|split; [|split]]]].
    + cbn [div_loop]. fold t1. fold q.
      apply (finishes_bind _ (fun x fuel => div_loop fuel ds rhs (PushDigitToEnd rr q) x)
               t' r Hf Hfr).
    + rewrite Hdig. unfold PushDigitToEnd. cbn [digits_]. rewrite <- app_assoc. reflexivity.
    + rewrite Hflag. reflexivity.
    + apply digits_ok_cons. auto.
    + cbn [length]. rewrite Hlen. reflexivity.
    + cbn [rev]. rewrite !val_app, !length_rev. cbn [val length].
      rewrite Z.mul_0_r, !Z.add_0_r. rewrite Vqs, Hlen.
      rewrite Nat2Z.inj_succ, Z.pow_succ_r by lia.
      set (P := internal_base ^ Z.of_nat (length ds)).
      apply div_shift; [exact PV | exact Hsplit].
Qed.

Lemma operator_div_unfold (fuel : nat) (this rhs : BigInteger) :
  operator_div fuel this rhs =
  if operator_eq_int rhs 0 then Throw DivisionByZeroError
  else if operator_lt_int this 0 then
    match fuel with
    | O => OutOfFuel
    | S f => r <- operator_div f (operator_neg this) rhs ;; Ret (operator_neg r)
    end
  else if operator_lt_int rhs 0 then
    match fuel with
    | O => OutOfFuel
    | S f => r <- operator_div f this (operator_neg rhs) ;; Ret (operator_neg r)
    end
  else
    r <- div_loop fuel (rev (digits_ this)) rhs
                  (BigInteger_of_int64 0) (BigInteger_of_int64 0) ;;
    Ret (ReverseDigitsAndNormalize r).
Proof. destruct fuel; reflexivity. Qed.

(** The all-positive case of [operator/]. *)
Lemma div_nonneg (a b : BigInteger) :
  canonical a = true -> canonical b = true -> 0 <= Sign a -> Sign b = 1 ->
  exists r,
    finishes (fun fuel => operator_div fuel a b) r /\
    canonical r = true /\ is_negative r = false /\
    value r = val (digits_ a) / val (digits_ b).
Proof.
  intros Ca Cb Sa Sb.
  assert (Fb : is_negative b = false /\ digits_ b <> []).
  { destruct (Sign_cases b) as [[_ S]|[[_ [_ S]]|[N [F _]]]]; try lia. auto. }
  destruct Fb as [Fb Nb].
  pose proof (divisor_pos b Cb Nb) as PV. cbv zeta in PV.
  destruct (div_loop_spec b (rev (digits_ a)) Cb Fb Nb
              (BigInteger_of_int64 0) (BigInteger_of_int64 0))
    as [r [qs [Hf [Hdig [Hflag [Oqs [Hlen Vqs]]]]]]].
  - rewrite digits_ok_rev. exact (canonical_digits_ok a Ca).
  - reflexivity.
  - reflexivity.
  - exact PV.
  - rewrite BigInteger_of_int64_zero in Hdig, Hflag, Vqs. cbn [BigInteger_default digits_ is_negative val app] in *.
    rewrite Z.mul_0_l, Z.add_0_l, rev_involutive in Vqs.
    set (res := ReverseDigitsAndNormalize r).
    assert (Ores : digits_ok (rev (digits_ r)) = true) by (rewrite digits_ok_rev, Hdig; exact Oqs).
    assert (Cres : canonical res = true) by (apply RemoveZeroes_canonical; exact Ores).
    assert (Fres : is_negative res = false) by exact Hflag.
    exists res. split; [|split; [|split]]; auto.
    + apply (finishes_bind _ (fun x _ => Ret (ReverseDigitsAndNormalize x)) r res) in Hf;
        [|apply finishes_ret].
      eapply finishes_ext; [|exact Hf]. intros fuel. cbv beta.
      rewrite (operator_div_unfold fuel a b).
      rewrite operator_eq_int_zero, !operator_lt_int_zero, Sb.
      destruct (Z.eqb_spec (Sign a) (-1)); [lia|]. reflexivity.
    + rewrite value_nonneg_sign.
      * unfold res, ReverseDigitsAndNormalize. rewrite RemoveZeroes_val. cbn [digits_].
        rewrite Hdig. exact Vqs.
      * exact (canonical_digits_ok res Cres).
      * destruct (Sign_cases res) as [[_ S]|[[_ [F _]]|[_ [_ S]]]]; try lia. congruence.
Qed.

Lemma div_left_nonneg (a b : BigInteger) :
  canonical a = true -> canonical b = true -> 0 <= Sign a -> value b <> 0 ->
  exists r,
    finishes (fun fuel => operator_div fuel a b) r /\
    canonical r = true /\ value r = Z.quot (value a) (value b).
Proof.
  intros Ca Cb Sa Nb.
  pose proof (canonical_digits_ok a Ca) as Oa. pose proof (canonical_digits_ok b Cb) as Ob.
  pose proof (val_nonneg _ Oa) as Pa.
  pose proof (value_nonneg_sign a Oa Sa) as Va.
  pose proof (Sign_value b Cb) as Sb. pose proof (value_abs b Cb) as Ab.
  destruct (Z.eq_dec (Sign b) (-1)) as [E|E].
  - destruct (div_nonneg a (operator_neg b)) as [r [Hf [Cr [Fr Vr]]]]; auto.
    { unfold operator_neg. rewrite Sign_Negate. lia. }
    exists (operator_neg r). split; [|split].
    + apply (finishes_bind _ (fun x _ => Ret (operator_neg x)) r (operator_neg r)) in Hf;
        [|apply finishes_ret].
      apply finishes_succ in Hf.
      eapply finishes_ext; [|exact Hf]. intros fuel. cbv beta.
      rewrite (operator_div_unfold fuel a b).
      rewrite operator_eq_int_zero, !operator_lt_int_zero, E.
      destruct (Z.eqb_spec (Sign a) (-1)); [lia|]. reflexivity.
    + rewrite canonical_Negate. exact Cr.
    + rewrite value_Negate, Vr. cbn [operator_neg Negate digits_].
      rewrite Va. replace (value b) with (- val (digits_ b)) by lia.
      rewrite Z.quot_opp_r by lia.
      rewrite Z.quot_div_nonneg by lia. reflexivity.
  - destruct (div_nonneg a b) as [r [Hf [Cr [Fr Vr]]]]; auto.
    { pose proof (Sign_range b). lia. }
    exists r. split; [|split]; auto.
    rewrite Vr, Va. replace (value b) with (val (digits_ b)) by lia.
    rewrite Z.quot_div_nonneg by lia. reflexivity.
Qed.

(** [operator/] on canonical operands with a non-zero divisor: the
    quotient truncated toward zero. *)
Lemma operator_div_spec (a b : BigInteger) :
  canonical a = true -> canonical b = true -> value b <> 0 ->
  exists r,
    finishes (fun fuel => operator_div fuel a b) r /\
    canonical r = true /\ value r = Z.quot (value a) (value b).
Proof.
  intros Ca Cb Nb. pose proof (Sign_range a).
  pose proof (Sign_value b Cb) as Sb.
  destruct (Z.eq_dec (Sign a) (-1)) as [Sa|Sa].
  - destruct (div_left_nonneg (operator_neg a) b) as [r [Hf [Cr Vr]]]; auto.
    { unfold operator_neg. rewrite Sign_Negate. lia. }
    exists (operator_neg r). split; [|split].
    + apply (finishes_bind _ (fun x _ => Ret (operator_neg x)) r (operator_neg r)) in Hf;
        [|apply finishes_ret].
      apply finishes_succ in Hf.
      eapply finishes_ext; [|exact Hf]. intros fuel. cbv beta.
      rewrite (operator_div_unfold fuel a b).
      rewrite operator_eq_int_zero, !operator_lt_int_zero, Sa.
      destruct (Z.eqb_spec (Sign b) 0); [lia|]. reflexivity.
    + rewrite canonical_Negate. exact Cr.
    + rewrite value_Negate, Vr, value_Negate. rewrite Z.quot_opp_l by exact Nb. ring.
  - apply div_left_nonneg; auto. lia.
Qed.

Lemma operator_div_by_zero (fuel : nat) (a b : BigInteger) :
  digits_ b = [] -> operator_div fuel a b = Throw DivisionByZeroError.
Proof.
  intros E. rewrite operator_div_unfold, operator_eq_int_zero.
  destruct (Sign_cases b) as [[_ S]|[[N _]|[N _]]]; try contradiction.
  rewrite S. reflexivity.
Qed.

(** ** Arithmetic never throws *)

Lemma no_throw_bind {A B : Type} (m : outcome A) (k : A -> outcome B) :
  no_throw m -> (forall a, no_throw (k a)) -> no_throw (x <- m ;; k x).
Proof. destruct m; simpl; auto. Qed.

Lemma add_loop_no_throw (fuel : nat) :
  forall (xs ys : list Z) (s carry : Z), no_throw (add_loop fuel xs ys s carry).
Proof.
  induction fuel as [|f IH]; intros xs ys s carry.
  - destruct xs; cbn [add_loop]; [destruct (negb (carry =? 0))|]; exact I.
  - destruct xs as [|x xs]; cbn [add_loop].
    + destruct (negb (carry =? 0)); [|exact I].
      apply no_throw_bind; [apply IH | intros; exact I].
    + apply no_throw_bind; [apply IH | intros; exact I].
Qed.

Lemma operator_add_no_throw (fuel : nat) :
  forall a b : BigInteger, no_throw (operator_add fuel a b).
Proof.
  induction fuel as [|f IH]; intros a b; rewrite operator_add_unfold.
  - destruct (CompareAbsoluteValues a b =? -1); [exact I|].
    destruct (operator_lt_int a 0); [exact I|].
    apply no_throw_bind; [apply add_loop_no_throw | intros; exact I].
  - destruct (CompareAbsoluteValues a b =? -1); [apply IH|].
    destruct (operator_lt_int a 0).
    + apply no_throw_bind; [apply IH | intros; exact I].
    + apply no_throw_bind; [apply add_loop_no_throw | intros; exact I].
Qed.

Lemma mul_loop_no_throw (fuel : nat) (this : BigInteger) (ds : list Z) :
  forall (i : nat) (acc : BigInteger), no_throw (mul_loop fuel this ds i acc).
Proof.
  induction ds as [|d ds IH]; intros i acc; cbn [mul_loop]; [exact I|].
  apply no_throw_bind; [apply operator_add_no_throw | intros; apply IH].
Qed.

Lemma operator_mul_no_throw (fuel : nat) :
  forall a b : BigInteger, no_throw (operator_mul fuel a b).
Proof.
  induction fuel as [|f IH]; intros a b; rewrite operator_mul_unfold.
  - destruct (operator_lt_int a 0); [exact I|].
    destruct (operator_lt_int b 0); [exact I|].
    apply no_throw_bind; [apply mul_loop_no_throw | intros; exact I].
  - destruct (operator_lt_int a 0);
      [apply no_throw_bind; [apply IH | intros; exact I]|].
    destruct (operator_lt_int b 0);
      [apply no_throw_bind; [apply IH | intros; exact I]|].
    apply no_throw_bind; [apply mul_loop_no_throw | intros; exact I].
Qed.

Lemma checked_no_throw (z : Z) : no_throw (checked z).
Proof. unfold checked. destruct (_ && _); exact I. Qed.

Lemma to_int64_loop_no_throw (fuel : nat) (ds : list Z) :
  forall result power : Z, no_throw (to_int64_loop fuel ds result power).
Proof.
  induction ds as [|d ds IH]; intros result power; cbn [to_int64_loop]; [exact I|].
  apply no_throw_bind; [apply checked_no_throw | intros product].
  apply no_throw_bind; [apply checked_no_throw | intros result'].
  apply no_throw_bind; [apply operator_mul_no_throw | intros next].
  apply no_throw_bind; [| intros; apply IH].
  destruct (operator_le_int next INT64_MAX); [apply checked_no_throw | exact I].
Qed.

(** ** Narrowing conversion *)

Lemma operator_le_int_spec (x : BigInteger) (v : Z) :
  canonical x = true -> Int64.in_range v ->
  operator_le_int x v = (value x <=? v).
Proof.
  intros C R. unfold operator_le_int.
  rewrite operator_le_spec, BigInteger_of_int64_value; auto.
  apply BigInteger_of_int64_canonical; exact R.
Qed.

Lemma operator_lt_int_spec (x : BigInteger) (v : Z) :
  canonical x = true -> Int64.in_range v ->
  operator_lt_int x v = (value x <? v).
Proof.
  intros C R. unfold operator_lt_int.
  rewrite operator_lt_spec, BigInteger_of_int64_value; auto.
  apply BigInteger_of_int64_canonical; exact R.
Qed.

Lemma operator_gt_int_spec (x : BigInteger) (v : Z) :
  canonical x = true -> Int64.in_range v ->
  operator_gt_int x v = (v <? value x).
Proof.
  intros C R. unfold operator_gt_int.
  rewrite operator_gt_spec, BigInteger_of_int64_value; auto.
  apply BigInteger_of_int64_canonical; exact R.
Qed.

Lemma operator_eq_int_spec (x : BigInteger) (v : Z) :
  canonical x = true -> Int64.in_range v ->
  operator_eq_int x v = (value x =? v).
Proof.
  intros C R. unfold operator_eq_int.
  rewrite operator_eq_spec, BigInteger_of_int64_value; auto.
  apply BigInteger_of_int64_canonical; exact R.
Qed.

Lemma in_range_max : Int64.in_range INT64_MAX.
Proof. unfold Int64.in_range, INT64_MAX, Int64.min_signed, Int64.max_signed. lia. Qed.

Lemma in_range_min : Int64.in_range INT64_MIN.
Proof. unfold Int64.in_range, INT64_MIN, Int64.min_signed, Int64.max_signed. lia. Qed.

Lemma in_range_base : Int64.in_range internal_base.
Proof. unfold Int64.in_range, internal_base, Int64.min_signed, Int64.max_signed. lia. Qed.

(** *** Checked arithmetic *)

Lemma checked_in_range (z : Z) : Int64.in_range z -> checked z = Ret z.
Proof.
  unfold Int64.in_range, checked. intros [L U].
  destruct (Z.leb_spec Int64.min_signed z); [|lia].
  destruct (Z.leb_spec z Int64.max_signed); [reflexivity|lia].
Qed.

Lemma checked_overflow (z : Z) : ~ Int64.in_range z -> checked z = Undefined.
Proof.
  unfold Int64.in_range, checked. intros N.
  destruct (Z.leb_spec Int64.min_signed z); [|reflexivity].
  destruct (Z.leb_spec z Int64.max_signed); [lia|reflexivity].
Qed.

Lemma checked_ret (z v : Z) : checked z = Ret v -> v = z /\ Int64.in_range z.
Proof.
  unfold Int64.in_range, checked.
  destruct (Z.leb_spec Int64.min_signed z); [|discriminate].
  destruct (Z.leb_spec z Int64.max_signed); [|discriminate].
  intros E. injection E as <-. lia.
Qed.

Lemma settles_const {A : Type} (o : outcome A) : settles (fun _ => o) o.
Proof. exists 0%nat; reflexivity. Qed.

Lemma settles_bind {A B : Type} (f : nat -> outcome A) (g : A -> nat -> outcome B)
      (v : A) (o : outcome B) :
  finishes f v -> settles (g v) o ->
  settles (fun fuel => x <- f fuel ;; g x fuel) o.
Proof.
  intros [n Hn] [m Hm]. exists (Nat.max n m). intros fuel Hf.
  rewrite Hn by lia. cbn [bind]. apply Hm; lia.
Qed.

Lemma settles_then {A B : Type} (f : nat -> outcome A) (o : outcome A)
      (k : A -> outcome B) :
  settles f o -> settles (fun fuel => x <- f fuel ;; k x) (x <- o ;; k x).
Proof.
  intros [n Hn]. exists n. intros fuel Hf. rewrite Hn by exact Hf. reflexivity.
Qed.

Lemma next_power_in_range (power p : Z) :
  Int64.in_range power -> next_power power = Ret p -> Int64.in_range p.
Proof.
  intros H. unfold next_power.
  destruct (power * internal_base <=? INT64_MAX).
  - intros E. apply checked_ret in E. destruct E as [-> R]. exact R.
  - intros E. injection E as <-. exact H.
Qed.

(** The loop of the conversion settles on what the accumulation gives:
    the fuel only serves the big-integer test of each round. *)
Lemma to_int64_loop_spec (ds : list Z) :
  forall result power : Z,
    Int64.in_range power ->
    settles (fun fuel => to_int64_loop fuel ds result power)
            (to_int64_acc ds result power).
Proof.
  induction ds as [|d ds IH]; intros result power Hp.
  - exists 0%nat; reflexivity.
  - cbn [to_int64_loop to_int64_acc].
    destruct (checked (d * power)) as [product|e| |]; cbn [bind];
      try apply settles_const.
    destruct (checked (result + product)) as [result'|e| |]; cbn [bind];
      try apply settles_const.
    destruct (operator_mul_spec (BigInteger_of_int64 power) (BigInteger_of_int64 internal_base))
      as [r [Hf [Cr Vr]]].
    + apply BigInteger_of_int64_canonical; exact Hp.
    + apply BigInteger_of_int64_canonical; exact in_range_base.
    + rewrite !BigInteger_of_int64_value in Vr by (auto using in_range_base).
      apply (settles_bind _
               (fun next fuel =>
                  power' <- (if operator_le_int next INT64_MAX
                             then checked (power * internal_base) else Ret power) ;;
                  to_int64_loop fuel ds result' power') r _ Hf).
      rewrite (operator_le_int_spec r INT64_MAX Cr in_range_max), Vr.
      change (if power * internal_base <=? INT64_MAX
              then checked (power * internal_base) else Ret power)
        with (next_power power).
      destruct (next_power power) as [power'|e| |] eqn:E; cbn [bind];
        try apply settles_const.
      apply IH. exact (next_power_in_range power power' Hp E).
Qed.

Lemma in_range_length (l : list Z) :
  digits_ok l = true -> trimmed l = true -> val l <= 9223372036854775808 ->
  (length l <= 3)%nat.
Proof.
  intros O T H.
  destruct (Nat.le_gt_cases (length l) 3) as [|G]; [assumption|].
  assert (N : l <> []) by (intros ->; simpl in G; lia).
  pose proof (val_lower l O T N) as L.
  assert (internal_base ^ 3 <= internal_base ^ Z.of_nat (length l - 1))
    by (apply Z.pow_le_mono_r; [reflexivity|lia]).
  assert (9223372036854775808 < internal_base ^ 3) by (vm_compute; reflexivity).
  lia.
Qed.

Lemma next_power_1 : next_power 1 = Ret 1000000000.
Proof. vm_compute. reflexivity. Qed.

Lemma next_power_2 : next_power 1000000000 = Ret 1000000000000000000.
Proof. vm_compute. reflexivity. Qed.

Lemma next_power_3 : next_power 1000000000000000000 = Ret 1000000000000000000.
Proof. vm_compute. reflexivity. Qed.

(** The accumulation and the final product by the sign, on a canonical
    operand that passed the guard: exact for every value but [INT64_MIN],
    whose magnitude 2^63 the accumulator cannot hold. *)
Lemma to_int64_acc_value (x : BigInteger) :
  canonical x = true -> INT64_MIN <= value x <= INT64_MAX ->
  (result <- to_int64_acc (digits_ x) 0 1 ;; checked (result * Sign x)) =
  if value x =? INT64_MIN then Undefined else Ret (value x).
Proof.
  intros C R. pose proof (value_abs x C) as A.
  apply canonical_parts in C. destruct C as [O T].
  unfold INT64_MIN, INT64_MAX, Int64.min_signed, Int64.max_signed in *.
  pose proof (in_range_length _ O T ltac:(lia)) as L.
  unfold value in *.
  destruct (Z.eqb_spec (Sign x * val (digits_ x)) (-9223372036854775808)) as [M|M];
  destruct (Sign_cases x) as [[E S]|[[E [F S]]|[E [F S]]]]; rewrite S in *; clear S;
    destruct (digits_ x) as [|d0 [|d1 [|d2 [|d3 l]]]];
    try contradiction; try (cbn in L; lia);
    repeat match goal with
           | H : digits_ok (_ :: _) = true |- _ =>
               apply digits_ok_cons in H; destruct H
           end;
    cbn [to_int64_acc val] in *; unfold internal_base in *;
    try lia;
    repeat first
      [ progress cbn [bind]
      | rewrite next_power_1
      | rewrite next_power_2
      | rewrite next_power_3
      | rewrite checked_in_range
          by (unfold Int64.in_range, Int64.min_signed, Int64.max_signed; lia)
      | rewrite checked_overflow
          by (unfold Int64.in_range, Int64.min_signed, Int64.max_signed; lia) ];
    try reflexivity; f_equal; lia.
Qed.

(** [operator int64_t] on a canonical operand: the value itself when it
    fits and is not [INT64_MIN], undefined behaviour at [INT64_MIN], the
    overflow error otherwise. *)
Lemma operator_int64_settles (x : BigInteger) :
  canonical x = true -> INT64_MIN <= value x <= INT64_MAX ->
  settles (fun fuel => operator_int64 fuel x)
          (if value x =? INT64_MIN then Undefined else Ret (value x)).
Proof.
  intros C R. unfold operator_int64.
  rewrite (operator_gt_int_spec x _ C in_range_max), (operator_lt_int_spec x _ C in_range_min).
  destruct (Z.ltb_spec INT64_MAX (value x)); [lia|].
  destruct (Z.ltb_spec (value x) INT64_MIN); [lia|]. cbn [orb].
  rewrite <- (to_int64_acc_value x C R).
  apply (settles_then (fun fuel => to_int64_loop fuel (digits_ x) 0 1)).
  apply to_int64_loop_spec.
  unfold Int64.in_range, Int64.min_signed, Int64.max_signed. lia.
Qed.

Lemma operator_int64_in_range (x : BigInteger) :
  canonical x = true -> INT64_MIN < value x <= INT64_MAX ->
  finishes (fun fuel => operator_int64 fuel x) (value x).
Proof.
  intros C R.
  pose proof (operator_int64_settles x C ltac:(lia)) as H.
  destruct (Z.eqb_spec (value x) INT64_MIN); [lia|]. exact H.
Qed.

Lemma operator_int64_minimum (x : BigInteger) :
  canonical x = true -> value x = INT64_MIN ->
  settles (fun fuel => operator_int64 fuel x) Undefined.
Proof.
  intros C R.
  pose proof (operator_int64_settles x C
                ltac:(rewrite R; unfold INT64_MIN, INT64_MAX,
                        Int64.min_signed, Int64.max_signed; lia)) as H.
  rewrite R, Z.eqb_refl in H. exact H.
Qed.

Lemma operator_int64_overflow (x : BigInteger) (fuel : nat) :
  canonical x = true -> value x < INT64_MIN \/ INT64_MAX < value x ->
  operator_int64 fuel x = Throw (runtime_error "int64_t overflow").
Proof.
  intros C R. unfold operator_int64.
  rewrite (operator_gt_int_spec x _ C in_range_max), (operator_lt_int_spec x _ C in_range_min).
  destruct (Z.ltb_spec INT64_MAX (value x)); [reflexivity|].
  destruct (Z.ltb_spec (value x) INT64_MIN); [reflexivity|]. lia.
Qed.

Lemma operator_int64_no_overflow (x : BigInteger) (fuel : nat) :
  canonical x = true -> INT64_MIN <= value x <= INT64_MAX ->
  no_throw (operator_int64 fuel x).
Proof.
  intros C R. unfold operator_int64.
  rewrite (operator_gt_int_spec x _ C in_range_max), (operator_lt_int_spec x _ C in_range_min).
  destruct (Z.ltb_spec INT64_MAX (value x)); [lia|].
  destruct (Z.ltb_spec (value x) INT64_MIN); [lia|]. cbn [orb].
  apply no_throw_bind; [apply to_int64_loop_no_throw | intros; apply checked_no_throw].
Qed.

(** ** Remainder by a native modulus *)

Lemma operator_mod_spec (a : BigInteger) (m : Z) :
  canonical a = true -> 0 < m < 4294967296 ->
  finishes (fun fuel => operator_mod fuel a m) (value a mod m).
Proof.
  intros Ca Hm.
  assert (Rm : Int64.in_range m)
    by (unfold Int64.in_range, Int64.min_signed, Int64.max_signed; lia).
  pose proof (BigInteger_of_int64_canonical m Rm) as Cm.
  pose proof (BigInteger_of_int64_value m Rm) as Vm.
  destruct (operator_div_spec a (BigInteger_of_int64 m) Ca Cm ltac:(lia)) as [q [Hq [Cq Vq]]].
  destruct (operator_mul_spec q (BigInteger_of_int64 m) Cq Cm) as [p [Hp [Cp Vp]]].
  destruct (operator_sub_spec a p Ca Cp) as [d [Hd [Cd Vd]]].
  rewrite Vp, Vq, Vm in Vd.
  assert (Hrem : value d = Z.rem (value a) m).
  { rewrite Vd. pose proof (Z.quot_rem' (value a) m). lia. }
  assert (Hb : - m < value d < m).
  { rewrite Hrem. pose proof (Z.rem_bound_abs (value a) m ltac:(lia)). lia. }
  pose proof (operator_int64_in_range d Cd
                ltac:(unfold INT64_MIN, INT64_MAX, Int64.min_signed, Int64.max_signed; lia))
    as Hn.
  assert (Hres : wrap_uint32 (Z.rem (Int64.add (value d) m) m) = value a mod m).
  { rewrite add_small by lia. unfold wrap_uint32.
    rewrite Z.rem_mod_nonneg by lia.
    replace ((value d + m) mod m) with (value a mod m).
    - apply Z.mod_small. pose proof (Z.mod_pos_bound (value a) m ltac:(lia)). lia.
    - rewrite Vd. rewrite <- (Z.mod_add (value a) (1 - Z.quot (value a) m) m) by lia.
      f_equal. ring. }
  rewrite <- Hres.
  unfold operator_mod, operator_div_int, operator_mul_int.
  apply (finishes_bind _ _ q _ Hq).
  apply (finishes_bind _ _ p _ Hp).
  apply (finishes_bind _ _ d _ Hd).
  apply (finishes_bind _ (fun narrowed _ => Ret (wrap_uint32 (Z.rem (Int64.add narrowed m) m)))
           (value d) _ Hn).
  apply finishes_ret.
Qed.

(** ** Digit characters *)

Lemma digit_char_roundtrip (d : Z) :
  0 <= d < 36 ->
  CharToDigit (DigitToChar d) = d /\ (DigitToChar d =? "-")%char = false.
Proof.
  intros H.
  assert (E : exists n, (n < 36)%nat /\ d = Z.of_nat n)
    by (exists (Z.to_nat d); lia).
  destruct E as [n [Hn ->]].
  do 36 (destruct n as [|n]; [vm_compute; auto|]). lia.
Qed.

Lemma digit_ok_iff (base : Z) (c : ascii) :
  digit_ok base c = true <-> 0 <= CharToDigit c < base.
Proof.
  unfold digit_ok. rewrite negb_true_iff, orb_false_iff, Z.geb_leb, Z.leb_gt, Z.eqb_neq.
  assert (-1 <= CharToDigit c).
  { unfold CharToDigit.
    destruct ((char_code "0" <=? char_code c) && (char_code c <=? char_code "9")) eqn:E1.
    - apply andb_true_iff in E1. destruct E1 as [E1 _]. apply Z.leb_le in E1. lia.
    - destruct ((char_code "a" <=? char_code c) && (char_code c <=? char_code "z")) eqn:E2.
      + apply andb_true_iff in E2. destruct E2 as [E2 _]. apply Z.leb_le in E2. lia.
      + lia. }
  lia.
Qed.

Lemma digit_ok_not_minus (base : Z) (c : ascii) :
  digit_ok base c = true -> (c =? "-")%char = false.
Proof.
  intros H. destruct (Ascii.eqb_spec c "-") as [->|]; [|reflexivity].
  apply digit_ok_iff in H. vm_compute in H. destruct H as [H _]. exfalso. apply H. reflexivity.
Qed.

Lemma DigitToChar_ok (base d : Z) :
  2 <= base <= 36 -> 0 <= d < base -> digit_ok base (DigitToChar d) = true.
Proof.
  intros Hb Hd. apply digit_ok_iff.
  destruct (digit_char_roundtrip d ltac:(lia)) as [E _]. rewrite E. exact Hd.
Qed.

(** ** Rendering *)

Lemma ToString_loop_unfold (fuel : nat) (temp : BigInteger) (base : Z) :
  ToString_loop fuel temp base =
  if operator_ne_int temp 0 then
    match fuel with
    | O => OutOfFuel
    | S f =>
        quotient <- operator_div_int f temp base ;;
        difference <- operator_sub f temp (MultiplyByShort quotient base) ;;
        digit <- operator_int64 f difference ;;
        temp' <- operator_div_int f temp base ;;
        rest <- ToString_loop f temp' base ;;
        Ret (DigitToChar digit :: rest)
    end
  else Ret [].
Proof. destruct fuel; reflexivity. Qed.

Lemma in_range_small (v : Z) : -4294967296 <= v <= 4294967296 -> Int64.in_range v.
Proof. unfold Int64.in_range, Int64.min_signed, Int64.max_signed. lia. Qed.

Lemma operator_ne_int_zero (x : BigInteger) :
  canonical x = true -> operator_ne_int x 0 = negb (value x =? 0).
Proof.
  intros C. unfold operator_ne_int, operator_ne.
  change (operator_eq x (BigInteger_of_int64 0)) with (operator_eq_int x 0).
  rewrite operator_eq_int_spec by (auto; apply in_range_small; lia). reflexivity.
Qed.

(** The digit loop of [ToString] writes the digits of a non-negative
    value in the requested base, least significant first. *)
Lemma ToString_loop_spec (base : Z) (m : nat) :
  2 <= base <= 36 ->
  forall temp : BigInteger,
    canonical temp = true -> 0 <= value temp <= Z.of_nat m ->
    exists cs,
      finishes (fun fuel => ToString_loop fuel temp base) cs /\
      forallb (digit_ok base) cs = true /\
      digits_value base cs = value temp /\
      (cs = [] <-> value temp = 0).
Proof.
  intros Hb.
  assert (Hzero : forall temp : BigInteger,
             canonical temp = true -> value temp = 0 ->
             exists cs,
               finishes (fun fuel => ToString_loop fuel temp base) cs /\
               forallb (digit_ok base) cs = true /\
               digits_value base cs = value temp /\
               (cs = [] <-> value temp = 0)).
  { intros temp C E0. exists []. split; [|split; [|split]].
    - exists 0%nat. intros fuel _.
      rewrite ToString_loop_unfold, operator_ne_int_zero by exact C.
      rewrite E0. reflexivity.
    - reflexivity.
    - rewrite E0. reflexivity.
    - split; auto. }
  induction m as [|m IH]; intros temp C Hv.
  - apply Hzero; [exact C|]. change (Z.of_nat 0) with 0 in Hv. lia.
  - destruct (Z.eq_dec (value temp) 0) as [E0|N0].
    + apply Hzero; assumption.
    + assert (Rb : Int64.in_range base) by (apply in_range_small; lia).
      pose proof (BigInteger_of_int64_canonical base Rb) as Cb.
      pose proof (BigInteger_of_int64_value base Rb) as Vb.
      destruct (operator_div_spec temp (BigInteger_of_int64 base) C Cb ltac:(lia))
        as [q [Hq [Cq Vq]]].
      rewrite Vb in Vq. rewrite Z.quot_div_nonneg in Vq by lia.
      destruct (MultiplyByShort_spec q base (canonical_digits_ok q Cq)
                  ltac:(unfold internal_base; lia)) as [Cp [_ [_ Vp]]].
      destruct (operator_sub_spec temp (MultiplyByShort q base) C Cp) as [d [Hd [Cd Vd]]].
      rewrite Vp, Vq in Vd.
      assert (Vd' : value d = value temp mod base).
      { rewrite Vd. pose proof (Z.div_mod (value temp) base ltac:(lia)). lia. }
      pose proof (Z.mod_pos_bound (value temp) base ltac:(lia)) as Hmod.
      pose proof (operator_int64_in_range d Cd
        ltac:(unfold INT64_MIN, INT64_MAX, Int64.min_signed, Int64.max_signed; lia)) as Hn.
      assert (Hq0 : 0 <= value q <= Z.of_nat m).
      { rewrite Vq. split; [apply Z.div_pos; lia|].
        assert (value temp / base < value temp) by (apply Z.div_lt; lia). lia. }
      destruct (IH q Cq Hq0) as [rest [Hrest [Orest [Vrest Erest]]]].
      exists (DigitToChar (value d) :: rest). split; [|split; [|split]].
      * assert (Hchain : finishes
                  (fun f =>
                     quotient <- operator_div_int f temp base ;;
                     difference <- operator_sub f temp (MultiplyByShort quotient base) ;;
                     digit <- operator_int64 f difference ;;
                     temp' <- operator_div_int f temp base ;;
                     rest <- ToString_loop f temp' base ;;
                     Ret (DigitToChar digit :: rest))
                  (DigitToChar (value d) :: rest)).
        { apply (finishes_bind _ _ q _ Hq).
          apply (finishes_bind _ _ d _ Hd).
          apply (finishes_bind _ _ (value d) _ Hn).
          apply (finishes_bind _ _ q _ Hq).
          apply (finishes_bind _ (fun r _ => Ret (DigitToChar (value d) :: r)) rest _ Hrest).
          apply finishes_ret. }
        apply finishes_succ in Hchain.
        eapply finishes_ext; [|exact Hchain]. intros fuel. cbv beta.
        rewrite ToString_loop_unfold, operator_ne_int_zero by exact C.
        destruct (Z.eqb_spec (value temp) 0); [contradiction|]. reflexivity.
      * cbn [forallb]. rewrite Orest, DigitToChar_ok; auto. lia.
      * cbn [digits_value]. destruct (digit_char_roundtrip (value d) ltac:(lia)) as [E _].
        rewrite E, Vrest, Vd', Vq. pose proof (Z.div_mod (value temp) base ltac:(lia)). lia.
      * split; [discriminate|]. intros; contradiction.
Qed.

Lemma value_Abs (x : BigInteger) :
  canonical x = true -> value (Abs x) = Z.abs (value x) /\ canonical (Abs x) = true.
Proof.
  intros C. split; [|exact C].
  rewrite (value_abs x C). apply (value_nonneg_sign (Abs x)).
  - exact (canonical_digits_ok x C).
  - destruct (Sign_cases (Abs x)) as [[_ S]|[[_ [F _]]|[_ [_ S]]]]; try lia. discriminate.
Qed.

(** The characters of [ToString] without a base prefix: an optional
    minus sign, then the digits most significant first, or a single 0. *)
Lemma ToString_spec (x : BigInteger) (base : Z) :
  canonical x = true -> 2 <= base <= 36 ->
  exists cs,
    finishes (fun fuel => ToString fuel x base false)
      (string_of_list_ascii
         (rev ((if value x =? 0 then ["0"%char] else []) ++ cs
               ++ (if value x <? 0 then ["-"%char] else [])))) /\
    forallb (digit_ok base) cs = true /\
    digits_value base cs = Z.abs (value x) /\
    (cs = [] <-> value x = 0).
Proof.
  intros C Hb. destruct (value_Abs x C) as [Va Ca].
  destruct (ToString_loop_spec base (Z.to_nat (Z.abs (value x))) Hb (Abs x) Ca ltac:(lia))
    as [cs [Hf [O [V E]]]].
  exists cs. split; [|split; [|split]]; auto.
  - unfold ToString, ThrowIfBaseIsInvalid.
    destruct (Z.ltb_spec base 2); [lia|]. destruct (Z.gtb_spec base 36); [lia|].
    cbn [orb bind].
    rewrite (operator_eq_int_spec x 0 C ltac:(apply in_range_small; lia)).
    rewrite (operator_lt_int_spec x 0 C ltac:(apply in_range_small; lia)).
    apply (finishes_bind _
             (fun appended _ =>
                Ret (string_of_list_ascii
                       (rev (if value x <? 0
                             then ((if value x =? 0 then ["0"%char] else []) ++ appended)
                                  ++ ["-"%char]
                             else (if value x =? 0 then ["0"%char] else []) ++ appended))))
             cs _ Hf).
    replace (if value x <? 0
             then ((if value x =? 0 then ["0"%char] else []) ++ cs) ++ ["-"%char]
             else (if value x =? 0 then ["0"%char] else []) ++ cs)
      with ((if value x =? 0 then ["0"%char] else []) ++ cs
            ++ (if value x <? 0 then ["-"%char] else [])).
    + apply finishes_ret.
    + destruct (value x <? 0); [apply app_assoc | rewrite app_nil_r; reflexivity].
  - rewrite V, Va. reflexivity.
  - rewrite E, Va. lia.
Qed.

(** ** Parsing *)

Lemma front_hd (input : string) :
  front input = hd zero (list_ascii_of_string input).
Proof. destruct input; reflexivity. Qed.

Lemma FromString_check_ok (input : string) (base : Z) (cs : list ascii) :
  forall i : nat,
    forallb (digit_ok base) cs = true ->
    FromString_check input cs i base = Ret tt.
Proof.
  induction cs as [|c cs IH]; intros i H; [reflexivity|].
  cbn [forallb] in H. apply andb_true_iff in H. destruct H as [Hc Hcs].
  cbn [FromString_check].
  destruct ((i =? 0)%nat && (front input =? "-")%char); [apply IH; exact Hcs|].
  unfold digit_ok in Hc. apply negb_true_iff in Hc. rewrite Hc. apply IH; exact Hcs.
Qed.

(** The first loop of [FromString] stops at the first character that is
    neither a leading minus sign nor a digit below the base. *)
Lemma FromString_check_throw (input : string) (base : Z) (pre : list ascii) :
  forall (i : nat) (c : ascii) (post : list ascii),
    (forall k c', nth_error pre k = Some c' ->
                  ((i + k =? 0)%nat && (front input =? "-")%char) || digit_ok base c' = true) ->
    ((i + length pre =? 0)%nat && (front input =? "-")%char) || digit_ok base c = false ->
    FromString_check input (pre ++ c :: post) i base =
    Throw (runtime_error ("Invalid symbol at index " ++ to_string (i + length pre))%string).
Proof.
  induction pre as [|p pre IH]; intros i c post Hpre Hc.
  - cbn [app length FromString_check] in *. rewrite Nat.add_0_r in *.
    apply orb_false_iff in Hc. destruct Hc as [Hc1 Hc2]. rewrite Hc1.
    unfold digit_ok in Hc2. apply negb_false_iff in Hc2. rewrite Hc2. reflexivity.
  - cbn [app length FromString_check] in *.
    replace (i + S (length pre))%nat with (S i + length pre)%nat in * by lia.
    assert (Hp := Hpre 0%nat p eq_refl). rewrite Nat.add_0_r in Hp.
    assert (Hrest : FromString_check input (pre ++ c :: post) (S i) base =
                    Throw (runtime_error
                             ("Invalid symbol at index " ++ to_string (S i + length pre))%string)).
    { apply IH; [|exact Hc]. intros k c' Hk.
      specialize (Hpre (S k) c' Hk). replace (S i + k)%nat with (i + S k)%nat by lia.
      exact Hpre. }
    destruct ((i =? 0)%nat && (front input =? "-")%char); [exact Hrest|].
    cbn [orb] in Hp. unfold digit_ok in Hp. apply negb_true_iff in Hp. rewrite Hp.
    exact Hrest.
Qed.

Lemma MultiplyByShort_digit (p : BigInteger) (d : Z) :
  canonical p = true -> 0 <= d <= 36 ->
  canonical (MultiplyByShort p d) = true /\ value (MultiplyByShort p d) = value p * d.
Proof.
  intros C H.
  destruct (MultiplyByShort_spec p d (canonical_digits_ok p C) ltac:(unfold internal_base; lia))
    as [Cp [_ [_ Vp]]].
  auto.
Qed.

(** The second loop of [FromString] on digit characters, followed by a
    suffix that the loop skips. *)
Lemma FromString_accumulate_spec (base : Z) (l m : list ascii) :
  2 <= base <= 36 ->
  forallb (digit_ok base) l = true ->
  (forall fuel r p, FromString_accumulate fuel m base r p = Ret r) ->
  forall r p : BigInteger,
    canonical r = true -> canonical p = true ->
    exists r',
      finishes (fun fuel => FromString_accumulate fuel (l ++ m) base r p) r' /\
      canonical r' = true /\
      value r' = value r + value p * digits_value base l.
Proof.
  intros Hb Hl Hm. induction l as [|c l IH]; intros r p Cr Cp.
  - exists r. split; [|split]; [|exact Cr|].
    + exists 0%nat. intros fuel _. apply Hm.
    + cbn [digits_value]. lia.
  - cbn [forallb] in Hl. apply andb_true_iff in Hl. destruct Hl as [Hc Hl].
    pose proof (digit_ok_not_minus base c Hc) as Hnm.
    apply digit_ok_iff in Hc.
    destruct (MultiplyByShort_digit p (CharToDigit c) Cp ltac:(lia)) as [Ct Vt].
    destruct (MultiplyByShort_digit p base Cp ltac:(lia)) as [Cp' Vp'].
    destruct (operator_add_spec r (MultiplyByShort p (CharToDigit c)) Cr Ct) as [r1 [Hf1 [C1 V1]]].
    destruct (IH Hl r1 (MultiplyByShort p base) C1 Cp') as [r' [Hf [C' V']]].
    exists r'. split; [|split]; [|exact C'|].
    + cbn [app FromString_accumulate]. rewrite Hnm.
      apply (finishes_bind _
               (fun x fuel => FromString_accumulate fuel (l ++ m) base x (MultiplyByShort p base))
               r1 r' Hf1 Hf).
    + rewrite V', V1, Vt, Vp'. cbn [digits_value]. ring.
Qed.

Lemma forallb_rev {A : Type} (f : A -> bool) (l : list A) :
  forallb f (rev l) = forallb f l.
Proof.
  induction l as [|a l IH]; [reflexivity|].
  cbn [rev forallb]. rewrite forallb_app, IH. cbn [forallb].
  rewrite andb_true_r. apply andb_comm.
Qed.

(** [FromString] on an optional minus sign followed by digits of the
    base. *)
Lemma FromString_spec (input : string) (base : Z) (negative : bool) (body : list ascii) :
  2 <= base <= 36 ->
  list_ascii_of_string input = (if negative then ["-"%char] else []) ++ body ->
  forallb (digit_ok base) body = true ->
  exists y,
    finishes (fun fuel => FromString fuel input base) y /\
    canonical y = true /\
    value y = (if negative then -1 else 1) * digits_value base (rev body).
Proof.
  intros Hb Hin Hbody.
  assert (C0 : canonical (BigInteger_of_int64 0) = true) by reflexivity.
  assert (C1 : canonical (BigInteger_of_int64 1) = true)
    by (apply BigInteger_of_int64_canonical, in_range_small; lia).
  assert (V1 : value (BigInteger_of_int64 1) = 1)
    by (apply BigInteger_of_int64_value, in_range_small; lia).
  assert (Hbase : ThrowIfBaseIsInvalid base = Ret tt).
  { unfold ThrowIfBaseIsInvalid.
    destruct (Z.ltb_spec base 2); [lia|]. destruct (Z.gtb_spec base 36); [lia|]. reflexivity. }
  pose proof Hbody as Hrev. rewrite <- forallb_rev in Hrev.
  destruct negative.
  - assert (Hfront : front input = "-"%char) by (rewrite front_hd, Hin; reflexivity).
    destruct (FromString_accumulate_spec base (rev body) ["-"%char] Hb Hrev
                ltac:(intros; reflexivity) _ _ C0 C1) as [r [Hf [Cr Vr]]].
    exists (operator_neg r). split; [|split].
    + unfold FromString. rewrite Hbase, Hin. cbn [bind app FromString_check].
      rewrite Hfront. cbn [Nat.eqb andb Ascii.eqb Bool.eqb].
      rewrite FromString_check_ok by exact Hbody. cbn [bind rev].
      apply (finishes_bind _ (fun x _ => Ret (operator_neg x)) r _ Hf).
      apply finishes_ret.
    + rewrite canonical_Negate. exact Cr.
    + rewrite value_Negate, Vr, V1. change (value (BigInteger_of_int64 0)) with 0. ring.
  - cbn [app] in Hin.
    assert (Hfront : (front input =? "-")%char = false).
    { rewrite front_hd, Hin. destruct body as [|c body]; [reflexivity|].
      cbn [forallb] in Hbody. apply andb_true_iff in Hbody. destruct Hbody as [Hc _].
      exact (digit_ok_not_minus base c Hc). }
    destruct (FromString_accumulate_spec base (rev body) [] Hb Hrev
                ltac:(intros; reflexivity) _ _ C0 C1) as [r [Hf [Cr Vr]]].
    rewrite app_nil_r in Hf.
    exists r. split; [|split]; [|exact Cr|].
    + unfold FromString. rewrite Hbase, Hin, Hfront. cbn [bind].
      rewrite FromString_check_ok by exact Hbody. cbn [bind].
      apply (finishes_bind _ (fun x _ => Ret x) r _ Hf).
      apply finishes_ret.
    + rewrite Vr, V1. change (value (BigInteger_of_int64 0)) with 0. ring.
Qed.

Lemma FromString_check_inv_tail (input : string) (base : Z) (cs : list ascii) :
  forall i : nat,
    (0 < i)%nat -> FromString_check input cs i base = Ret tt ->
    forallb (digit_ok base) cs = true.
Proof.
  induction cs as [|c cs IH]; intros i Hi H; [reflexivity|].
  cbn [FromString_check] in H.
  destruct (Nat.eqb_spec i 0); [lia|]. cbn [andb] in H.
  cbn [forallb]. unfold digit_ok at 1.
  destruct ((CharToDigit c >=? base) || (CharToDigit c =? -1)); [discriminate|].
  cbn [negb andb]. apply (IH (S i)); [lia|exact H].
Qed.

Lemma FromString_check_inv (input : string) (base : Z) :
  FromString_check input (list_ascii_of_string input) 0 base = Ret tt ->
  exists (negative : bool) (body : list ascii),
    list_ascii_of_string input = (if negative then ["-"%char] else []) ++ body /\
    forallb (digit_ok base) body = true.
Proof.
  pose proof (front_hd input) as Hf.
  destruct (list_ascii_of_string input) as [|c cs]; intros H.
  - exists false, []. auto.
  - cbn [FromString_check] in H. rewrite Hf in H. cbn [hd Nat.eqb andb] in H.
    destruct (Ascii.eqb_spec c "-") as [->|Hc].
    + exists true, cs. split; [reflexivity|].
      apply (FromString_check_inv_tail input base cs 1%nat); [lia|exact H].
    + exists false, (c :: cs). split; [reflexivity|].
      cbn [forallb]. unfold digit_ok at 1.
      destruct ((CharToDigit c >=? base) || (CharToDigit c =? -1)); [discriminate|].
      cbn [negb andb]. apply (FromString_check_inv_tail input base cs 1%nat); [lia|exact H].
Qed.

Lemma FromString_finishes_canonical (input : string) (base : Z) (y : BigInteger) :
  finishes (fun fuel => FromString fuel input base) y -> canonical y = true.
Proof.
  intros Hy. pose proof Hy as [n Hn]. specialize (Hn n (Nat.le_refl n)).
  unfold FromString, ThrowIfBaseIsInvalid in Hn.
  destruct (Z.ltb_spec base 2); [discriminate|].
  destruct (Z.gtb_spec base 36); [discriminate|]. cbn [orb bind] in Hn.
  destruct (FromString_check input (list_ascii_of_string input) 0 base) as [[]| | |] eqn:Hc;
    try discriminate.
  destruct (FromString_check_inv input base Hc) as [negative [body [Hin Hbody]]].
  destruct (FromString_spec input base negative body ltac:(lia) Hin Hbody) as [y' [Hy' [Cy' _]]].
  rewrite (finishes_unique _ _ _ Hy Hy'). exact Cy'.
Qed.

(** * The properties of the specification *)

(** C1.  For canonical [a] and [b] with [b] not zero, the quotient [a / b]
    is computed, [(a / b) * b + (a - (a / b) * b) == a] holds, and the
    quotient truncates toward zero: its value is the product of the two
    signs times the floor of [|a| / |b|].  In the all-positive loop, with
    divisor [|b|], a running remainder [t] below the divisor and a limb
    [d] brought down, the limb found by the bisection of [GuessDigit] is
    the only [q] with [q * |b| <= remainder < (q + 1) * |b|], and it lies
    in [[0, B)]. *)
Theorem division_consistency (a b t : BigInteger) (d : Z) :
  canonical a = true -> canonical b = true -> value b <> 0 ->
  canonical t = true -> is_negative t = false ->
  val (digits_ t) < val (digits_ b) -> 0 <= d < internal_base ->
  (exists q p r s,
      finishes (fun fuel => operator_div fuel a b) q /\
      finishes (fun fuel => operator_mul fuel q b) p /\
      finishes (fun fuel => operator_sub fuel a p) r /\
      finishes (fun fuel => operator_add fuel p r) s /\
      operator_eq s a = true /\
      canonical q = true /\
      value q = Z.quot (value a) (value b) /\
      Z.abs (value q) = Z.abs (value a) / Z.abs (value b) /\
      (value q <> 0 -> Sign q = Sign a * Sign b) /\
      value q = Sign a * Sign b * (Z.abs (value a) / Z.abs (value b))) /\
  (let remainder := InsertLeastSignificantDigit t d in
   let q := GuessDigit remainder (Abs b) in
   0 <= q < internal_base /\
   q * val (digits_ b) <= val (digits_ remainder) < (q + 1) * val (digits_ b) /\
   forall q', q' * val (digits_ b) <= val (digits_ remainder) < (q' + 1) * val (digits_ b) ->
              q' = q).
Proof.
  intros Ca Cb Nb Ct Ft Hlt Hd. split.
  - destruct (operator_div_spec a b Ca Cb Nb) as [q [Hq [Cq Vq]]].
    destruct (operator_mul_spec q b Cq Cb) as [p [Hp [Cp Vp]]].
    destruct (operator_sub_spec a p Ca Cp) as [r [Hr [Cr Vr]]].
    destruct (operator_add_spec p r Cp Cr) as [s [Hs [Cs Vs]]].
    exists q, p, r, s.
    assert (Vsign : value q = Sign a * Sign b * (Z.abs (value a) / Z.abs (value b)))
      by (rewrite Vq, (Sign_value a Ca), (Sign_value b Cb); apply Z.quot_div; exact Nb).
    assert (Hfloor : 0 <= Z.abs (value a) / Z.abs (value b))
      by (apply Z.div_pos; lia).
    refine (conj Hq (conj Hp (conj Hr (conj Hs (conj _ (conj Cq (conj Vq
              (conj _ (conj _ Vsign))))))))).
    + rewrite operator_eq_spec by assumption. apply Z.eqb_eq. lia.
    + rewrite Vq, <- Z.quot_abs by exact Nb. apply Z.quot_div_nonneg; lia.
    + intros Nq. rewrite (Sign_value q Cq), Vsign.
      pose proof (Sign_range a). pose proof (Sign_range b).
      rewrite Vsign in Nq.
      generalize dependent (Z.abs (value a) / Z.abs (value b)). intros m _ Hm Nq.
      assert (0 < m)
        by (destruct (Z.eq_dec m 0) as [->|];
            [rewrite Z.mul_0_r in Nq; contradiction | lia]).
      assert (Sign a = -1 \/ Sign a = 0 \/ Sign a = 1) as [Ea|[Ea|Ea]] by lia;
        assert (Sign b = -1 \/ Sign b = 0 \/ Sign b = 1) as [Eb|[Eb|Eb]] by lia;
        rewrite Ea, Eb in *; lia.
  - cbv zeta.
    assert (Nd : digits_ b <> []).
    { intros E. apply Nb. apply value_zero_digits; assumption. }
    pose proof (div_step t (Abs b) d Cb eq_refl Nd Ct Ft Hlt Hd) as S. cbv zeta in S.
    destruct S as [t' [_ [Ct' [_ [Hq [Hsplit Hrem]]]]]].
    change (digits_ (Abs b)) with (digits_ b) in *.
    set (q := GuessDigit (InsertLeastSignificantDigit t d) (Abs b)) in *.
    change (val (digits_ (InsertLeastSignificantDigit t d)))
      with (d + internal_base * val (digits_ t)).
    split; [exact Hq|]. split; [lia|]. intros q' Hq'. nia.
Qed.

Lemma division_consistency_witness :
  exists q p r s,
    finishes (fun fuel => operator_div fuel (BigInteger_of_int64 (-17)) (BigInteger_of_int64 5)) q /\
    finishes (fun fuel => operator_mul fuel q (BigInteger_of_int64 5)) p /\
    finishes (fun fuel => operator_sub fuel (BigInteger_of_int64 (-17)) p) r /\
    finishes (fun fuel => operator_add fuel p r) s /\
    operator_eq s (BigInteger_of_int64 (-17)) = true /\
    value q = -3.
Proof.
  destruct (division_consistency (BigInteger_of_int64 (-17)) (BigInteger_of_int64 5)
              (BigInteger_of_int64 2) 7) as [[q [p [r [s H]]]] _].
  - reflexivity.
  - reflexivity.
  - vm_compute. discriminate.
  - reflexivity.
  - reflexivity.
  - vm_compute. reflexivity.
  - vm_compute. split; [discriminate|reflexivity].
  - exists q, p, r, s.
    destruct H as [H1 [H2 [H3 [H4 [H5 [_ [H6 _]]]]]]].
    refine (conj H1 (conj H2 (conj H3 (conj H4 (conj H5 _))))).
    rewrite H6. vm_compute. reflexivity.
Defined.

(** C2.  For every canonical [x] (zero and negative values included) and
    every base in [[2, 36]], [ToString] without the base prefix yields a
    text that [FromString] parses to a value equal to [x]. *)
Theorem string_round_trip (x : BigInteger) (base : Z) :
  canonical x = true -> 2 <= base <= 36 ->
  exists (s : string) (y : BigInteger),
    finishes (fun fuel => ToString fuel x base false) s /\
    finishes (fun fuel => FromString fuel s base) y /\
    operator_eq y x = true.
Proof.
  intros C Hb.
  destruct (ToString_spec x base C Hb) as [cs [Hs [Ocs [Vcs Ecs]]]].
  set (init := if value x =? 0 then ["0"%char] else []) in *.
  set (minus := if value x <? 0 then ["-"%char] else []) in *.
  set (s := string_of_list_ascii (rev (init ++ cs ++ minus))) in *.
  assert (Hin : list_ascii_of_string s
                = (if value x <? 0 then ["-"%char] else []) ++ rev (init ++ cs)).
  { unfold s. rewrite list_ascii_of_string_of_list_ascii.
    rewrite app_assoc, rev_app_distr. unfold minus.
    destruct (value x <? 0); reflexivity. }
  assert (Hbody : forallb (digit_ok base) (rev (init ++ cs)) = true).
  { rewrite forallb_rev, forallb_app, Ocs, andb_true_r. unfold init.
    destruct (value x =? 0); [|reflexivity]. cbn [forallb]. rewrite andb_true_r.
    apply digit_ok_iff. change (CharToDigit "0") with 0. lia. }
  destruct (FromString_spec s base (value x <? 0) _ Hb Hin Hbody) as [y [Hy [Cy Vy]]].
  exists s, y. split; [exact Hs|]. split; [exact Hy|].
  rewrite operator_eq_spec by assumption. apply Z.eqb_eq.
  rewrite Vy, rev_involutive.
  assert (Hd : digits_value base (init ++ cs) = Z.abs (value x)).
  { unfold init. destruct (Z.eqb_spec (value x) 0) as [E|E].
    - apply Ecs in E. subst cs. cbn [app digits_value] in *.
      change (CharToDigit "0") with 0. lia.
    - exact Vcs. }
  rewrite Hd. destruct (Z.ltb_spec (value x) 0); lia.
Qed.

Lemma string_round_trip_witness :
  exists (s : string) (y : BigInteger),
    finishes (fun fuel => ToString fuel (BigInteger_of_int64 (-255)) 16 false) s /\
    finishes (fun fuel => FromString fuel s 16) y /\
    operator_eq y (BigInteger_of_int64 (-255)) = true.
Proof.
  apply (string_round_trip (BigInteger_of_int64 (-255)) 16).
  - reflexivity.
  - lia.
Defined.

(** C3, as the code has it.  Negating zero, like dividing a negative
    value by a larger one or parsing a lone minus sign, returns the
    empty limb vector with the negative flag set: the flag of a zero is
    not kept clear. *)
Lemma negated_zero_keeps_flag :
  let r := operator_neg (BigInteger_of_int64 0) in
  ~ (digits_ r = [] -> is_negative r = false) /\
  operator_div 4 (BigInteger_of_int64 (-5)) (BigInteger_of_int64 7)
  = Ret {| digits_ := []; is_negative := true |} /\
  FromString 4 "-0" 10 = Ret {| digits_ := []; is_negative := true |}.
Proof.
  cbv zeta. split; [|split].
  - intros H. specialize (H eq_refl). discriminate H.
  - vm_compute. reflexivity.
  - vm_compute. reflexivity.
Qed.

(** C3, amended.  Construction from a native integer, negation, addition,
    subtraction, multiplication, limb-scalar multiplication, division by
    a non-zero divisor and parsing all return canonical results: limbs in
    [[0, B)], no most-significant zero limb, zero as the empty vector.
    The negative flag of such a zero may be set, but the sign query
    answers 0 for it and it never compares below zero. *)
Theorem results_are_canonical (a b : BigInteger) (v k : Z) (input : string) (base : Z) :
  canonical a = true -> canonical b = true ->
  Int64.in_range v -> 0 <= k <= internal_base ->
  canonical (BigInteger_of_int64 v) = true /\
  canonical (operator_neg a) = true /\
  canonical (MultiplyByShort a k) = true /\
  (exists r, finishes (fun fuel => operator_add fuel a b) r /\ canonical r = true) /\
  (exists r, finishes (fun fuel => operator_sub fuel a b) r /\ canonical r = true) /\
  (exists r, finishes (fun fuel => operator_mul fuel a b) r /\ canonical r = true) /\
  (value b <> 0 ->
   exists r, finishes (fun fuel => operator_div fuel a b) r /\ canonical r = true) /\
  (forall y, finishes (fun fuel => FromString fuel input base) y -> canonical y = true) /\
  (forall r, canonical r = true ->
             (value r = 0 <-> digits_ r = []) /\
             (value r = 0 -> Sign r = 0 /\ operator_lt_int r 0 = false)).
Proof.
  intros Ca Cb Rv Hk.
  split; [apply BigInteger_of_int64_canonical; exact Rv|].
  split; [rewrite canonical_Negate; exact Ca|].
  split; [apply MultiplyByShort_spec; [exact (canonical_digits_ok a Ca)|exact Hk]|].
  split; [destruct (operator_add_spec a b Ca Cb) as [r [H [C _]]]; exists r; auto|].
  split; [destruct (operator_sub_spec a b Ca Cb) as [r [H [C _]]]; exists r; auto|].
  split; [destruct (operator_mul_spec a b Ca Cb) as [r [H [C _]]]; exists r; auto|].
  split; [intros Nb; destruct (operator_div_spec a b Ca Cb Nb) as [r [H [C _]]];
          exists r; auto|].
  split; [intros y Hy; exact (FromString_finishes_canonical input base y Hy)|].
  intros r Cr. split; [apply value_zero_digits; exact Cr|].
  intros E. rewrite operator_lt_int_zero, (Sign_value r Cr), E. split; reflexivity.
Qed.

Lemma results_are_canonical_witness :
  canonical (BigInteger_of_int64 (-1000000001)) = true /\
  (exists r, finishes (fun fuel => operator_div fuel (BigInteger_of_int64 (-5))
                                     (BigInteger_of_int64 7)) r /\
             canonical r = true).
Proof.
  destruct (results_are_canonical (BigInteger_of_int64 (-5)) (BigInteger_of_int64 7)
              (-1000000001) 3 "-0" 10) as [H1 [_ [_ [_ [_ [_ [H7 _]]]]]]].
  - reflexivity.
  - reflexivity.
  - unfold Int64.in_range, Int64.min_signed, Int64.max_signed. lia.
  - unfold internal_base. lia.
  - split; [exact H1|]. apply H7. vm_compute. discriminate.
Defined.

(** C4.  Division by a canonical zero, whatever its flag, division by the
    native 0 and remainder by the native modulus 0 throw
    [DivisionByZeroError] for every dividend and every amount of fuel. *)
Theorem division_by_zero_throws (fuel : nat) (a b : BigInteger) :
  canonical b = true -> value b = 0 ->
  operator_div fuel a b = Throw DivisionByZeroError /\
  operator_div_int fuel a 0 = Throw DivisionByZeroError /\
  operator_mod fuel a 0 = Throw DivisionByZeroError.
Proof.
  intros Cb Vb.
  assert (E : digits_ b = []) by (apply value_zero_digits; assumption).
  split; [apply operator_div_by_zero; exact E|].
  assert (H0 : operator_div_int fuel a 0 = Throw DivisionByZeroError)
    by (apply operator_div_by_zero; reflexivity).
  split; [exact H0|]. unfold operator_mod. rewrite H0. reflexivity.
Qed.

Lemma division_by_zero_throws_witness :
  operator_div 0 (BigInteger_of_int64 0) (operator_neg (BigInteger_of_int64 0))
  = Throw DivisionByZeroError /\
  operator_div_int 0 (BigInteger_of_int64 0) 0 = Throw DivisionByZeroError /\
  operator_mod 0 (BigInteger_of_int64 0) 0 = Throw DivisionByZeroError.
Proof.
  apply (division_by_zero_throws 0 (BigInteger_of_int64 0)
           (operator_neg (BigInteger_of_int64 0))).
  - reflexivity.
  - reflexivity.
Defined.

(** C5.  [FromString] throws the invalid-base error when the base is
    outside [[2, 36]].  Otherwise it throws the invalid-symbol error
    carrying the index of the first character that is neither a minus
    sign at index 0 nor a digit below the base (a minus sign at a later
    index is such a character); the digit of a character is 0-9 for
    '0'-'9', 10-35 for 'a'-'z', and none for any other character; and a
    text without such a character is parsed. *)
Theorem FromString_errors (fuel : nat) (input : string) (base : Z) :
  ((base < 2 \/ 36 < base) ->
   FromString fuel input base = Throw (logic_error "Invalid base")) /\
  (2 <= base <= 36 ->
   forall (pre : list ascii) (c : ascii) (post : list ascii),
     list_ascii_of_string input = pre ++ c :: post ->
     (forall j c', nth_error pre j = Some c' ->
                   (j = 0%nat /\ c' = "-"%char) \/ 0 <= CharToDigit c' < base) ->
     ~ ((length pre = 0%nat /\ c = "-"%char) \/ 0 <= CharToDigit c < base) ->
     FromString fuel input base =
     Throw (runtime_error ("Invalid symbol at index " ++ to_string (length pre))%string)) /\
  (forall c : ascii,
     (48 <= char_code c <= 57 -> CharToDigit c = char_code c - 48) /\
     (97 <= char_code c <= 122 -> CharToDigit c = char_code c - 97 + 10) /\
     (~ 48 <= char_code c <= 57 -> ~ 97 <= char_code c <= 122 -> CharToDigit c = -1)) /\
  CharToDigit "-" = -1 /\
  (2 <= base <= 36 ->
   (forall j c', nth_error (list_ascii_of_string input) j = Some c' ->
                 (j = 0%nat /\ c' = "-"%char) \/ 0 <= CharToDigit c' < base) ->
   exists y, finishes (fun fuel' => FromString fuel' input base) y).
Proof.
  split; [|split; [|split; [|split]]].
  - intros Hb. unfold FromString, ThrowIfBaseIsInvalid.
    destruct (Z.ltb_spec base 2); [reflexivity|].
    destruct (Z.gtb_spec base 36); [reflexivity|]. lia.
  - intros Hb pre c post Hin Hpre Hc.
    unfold FromString, ThrowIfBaseIsInvalid.
    destruct (Z.ltb_spec base 2); [lia|]. destruct (Z.gtb_spec base 36); [lia|].
    cbn [orb bind]. rewrite Hin.
    assert (Hfront : front input = hd zero (pre ++ c :: post))
      by (rewrite front_hd, Hin; reflexivity).
    rewrite (FromString_check_throw input base pre 0 c post); [reflexivity| |].
    + intros j c' Hj. cbn [Nat.add].
      destruct (Hpre j c' Hj) as [[-> ->]|Hd].
      * destruct pre as [|p pre]; [discriminate|]. cbn in Hj. injection Hj as ->.
        rewrite Hfront. reflexivity.
      * apply digit_ok_iff in Hd. rewrite Hd. apply orb_true_r.
    + cbn [Nat.add]. apply orb_false_iff. split.
      * destruct pre as [|p pre]; [|reflexivity]. cbn [length Nat.eqb andb].
        rewrite Hfront. cbn [app hd].
        destruct (Ascii.eqb_spec c "-"); [|reflexivity].
        exfalso. apply Hc. left. auto.
      * destruct (digit_ok base c) eqn:E; [|reflexivity].
        apply digit_ok_iff in E. exfalso. apply Hc. right. exact E.
  - intros c. unfold CharToDigit.
    change (char_code "0") with 48. change (char_code "9") with 57.
    change (char_code "a") with 97. change (char_code "z") with 122.
    destruct (Z.leb_spec 48 (char_code c)), (Z.leb_spec (char_code c) 57),
      (Z.leb_spec 97 (char_code c)), (Z.leb_spec (char_code c) 122);
      cbn [andb]; repeat split; intros; lia.
  - reflexivity.
  - intros Hb Hall.
    assert (Hshape : exists (negative : bool) (body : list ascii),
               list_ascii_of_string input = (if negative then ["-"%char] else []) ++ body /\
               forallb (digit_ok base) body = true).
    { assert (Htail : forall l : list ascii,
                 (forall j c', nth_error l j = Some c' -> 0 <= CharToDigit c' < base) ->
                 forallb (digit_ok base) l = true).
      { induction l as [|x l IH]; intros Hl; [reflexivity|].
        cbn [forallb]. rewrite (proj2 (digit_ok_iff base x) (Hl 0%nat x eq_refl)).
        apply IH. intros j c' Hj. exact (Hl (S j) c' Hj). }
      destruct (list_ascii_of_string input) as [|c cs].
      - exists false, []. auto.
      - assert (Hcs : forallb (digit_ok base) cs = true).
        { apply Htail. intros j c' Hj.
          destruct (Hall (S j) c' Hj) as [[E _]|Hd]; [discriminate|exact Hd]. }
        destruct (Hall 0%nat c eq_refl) as [[_ ->]|Hd].
        + exists true, cs. auto.
        + exists false, (c :: cs). split; [reflexivity|].
          cbn [forallb]. rewrite (proj2 (digit_ok_iff base c) Hd). exact Hcs. }
    destruct Hshape as [negative [body [Hin Hbody]]].
    destruct (FromString_spec input base negative body Hb Hin Hbody) as [y [Hy _]].
    exists y. exact Hy.
Qed.

Lemma FromString_errors_witness :
  FromString 0 "12-3" 10 = Throw (runtime_error "Invalid symbol at index 2") /\
  FromString 0 "ff" 37 = Throw (logic_error "Invalid base") /\
  FromString 0 "-1a" 10 = Throw (runtime_error "Invalid symbol at index 2").
Proof.
  split; [|split].
  - apply (proj1 (proj2 (FromString_errors 0 "12-3" 10)) ltac:(lia)
             ["1"%char; "2"%char] "-"%char ["3"%char] eq_refl).
    + intros [|[|[|j]]] c' Hj; cbn in Hj; try discriminate; injection Hj as <-;
        right; vm_compute; split; discriminate || reflexivity.
    + intros [[H _]|[H _]]; [discriminate H | vm_compute in H; apply H; reflexivity].
  - apply (proj1 (FromString_errors 0 "ff" 37)). lia.
  - apply (proj1 (proj2 (FromString_errors 0 "-1a" 10)) ltac:(lia)
             ["-"%char; "1"%char] "a"%char [] eq_refl).
    + intros [|[|[|j]]] c' Hj; cbn in Hj; try discriminate; injection Hj as <-.
      * left. auto.
      * right. vm_compute. split; discriminate || reflexivity.
    + intros [[H _]|[_ H]]; [discriminate H | vm_compute in H; discriminate H].
Defined.

(** C6.  For a canonical [a] and a native modulus [0 < m < 2^32],
    [a % m] returns [((a - (a / m) * m) mod m + m) mod m] with the
    truncating division and remainder of C++, which is the non-negative
    remainder of [a] in [[0, m)] whatever the sign of [a]. *)
Theorem remainder_by_native_modulus (a : BigInteger) (m : Z) :
  canonical a = true -> 0 < m < 4294967296 ->
  let difference := value a - Z.quot (value a) m * m in
  let answer := Z.rem (Z.rem difference m + m) m in
  finishes (fun fuel => operator_mod fuel a m) answer /\
  answer = value a mod m /\
  0 <= answer < m.
Proof.
  intros Ca Hm. cbv zeta.
  assert (E : Z.rem (Z.rem (value a - Z.quot (value a) m * m) m + m) m = value a mod m).
  { pose proof (Z.quot_rem' (value a) m) as QR.
    replace (value a - Z.quot (value a) m * m) with (Z.rem (value a) m) by lia.
    pose proof (Z.rem_bound_abs (value a) m ltac:(lia)) as Hb.
    assert (Hrr : Z.rem (Z.rem (value a) m) m = Z.rem (value a) m).
    { destruct (Z.le_gt_cases 0 (Z.rem (value a) m)).
      - apply Z.rem_small. lia.
      - rewrite <- (Z.opp_involutive (Z.rem (value a) m)) at 1.
        rewrite Z.rem_opp_l by lia. rewrite Z.rem_small by lia. lia. }
    rewrite Hrr. rewrite Z.rem_mod_nonneg by lia.
    replace (Z.rem (value a) m + m) with (value a + (1 - Z.quot (value a) m) * m) by lia.
    apply Z.mod_add. lia. }
  rewrite E. split; [apply operator_mod_spec; assumption|].
  split; [reflexivity|]. apply Z.mod_pos_bound. lia.
Qed.

Lemma remainder_by_native_modulus_witness :
  finishes (fun fuel => operator_mod fuel (BigInteger_of_int64 (-17)) 5) 3.
Proof.
  apply (remainder_by_native_modulus (BigInteger_of_int64 (-17)) 5).
  - reflexivity.
  - lia.
Defined.

(** C7.  For every pair of representations exactly one of [a < b],
    [a == b], [a > b] holds.  Operands of different sign are ordered by
    the sign query alone (-1 below 0 below 1); operands of equal sign are
    ordered by the absolute-value comparator, reversed for negative
    ones.  On canonical operands the three operators are the order of
    the values. *)
Theorem comparison_total_order (a b : BigInteger) :
  ((operator_lt a b = true /\ operator_eq a b = false /\ operator_gt a b = false) \/
   (operator_lt a b = false /\ operator_eq a b = true /\ operator_gt a b = false) \/
   (operator_lt a b = false /\ operator_eq a b = false /\ operator_gt a b = true)) /\
  (Sign a <> Sign b ->
   operator_eq a b = false /\ operator_lt a b = (Sign a <? Sign b) /\
   operator_gt a b = (Sign b <? Sign a)) /\
  (Sign a = Sign b ->
   operator_eq a b = (CompareAbsoluteValues a b =? 0) /\
   operator_lt a b = (CompareAbsoluteValues a b * Sign a =? -1) /\
   operator_gt a b = (CompareAbsoluteValues a b * Sign a =? 1)) /\
  (canonical a = true -> canonical b = true ->
   CompareAbsoluteValues a b = Z.sgn (Z.abs (value a) - Z.abs (value b)) /\
   operator_lt a b = (value a <? value b) /\
   operator_eq a b = (value a =? value b) /\
   operator_gt a b = (value b <? value a)).
Proof.
  pose proof (CompareAbsoluteValues_range a b) as Hc.
  pose proof (Sign_range a) as Ha. pose proof (Sign_range b) as Hb.
  assert (Hsa : Sign a = -1 \/ Sign a = 0 \/ Sign a = 1) by lia.
  unfold operator_gt, operator_eq, operator_lt.
  split; [|split; [|split]].
  - destruct (Z.eqb_spec (Sign a) (Sign b)); cbn [negb].
    + destruct Hc as [E|[E|E]], Hsa as [S|[S|S]]; rewrite E, S; cbn; auto.
    + destruct (Z.ltb_spec (Sign a) (Sign b)); cbn; auto.
  - intros N. destruct (Z.eqb_spec (Sign a) (Sign b)); [contradiction|]. cbn [negb].
    split; [reflexivity|]. split; [reflexivity|].
    destruct (Z.ltb_spec (Sign a) (Sign b)), (Z.ltb_spec (Sign b) (Sign a));
      try reflexivity; lia.
  - intros E. rewrite <- E, Z.eqb_refl. cbn [negb].
    split; [reflexivity|]. split; [reflexivity|].
    destruct Hsa as [S|[S|S]].
    + destruct Hc as [E'|[E'|E']]; rewrite E', S; reflexivity.
    + assert (E0 : CompareAbsoluteValues a b = 0).
      { destruct (Sign_cases a) as [[Da _]|[[_ [_ Sa]]|[_ [_ Sa]]]]; try lia.
        destruct (Sign_cases b) as [[Db _]|[[_ [_ Sb]]|[_ [_ Sb]]]]; try lia.
        unfold CompareAbsoluteValues, NumberOfDigits. rewrite Da, Db. reflexivity. }
      rewrite E0, S. reflexivity.
    + destruct Hc as [E'|[E'|E']]; rewrite E', S; reflexivity.
  - intros Ca Cb.
    fold (operator_eq a b). fold (operator_lt a b). fold (operator_gt a b).
    rewrite operator_gt_spec, operator_eq_spec, operator_lt_spec by assumption.
    rewrite (value_abs a Ca), (value_abs b Cb).
    split; [apply CompareAbsoluteValues_spec; assumption|]. auto.
Qed.

Lemma comparison_total_order_witness :
  operator_lt (BigInteger_of_int64 (-1000000001)) (BigInteger_of_int64 (-5))
  = (-1000000001 <? -5).
Proof.
  destruct (comparison_total_order (BigInteger_of_int64 (-1000000001))
              (BigInteger_of_int64 (-5))) as [_ [_ [_ H]]].
  destruct H as [_ [H _]]; [reflexivity|reflexivity|]. exact H.
Defined.

(** C8, as the code has it.  On a canonical operand the conversion to
    [int64_t] throws the overflow error, whatever the fuel, exactly when
    the value lies outside [[INT64_MIN, INT64_MAX]], and it throws
    nothing else; for every value above [INT64_MIN] and up to
    [INT64_MAX], that bound included, it returns the value itself.  At
    [INT64_MIN], which the guard lets through, the loop accumulates the
    magnitude before the sign is applied: on the limbs 854775808,
    223372036, 9 of [BigInteger(INT64_MIN)] the third
    [result += digit * power] reaches 2^63, which [int64_t] cannot hold,
    so the conversion runs into a signed overflow instead of returning
    [INT64_MIN]. *)
Theorem narrowing_overflows_at_minimum (x : BigInteger) :
  canonical x = true ->
  (value x = INT64_MIN ->
   settles (fun fuel => operator_int64 fuel x) Undefined) /\
  (digits_ (BigInteger_of_int64 INT64_MIN) = [854775808; 223372036; 9] /\
   checked (854775808 + 223372036 * 1000000000) = Ret 223372036854775808 /\
   checked (223372036854775808 + 9 * 1000000000000000000) = Undefined /\
   settles (fun fuel => to_int64_loop fuel [854775808; 223372036; 9] 0 1) Undefined /\
   settles (fun fuel => operator_int64 fuel (BigInteger_of_int64 INT64_MIN)) Undefined) /\
  (INT64_MIN < value x <= INT64_MAX ->
   finishes (fun fuel => operator_int64 fuel x) (value x)) /\
  (forall fuel,
     operator_int64 fuel x = Throw (runtime_error "int64_t overflow") <->
     (value x < INT64_MIN \/ INT64_MAX < value x)) /\
  (forall fuel e, operator_int64 fuel x = Throw e ->
                  value x < INT64_MIN \/ INT64_MAX < value x) /\
  finishes (fun fuel => operator_int64 fuel (BigInteger_of_int64 INT64_MAX)) INT64_MAX.
Proof.
  intros C.
  assert (Hthrow : forall fuel e, operator_int64 fuel x = Throw e ->
                                  value x < INT64_MIN \/ INT64_MAX < value x).
  { intros fuel e H.
    destruct (Z.lt_ge_cases (value x) INT64_MIN); [auto|].
    destruct (Z.lt_ge_cases INT64_MAX (value x)); [auto|].
    pose proof (operator_int64_no_overflow x fuel C ltac:(lia)) as N.
    rewrite H in N. contradiction. }
  refine (conj _ (conj _ (conj _ (conj _ (conj _ _))))).
  - apply operator_int64_minimum. exact C.
  - refine (conj _ (conj _ (conj _ (conj _ _)))).
    + vm_compute. reflexivity.
    + vm_compute. reflexivity.
    + vm_compute. reflexivity.
    + pose proof (to_int64_loop_spec [854775808; 223372036; 9] 0 1
                    ltac:(unfold Int64.in_range, Int64.min_signed, Int64.max_signed; lia))
        as H.
      exact H.
    + apply operator_int64_minimum.
      * apply BigInteger_of_int64_canonical. exact in_range_min.
      * apply BigInteger_of_int64_value. exact in_range_min.
  - apply operator_int64_in_range. exact C.
  - intros fuel. split.
    + apply Hthrow.
    + intros H. apply operator_int64_overflow; assumption.
  - exact Hthrow.
  - pose proof (operator_int64_in_range (BigInteger_of_int64 INT64_MAX)
                  (BigInteger_of_int64_canonical _ in_range_max)) as H.
    rewrite BigInteger_of_int64_value in H by exact in_range_max.
    apply H. unfold INT64_MIN, INT64_MAX, Int64.min_signed, Int64.max_signed. lia.
Qed.

Lemma narrowing_overflows_at_minimum_witness :
  settles
    (fun fuel =>
       operator_int64 fuel
         {| digits_ := [854775808; 223372036; 9]; is_negative := true |})
    Undefined.
Proof.
  destruct (narrowing_overflows_at_minimum
              {| digits_ := [854775808; 223372036; 9]; is_negative := true |} eq_refl)
    as [H _].
  apply H. vm_compute. reflexivity.
Defined.

(** C9, as the code has it.  [operator<<] renders with [ToString(10)]
    whatever the base flags of the stream: under the hex flag 255 is
    written as 255 although [GetStreamBase] answers 16 and [ToString]
    at base 16 gives ff; and with [showbase] set a negative value gets
    its minus sign twice. *)
Lemma stream_output_ignores_base :
  let os := {| showbase := false; hex := true; oct := false; dec := false;
               written := EmptyString |} in
  let os' := {| showbase := true; hex := true; oct := false; dec := false;
                written := EmptyString |} in
  GetStreamBase os = 16 /\
  ToString 8 (BigInteger_of_int64 255) (GetStreamBase os) false = Ret "ff"%string /\
  (exists out, operator_shl 8 os (BigInteger_of_int64 255) = Ret out /\
               written out = "255"%string) /\
  (exists out, operator_shl 8 os' (BigInteger_of_int64 (-255)) = Ret out /\
               written out = "--255"%string).
Proof.
  cbv zeta. split; [reflexivity|]. split; [vm_compute; reflexivity|].
  split; eexists; split; vm_compute; reflexivity.
Qed.

(** C10.  A representation with an empty limb vector behaves as the zero
    built by the constructor, whatever its flag: its sign query is 0,
    every comparison operator answers for it on either side what it
    answers for that zero, in particular it equals that zero, and
    [ToString] without prefix renders it as "0" in every valid base. *)
Theorem empty_limbs_behave_as_zero (flag : bool) (c : BigInteger) (base : Z) (fuel : nat) :
  let z := {| digits_ := []; is_negative := flag |} in
  let zero := BigInteger_of_int64 0 in
  Sign z = 0 /\
  (operator_eq z zero = true /\ operator_ne z zero = false /\
   operator_lt z zero = false /\ operator_gt z zero = false /\
   operator_le z zero = true /\ operator_ge z zero = true) /\
  (operator_eq z c = operator_eq zero c /\ operator_eq c z = operator_eq c zero /\
   operator_ne z c = operator_ne zero c /\ operator_ne c z = operator_ne c zero /\
   operator_lt z c = operator_lt zero c /\ operator_lt c z = operator_lt c zero /\
   operator_gt z c = operator_gt zero c /\ operator_gt c z = operator_gt c zero /\
   operator_le z c = operator_le zero c /\ operator_le c z = operator_le c zero /\
   operator_ge z c = operator_ge zero c /\ operator_ge c z = operator_ge c zero) /\
  (2 <= base <= 36 -> ToString fuel z base false = Ret "0"%string).
Proof.
  cbv zeta. split; [reflexivity|]. split; [repeat split; reflexivity|].
  split; [repeat split; reflexivity|].
  intros Hb. unfold ToString, ThrowIfBaseIsInvalid.
  destruct (Z.ltb_spec base 2); [lia|]. destruct (Z.gtb_spec base 36); [lia|].
  cbn [orb bind]. rewrite ToString_loop_unfold.
  reflexivity.
Qed.

Lemma empty_limbs_behave_as_zero_witness :
  ToString 0 {| digits_ := []; is_negative := true |} 2 false = Ret "0"%string.
Proof.
  apply (empty_limbs_behave_as_zero true (BigInteger_of_int64 1) 2 0).
  lia.
Defined.

(** * Further properties of the code *)

(** ** Construction and narrowing *)

(** X1.  For every 64-bit [v] the constructor builds a canonical
    representation of value [v], with the flag set exactly for negative
    [v] and at most three limbs. *)
Theorem constructor_represents (v : Z) :
  Int64.in_range v ->
  canonical (BigInteger_of_int64 v) = true /\
  value (BigInteger_of_int64 v) = v /\
  is_negative (BigInteger_of_int64 v) = (v <? 0) /\
  (length (digits_ (BigInteger_of_int64 v)) <= 3)%nat.
Proof.
  intros R.
  pose proof (BigInteger_of_int64_canonical v R) as C.
  pose proof (BigInteger_of_int64_value v R) as V.
  split; [exact C|]. split; [exact V|]. split; [reflexivity|].
  pose proof (value_abs _ C) as A. rewrite V in A.
  apply canonical_parts in C. destruct C as [O T].
  apply in_range_length; auto.
  unfold Int64.in_range, Int64.min_signed, Int64.max_signed in R. lia.
Qed.

Lemma constructor_represents_witness :
  value (BigInteger_of_int64 INT64_MIN) = INT64_MIN /\
  (length (digits_ (BigInteger_of_int64 INT64_MIN)) <= 3)%nat.
Proof.
  destruct (constructor_represents INT64_MIN) as [_ [V [_ L]]].
  - unfold Int64.in_range, INT64_MIN, Int64.min_signed, Int64.max_signed. lia.
  - split; [exact V | exact L].
Defined.

(** X2.  Converting a 64-bit integer other than [INT64_MIN] to a
    [BigInteger] and back returns it; for [INT64_MIN] the way back runs
    into the signed overflow of the accumulation and returns nothing. *)
Theorem native_round_trip (v : Z) :
  Int64.in_range v ->
  (v <> INT64_MIN ->
   finishes (fun fuel => operator_int64 fuel (BigInteger_of_int64 v)) v) /\
  (v = INT64_MIN ->
   settles (fun fuel => operator_int64 fuel (BigInteger_of_int64 v)) Undefined).
Proof.
  intros R.
  pose proof (BigInteger_of_int64_canonical v R) as C.
  pose proof (BigInteger_of_int64_value v R) as V.
  split; intros H.
  - pose proof (operator_int64_in_range (BigInteger_of_int64 v) C) as F.
    rewrite V in F. apply F.
    unfold Int64.in_range, INT64_MIN, INT64_MAX in *. lia.
  - apply operator_int64_minimum; [exact C|]. rewrite V. exact H.
Qed.

Lemma native_round_trip_witness :
  finishes (fun fuel => operator_int64 fuel (BigInteger_of_int64 (-1000000001)))
           (-1000000001).
Proof.
  apply (native_round_trip (-1000000001)).
  - unfold Int64.in_range, Int64.min_signed, Int64.max_signed. lia.
  - unfold INT64_MIN, Int64.min_signed. lia.
Defined.

(** ** Normalisation and comparison on arbitrary representations *)

(** X3.  [RemoveZeroes] removes exactly a run of zero limbs at the most
    significant end: what it keeps is trimmed and denotes the same
    magnitude, the flag is untouched, a trimmed vector is left as it is,
    and a second call changes nothing. *)
Theorem RemoveZeroes_normalises (x : BigInteger) :
  (exists k, digits_ x = digits_ (RemoveZeroes x) ++ repeat 0 k) /\
  trimmed (digits_ (RemoveZeroes x)) = true /\
  val (digits_ (RemoveZeroes x)) = val (digits_ x) /\
  is_negative (RemoveZeroes x) = is_negative x /\
  (trimmed (digits_ x) = true -> RemoveZeroes x = x) /\
  RemoveZeroes (RemoveZeroes x) = RemoveZeroes x.
Proof.
  assert (Hid : forall y, trimmed (digits_ y) = true -> RemoveZeroes y = y).
  { intros [l b] T. pose proof (RemoveZeroes_trimmed_id l b T) as E.
    unfold RemoveZeroes in *. cbn [digits_ is_negative] in *. rewrite E. reflexivity. }
  split; [apply RemoveZeroes_decompose|].
  split; [apply RemoveZeroes_trimmed|].
  split; [apply RemoveZeroes_val|].
  split; [reflexivity|].
  split; [apply Hid|].
  apply Hid. apply RemoveZeroes_trimmed.
Qed.

Lemma compare_from_top_opp (l r : list Z) :
  compare_from_top r l = - compare_from_top l r.
Proof.
  revert r. induction l as [|x l IH]; intros [|y r]; try reflexivity.
  cbn [compare_from_top]. rewrite (Z.eqb_sym y x).
  destruct (Z.eqb_spec x y) as [->|N]; cbn [negb]; [apply IH|].
  destruct (Z.ltb_spec x y), (Z.ltb_spec y x); try reflexivity; lia.
Qed.

Lemma compare_from_top_zero (l r : list Z) :
  length l = length r -> compare_from_top l r = 0 -> l = r.
Proof.
  revert r. induction l as [|x l IH]; intros [|y r] Hlen H; try discriminate; [reflexivity|].
  cbn [compare_from_top] in H. injection Hlen as Hlen.
  destruct (Z.eqb_spec x y) as [->|N]; cbn [negb] in H.
  - f_equal. apply IH; assumption.
  - destruct (x <? y); discriminate.
Qed.

Lemma compare_from_top_refl (l : list Z) : compare_from_top l l = 0.
Proof.
  induction l as [|x l IH]; [reflexivity|].
  cbn [compare_from_top]. rewrite Z.eqb_refl. exact IH.
Qed.

(** X4.  On all representations, canonical or not, the absolute-value
    comparator is antisymmetric and answers 0 exactly for equal limb
    vectors; hence [==] holds exactly for equal sign queries and equal
    limb vectors, and [!=] is its negation. *)
Theorem equality_is_structural (a b : BigInteger) :
  CompareAbsoluteValues b a = - CompareAbsoluteValues a b /\
  (CompareAbsoluteValues a b = 0 <-> digits_ a = digits_ b) /\
  (operator_eq a b = true <-> Sign a = Sign b /\ digits_ a = digits_ b) /\
  operator_eq a b = operator_eq b a /\
  operator_ne a b = negb (operator_eq a b).
Proof.
  assert (Hopp : forall x y, CompareAbsoluteValues y x = - CompareAbsoluteValues x y).
  { intros x y. unfold CompareAbsoluteValues. rewrite (Z.eqb_sym (NumberOfDigits y)).
    destruct (Z.eqb_spec (NumberOfDigits x) (NumberOfDigits y)); cbn [negb].
    - apply compare_from_top_opp.
    - destruct (Z.ltb_spec (NumberOfDigits x) (NumberOfDigits y)),
        (Z.ltb_spec (NumberOfDigits y) (NumberOfDigits x)); try reflexivity; lia. }
  assert (Hzero : CompareAbsoluteValues a b = 0 <-> digits_ a = digits_ b).
  { unfold CompareAbsoluteValues, NumberOfDigits. split.
    - destruct (Z.eqb_spec (Z.of_nat (length (digits_ a))) (Z.of_nat (length (digits_ b))))
        as [E|E]; cbn [negb].
      + intros H. apply compare_from_top_zero in H; [|rewrite !length_rev; lia].
        rewrite <- (rev_involutive (digits_ a)), H. apply rev_involutive.
      + destruct (Z.of_nat (length (digits_ a)) <? Z.of_nat (length (digits_ b)));
          discriminate.
    - intros E. rewrite E, Z.eqb_refl. cbn [negb]. apply compare_from_top_refl. }
  split; [apply Hopp|]. split; [exact Hzero|]. split; [|split].
  - unfold operator_eq. destruct (Z.eqb_spec (Sign a) (Sign b)); cbn [negb].
    + rewrite Z.eqb_eq, Hzero. tauto.
    + split; [discriminate | tauto].
  - unfold operator_eq. rewrite (Z.eqb_sym (Sign b)), (Hopp a b).
    destruct (negb (Sign a =? Sign b)); [reflexivity|].
    destruct (Z.eqb_spec (CompareAbsoluteValues a b) 0),
      (Z.eqb_spec (- CompareAbsoluteValues a b) 0); try reflexivity; lia.
  - reflexivity.
Qed.

(** ** The arithmetic operators *)

(** X5.  [MultiplyByShort] by a factor in [[0, B]] returns a canonical
    result whose value is the product, for every operand with limbs in
    range, trimmed or not; in particular the factor 0 gives the empty
    limb vector. *)
Theorem MultiplyByShort_computes_product (lhs : BigInteger) (rhs : Z) :
  digits_ok (digits_ lhs) = true -> 0 <= rhs <= internal_base ->
  canonical (MultiplyByShort lhs rhs) = true /\
  value (MultiplyByShort lhs rhs) = value lhs * rhs /\
  digits_ (MultiplyByShort lhs 0) = [].
Proof.
  intros O R.
  destruct (MultiplyByShort_spec lhs rhs O R) as [C [_ [_ V]]].
  split; [exact C|]. split; [exact V|].
  destruct (MultiplyByShort_spec lhs 0 O ltac:(unfold internal_base; lia)) as [C0 [V0 _]].
  apply canonical_parts in C0. destruct C0 as [O0 T0].
  apply val_zero_nil; auto. rewrite V0. lia.
Qed.

Lemma MultiplyByShort_computes_product_witness :
  value (MultiplyByShort {| digits_ := [999999999; 999999999; 0]; is_negative := true |}
                         1000000000)
  = value {| digits_ := [999999999; 999999999; 0]; is_negative := true |} * 1000000000.
Proof.
  apply (MultiplyByShort_computes_product
           {| digits_ := [999999999; 999999999; 0]; is_negative := true |} 1000000000).
  - reflexivity.
  - unfold internal_base. lia.
Defined.

(** X6.  On canonical operands of any signs [operator+] finishes with a
    canonical result whose value is the sum of the values. *)
Theorem addition_computes_sum (a b : BigInteger) :
  canonical a = true -> canonical b = true ->
  exists r,
    finishes (fun fuel => operator_add fuel a b) r /\
    canonical r = true /\ value r = value a + value b.
Proof. intros Ca Cb. exact (operator_add_spec a b Ca Cb). Qed.

Lemma addition_computes_sum_witness :
  exists r,
    finishes (fun fuel => operator_add fuel (BigInteger_of_int64 999999999)
                            (BigInteger_of_int64 (-1000000001))) r /\
    canonical r = true /\
    value r = value (BigInteger_of_int64 999999999)
              + value (BigInteger_of_int64 (-1000000001)).
Proof.
  apply (addition_computes_sum (BigInteger_of_int64 999999999)
           (BigInteger_of_int64 (-1000000001))); reflexivity.
Defined.

(** X7.  On canonical operands [operator-] finishes with a canonical
    result whose value is the difference of the values. *)
Theorem subtraction_computes_difference (a b : BigInteger) :
  canonical a = true -> canonical b = true ->
  exists r,
    finishes (fun fuel => operator_sub fuel a b) r /\
    canonical r = true /\ value r = value a - value b.
Proof. intros Ca Cb. exact (operator_sub_spec a b Ca Cb). Qed.

Lemma subtraction_computes_difference_witness :
  exists r,
    finishes (fun fuel => operator_sub fuel (BigInteger_of_int64 5)
                            (BigInteger_of_int64 1000000001)) r /\
    canonical r = true /\
    value r = value (BigInteger_of_int64 5) - value (BigInteger_of_int64 1000000001).
Proof.
  apply (subtraction_computes_difference (BigInteger_of_int64 5)
           (BigInteger_of_int64 1000000001)); reflexivity.
Defined.

(** X8.  On canonical operands [operator*] finishes with a canonical
    result whose value is the product of the values. *)
Theorem multiplication_computes_product (a b : BigInteger) :
  canonical a = true -> canonical b = true ->
  exists r,
    finishes (fun fuel => operator_mul fuel a b) r /\
    canonical r = true /\ value r = value a * value b.
Proof. intros Ca Cb. exact (operator_mul_spec a b Ca Cb). Qed.

Lemma multiplication_computes_product_witness :
  exists r,
    finishes (fun fuel => operator_mul fuel (BigInteger_of_int64 (-123456789123))
                            (BigInteger_of_int64 1000000001)) r /\
    canonical r = true /\
    value r = value (BigInteger_of_int64 (-123456789123))
              * value (BigInteger_of_int64 1000000001).
Proof.
  apply (multiplication_computes_product (BigInteger_of_int64 (-123456789123))
           (BigInteger_of_int64 1000000001)); reflexivity.
Defined.

(** ** Laws of the arithmetic *)

Lemma operator_eq_of_values (x y : BigInteger) :
  canonical x = true -> canonical y = true -> value x = value y ->
  operator_eq x y = true.
Proof.
  intros Cx Cy E. rewrite operator_eq_spec by assumption. apply Z.eqb_eq. exact E.
Qed.

(** X9.  Addition and multiplication commute up to [==]: on canonical
    operands [a + b == b + a] and [a * b == b * a]. *)
Theorem arithmetic_commutes (a b : BigInteger) :
  canonical a = true -> canonical b = true ->
  exists ab ba pab pba,
    finishes (fun fuel => operator_add fuel a b) ab /\
    finishes (fun fuel => operator_add fuel b a) ba /\
    operator_eq ab ba = true /\
    finishes (fun fuel => operator_mul fuel a b) pab /\
    finishes (fun fuel => operator_mul fuel b a) pba /\
    operator_eq pab pba = true.
Proof.
  intros Ca Cb.
  destruct (operator_add_spec a b Ca Cb) as [ab [H1 [C1 V1]]].
  destruct (operator_add_spec b a Cb Ca) as [ba [H2 [C2 V2]]].
  destruct (operator_mul_spec a b Ca Cb) as [pab [H3 [C3 V3]]].
  destruct (operator_mul_spec b a Cb Ca) as [pba [H4 [C4 V4]]].
  exists ab, ba, pab, pba.
  refine (conj H1 (conj H2 (conj _ (conj H3 (conj H4 _)))));
    apply operator_eq_of_values; auto; lia.
Qed.

Lemma arithmetic_commutes_witness :
  exists ab ba pab pba,
    finishes (fun fuel => operator_add fuel (BigInteger_of_int64 (-5))
                            (BigInteger_of_int64 5)) ab /\
    finishes (fun fuel => operator_add fuel (BigInteger_of_int64 5)
                            (BigInteger_of_int64 (-5))) ba /\
    operator_eq ab ba = true /\
    finishes (fun fuel => operator_mul fuel (BigInteger_of_int64 (-5))
                            (BigInteger_of_int64 5)) pab /\
    finishes (fun fuel => operator_mul fuel (BigInteger_of_int64 5)
                            (BigInteger_of_int64 (-5))) pba /\
    operator_eq pab pba = true.
Proof.
  apply (arithmetic_commutes (BigInteger_of_int64 (-5)) (BigInteger_of_int64 5));
    reflexivity.
Defined.

(** X10.  Addition and multiplication are associative up to [==]: on
    canonical operands [(a + b) + c == a + (b + c)] and
    [(a * b) * c == a * (b * c)]. *)
Theorem arithmetic_associates (a b c : BigInteger) :
  canonical a = true -> canonical b = true -> canonical c = true ->
  (exists ab ab_c bc a_bc,
      finishes (fun fuel => operator_add fuel a b) ab /\
      finishes (fun fuel => operator_add fuel ab c) ab_c /\
      finishes (fun fuel => operator_add fuel b c) bc /\
      finishes (fun fuel => operator_add fuel a bc) a_bc /\
      operator_eq ab_c a_bc = true) /\
  (exists ab ab_c bc a_bc,
      finishes (fun fuel => operator_mul fuel a b) ab /\
      finishes (fun fuel => operator_mul fuel ab c) ab_c /\
      finishes (fun fuel => operator_mul fuel b c) bc /\
      finishes (fun fuel => operator_mul fuel a bc) a_bc /\
      operator_eq ab_c a_bc = true).
Proof.
  intros Ca Cb Cc. split.
  - destruct (operator_add_spec a b Ca Cb) as [ab [H1 [C1 V1]]].
    destruct (operator_add_spec ab c C1 Cc) as [ab_c [H2 [C2 V2]]].
    destruct (operator_add_spec b c Cb Cc) as [bc [H3 [C3 V3]]].
    destruct (operator_add_spec a bc Ca C3) as [a_bc [H4 [C4 V4]]].
    exists ab, ab_c, bc, a_bc.
    refine (conj H1 (conj H2 (conj H3 (conj H4 _)))).
    apply operator_eq_of_values; auto; lia.
  - destruct (operator_mul_spec a b Ca Cb) as [ab [H1 [C1 V1]]].
    destruct (operator_mul_spec ab c C1 Cc) as [ab_c [H2 [C2 V2]]].
    destruct (operator_mul_spec b c Cb Cc) as [bc [H3 [C3 V3]]].
    destruct (operator_mul_spec a bc Ca C3) as [a_bc [H4 [C4 V4]]].
    exists ab, ab_c, bc, a_bc.
    refine (conj H1 (conj H2 (conj H3 (conj H4 _)))).
    apply operator_eq_of_values; auto. rewrite V2, V1, V4, V3. ring.
Qed.

Lemma arithmetic_associates_witness :
  exists ab ab_c bc a_bc,
    finishes (fun fuel => operator_add fuel (BigInteger_of_int64 999999999)
                            (BigInteger_of_int64 1)) ab /\
    finishes (fun fuel => operator_add fuel ab (BigInteger_of_int64 (-1000000000))) ab_c /\
    finishes (fun fuel => operator_add fuel (BigInteger_of_int64 1)
                            (BigInteger_of_int64 (-1000000000))) bc /\
    finishes (fun fuel => operator_add fuel (BigInteger_of_int64 999999999) bc) a_bc /\
    operator_eq ab_c a_bc = true.
Proof.
  apply (arithmetic_associates (BigInteger_of_int64 999999999) (BigInteger_of_int64 1)
           (BigInteger_of_int64 (-1000000000))); reflexivity.
Defined.

(** X11.  Multiplication distributes over addition up to [==]: on
    canonical operands [a * (b + c) == a * b + a * c]. *)
Theorem multiplication_distributes (a b c : BigInteger) :
  canonical a = true -> canonical b = true -> canonical c = true ->
  exists bc lhs ab ac rhs,
    finishes (fun fuel => operator_add fuel b c) bc /\
    finishes (fun fuel => operator_mul fuel a bc) lhs /\
    finishes (fun fuel => operator_mul fuel a b) ab /\
    finishes (fun fuel => operator_mul fuel a c) ac /\
    finishes (fun fuel => operator_add fuel ab ac) rhs /\
    operator_eq lhs rhs = true.
Proof.
  intros Ca Cb Cc.
  destruct (operator_add_spec b c Cb Cc) as [bc [H1 [C1 V1]]].
  destruct (operator_mul_spec a bc Ca C1) as [lhs [H2 [C2 V2]]].
  destruct (operator_mul_spec a b Ca Cb) as [ab [H3 [C3 V3]]].
  destruct (operator_mul_spec a c Ca Cc) as [ac [H4 [C4 V4]]].
  destruct (operator_add_spec ab ac C3 C4) as [rhs [H5 [C5 V5]]].
  exists bc, lhs, ab, ac, rhs.
  refine (conj H1 (conj H2 (conj H3 (conj H4 (conj H5 _))))).
  apply operator_eq_of_values; auto. rewrite V2, V1, V5, V3, V4. ring.
Qed.

Lemma multiplication_distributes_witness :
  exists bc lhs ab ac rhs,
    finishes (fun fuel => operator_add fuel (BigInteger_of_int64 7)
                            (BigInteger_of_int64 (-7))) bc /\
    finishes (fun fuel => operator_mul fuel (BigInteger_of_int64 (-3)) bc) lhs /\
    finishes (fun fuel => operator_mul fuel (BigInteger_of_int64 (-3))
                            (BigInteger_of_int64 7)) ab /\
    finishes (fun fuel => operator_mul fuel (BigInteger_of_int64 (-3))
                            (BigInteger_of_int64 (-7))) ac /\
    finishes (fun fuel => operator_add fuel ab ac) rhs /\
    operator_eq lhs rhs = true.
Proof.
  apply (multiplication_distributes (BigInteger_of_int64 (-3)) (BigInteger_of_int64 7)
           (BigInteger_of_int64 (-7))); reflexivity.
Defined.

(** X12.  The remainder left by the truncating division,
    [a - (a / b) * b], is smaller in magnitude than the divisor and, when
    not zero, has the sign of the dividend. *)
Theorem remainder_follows_dividend (a b : BigInteger) :
  canonical a = true -> canonical b = true -> value b <> 0 ->
  exists q p r,
    finishes (fun fuel => operator_div fuel a b) q /\
    finishes (fun fuel => operator_mul fuel q b) p /\
    finishes (fun fuel => operator_sub fuel a p) r /\
    value r = Z.rem (value a) (value b) /\
    Z.abs (value r) < Z.abs (value b) /\
    (value r = 0 \/ Sign r = Sign a).
Proof.
  intros Ca Cb Nb.
  destruct (operator_div_spec a b Ca Cb Nb) as [q [Hq [Cq Vq]]].
  destruct (operator_mul_spec q b Cq Cb) as [p [Hp [Cp Vp]]].
  destruct (operator_sub_spec a p Ca Cp) as [r [Hr [Cr Vr]]].
  exists q, p, r.
  assert (E : value r = Z.rem (value a) (value b)).
  { rewrite Vr, Vp, Vq. pose proof (Z.quot_rem' (value a) (value b)). lia. }
  refine (conj Hq (conj Hp (conj Hr (conj E (conj _ _))))).
  - rewrite E. apply Z.rem_bound_abs. exact Nb.
  - destruct (Z.eq_dec (value r) 0) as [|N]; [left; assumption|right].
    rewrite (Sign_value r Cr), (Sign_value a Ca), E.
    apply Z.rem_sign_nz; [exact Nb|]. rewrite <- E. exact N.
Qed.

Lemma remainder_follows_dividend_witness :
  exists q p r,
    finishes (fun fuel => operator_div fuel (BigInteger_of_int64 (-17))
                            (BigInteger_of_int64 5)) q /\
    finishes (fun fuel => operator_mul fuel q (BigInteger_of_int64 5)) p /\
    finishes (fun fuel => operator_sub fuel (BigInteger_of_int64 (-17)) p) r /\
    value r = -2.
Proof.
  destruct (remainder_follows_dividend (BigInteger_of_int64 (-17)) (BigInteger_of_int64 5))
    as [q [p [r [H1 [H2 [H3 [H4 _]]]]]]].
  - reflexivity.
  - reflexivity.
  - vm_compute. discriminate.
  - exists q, p, r. refine (conj H1 (conj H2 (conj H3 _))).
    rewrite H4. vm_compute. reflexivity.
Defined.

(** ** Native operands *)

Lemma operator_ge_spec (a b : BigInteger) :
  canonical a = true -> canonical b = true ->
  operator_ge a b = (value b <=? value a).
Proof.
  intros Ca Cb. unfold operator_ge. rewrite operator_lt_spec by assumption.
  destruct (Z.ltb_spec (value a) (value b)), (Z.leb_spec (value b) (value a));
    try reflexivity; lia.
Qed.

(** X13.  Arithmetic with a native operand on either side computes with
    the native value: for a canonical [a] and a 64-bit [v], [a + v],
    [a - v], [a * v], [v + a], [v - a], [v * a] have the values
    [a + v], [a - v], [a * v], [v + a], [v - a], [v * a], and for
    [v] not zero [a / v] is the truncated quotient. *)
Theorem native_operand_arithmetic (a : BigInteger) (v : Z) :
  canonical a = true -> Int64.in_range v ->
  (exists r, finishes (fun fuel => operator_add_int fuel a v) r /\
             canonical r = true /\ value r = value a + v) /\
  (exists r, finishes (fun fuel => operator_sub_int fuel a v) r /\
             canonical r = true /\ value r = value a - v) /\
  (exists r, finishes (fun fuel => operator_mul_int fuel a v) r /\
             canonical r = true /\ value r = value a * v) /\
  (exists r, finishes (fun fuel => int_operator_add fuel v a) r /\
             canonical r = true /\ value r = v + value a) /\
  (exists r, finishes (fun fuel => int_operator_sub fuel v a) r /\
             canonical r = true /\ value r = v - value a) /\
  (exists r, finishes (fun fuel => int_operator_mul fuel v a) r /\
             canonical r = true /\ value r = v * value a) /\
  (v <> 0 ->
   exists r, finishes (fun fuel => operator_div_int fuel a v) r /\
             canonical r = true /\ value r = Z.quot (value a) v) /\
  (value a <> 0 ->
   exists r, finishes (fun fuel => int_operator_div fuel v a) r /\
             canonical r = true /\ value r = Z.quot v (value a)).
Proof.
  intros Ca Rv.
  pose proof (BigInteger_of_int64_canonical v Rv) as Cv.
  pose proof (BigInteger_of_int64_value v Rv) as Vv.
  unfold operator_add_int, operator_sub_int, operator_mul_int, operator_div_int,
    int_operator_add, int_operator_sub, int_operator_mul, int_operator_div.
  split; [destruct (operator_add_spec a _ Ca Cv) as [r [H [C V]]]; exists r;
          rewrite Vv in V; auto|].
  split; [destruct (operator_sub_spec a _ Ca Cv) as [r [H [C V]]]; exists r;
          rewrite Vv in V; auto|].
  split; [destruct (operator_mul_spec a _ Ca Cv) as [r [H [C V]]]; exists r;
          rewrite Vv in V; auto|].
  split; [destruct (operator_add_spec _ a Cv Ca) as [r [H [C V]]]; exists r;
          rewrite Vv in V; auto|].
  split; [destruct (operator_sub_spec _ a Cv Ca) as [r [H [C V]]]; exists r;
          rewrite Vv in V; auto|].
  split; [destruct (operator_mul_spec _ a Cv Ca) as [r [H [C V]]]; exists r;
          rewrite Vv in V; auto|].
  split.
  - intros N.
    destruct (operator_div_spec a _ Ca Cv ltac:(rewrite Vv; exact N)) as [r [H [C V]]].
    exists r. rewrite Vv in V. auto.
  - intros N.
    destruct (operator_div_spec _ a Cv Ca N) as [r [H [C V]]].
    exists r. rewrite Vv in V. auto.
Qed.

Lemma native_operand_arithmetic_witness :
  exists r, finishes (fun fuel => int_operator_sub fuel 5 (BigInteger_of_int64 1000000001)) r /\
            canonical r = true /\ value r = 5 - value (BigInteger_of_int64 1000000001).
Proof.
  destruct (native_operand_arithmetic (BigInteger_of_int64 1000000001) 5)
    as [_ [_ [_ [_ [H _]]]]].
  - reflexivity.
  - unfold Int64.in_range, Int64.min_signed, Int64.max_signed. lia.
  - exact H.
Defined.

(** X14.  Comparisons with a native operand on either side compare the
    values: for a canonical [a] and a 64-bit [v] each member form
    [a op v] is [value a op v], and each friend form [v op a], which the
    source writes as the mirrored member form, is [v op value a]. *)
Theorem native_operand_comparisons (a : BigInteger) (v : Z) :
  canonical a = true -> Int64.in_range v ->
  (operator_eq_int a v = (value a =? v) /\
   operator_ne_int a v = negb (value a =? v) /\
   operator_lt_int a v = (value a <? v) /\
   operator_gt_int a v = (v <? value a) /\
   operator_le_int a v = (value a <=? v) /\
   operator_ge_int a v = (v <=? value a)) /\
  (int_operator_eq v a = (v =? value a) /\
   int_operator_ne v a = negb (v =? value a) /\
   int_operator_lt v a = (v <? value a) /\
   int_operator_gt v a = (value a <? v) /\
   int_operator_le v a = (v <=? value a) /\
   int_operator_ge v a = (value a <=? v)).
Proof.
  intros Ca Rv.
  pose proof (BigInteger_of_int64_canonical v Rv) as Cv.
  pose proof (BigInteger_of_int64_value v Rv) as Vv.
  assert (Hge : operator_ge_int a v = (v <=? value a)).
  { unfold operator_ge_int. rewrite operator_ge_spec, Vv by assumption. reflexivity. }
  assert (Hne : operator_ne_int a v = negb (value a =? v)).
  { unfold operator_ne_int, operator_ne. rewrite operator_eq_spec, Vv by assumption.
    reflexivity. }
  split.
  - split; [apply operator_eq_int_spec; assumption|].
    split; [exact Hne|].
    split; [apply operator_lt_int_spec; assumption|].
    split; [apply operator_gt_int_spec; assumption|].
    split; [apply operator_le_int_spec; assumption|]. exact Hge.
  - unfold int_operator_eq, int_operator_ne, int_operator_lt, int_operator_gt,
      int_operator_le, int_operator_ge.
    split; [rewrite operator_eq_int_spec by assumption; apply Z.eqb_sym|].
    split; [rewrite Hne, Z.eqb_sym; reflexivity|].
    split; [apply operator_gt_int_spec; assumption|].
    split; [apply operator_lt_int_spec; assumption|].
    split; [exact Hge|]. apply operator_le_int_spec; assumption.
Qed.

Lemma native_operand_comparisons_witness :
  int_operator_le (-5) (BigInteger_of_int64 (-1000000001))
  = (-5 <=? value (BigInteger_of_int64 (-1000000001))).
Proof.
  destruct (native_operand_comparisons (BigInteger_of_int64 (-1000000001)) (-5))
    as [_ [_ [_ [_ [_ [H _]]]]]].
  - reflexivity.
  - unfold Int64.in_range, Int64.min_signed, Int64.max_signed. lia.
  - exact H.
Defined.

(** X15.  Increment and decrement on a canonical [x]: the postfix forms
    return the old object and the prefix forms the new one, the new
    object is canonical with value [x + 1] (respectively [x - 1]), and
    decrementing the incremented object gives back a value equal to
    [x]. *)
Theorem increment_and_decrement (x : BigInteger) :
  canonical x = true ->
  exists up down back,
    finishes (fun fuel => operator_post_inc fuel x) (up, x) /\
    finishes (fun fuel => operator_pre_inc fuel x) (up, up) /\
    finishes (fun fuel => operator_post_dec fuel x) (down, x) /\
    finishes (fun fuel => operator_pre_dec fuel x) (down, down) /\
    canonical up = true /\ value up = value x + 1 /\
    canonical down = true /\ value down = value x - 1 /\
    finishes (fun fuel => operator_pre_dec fuel up) (back, back) /\
    operator_eq back x = true.
Proof.
  intros C.
  assert (R1 : Int64.in_range 1) by (apply in_range_small; lia).
  pose proof (BigInteger_of_int64_canonical 1 R1) as C1.
  pose proof (BigInteger_of_int64_value 1 R1) as V1.
  destruct (operator_add_spec x (BigInteger_of_int64 1) C C1) as [up [Hu [Cu Vu]]].
  destruct (operator_sub_spec x (BigInteger_of_int64 1) C C1) as [down [Hd [Cd Vd]]].
  destruct (operator_sub_spec up (BigInteger_of_int64 1) Cu C1) as [back [Hb [Cb Vb]]].
  rewrite V1 in *.
  exists up, down, back.
  refine (conj _ (conj _ (conj _ (conj _ (conj Cu (conj Vu (conj Cd (conj Vd
            (conj _ _))))))))).
  - apply (finishes_bind _ (fun this' _ => Ret (this', x)) up _ Hu). apply finishes_ret.
  - apply (finishes_bind _ (fun this' _ => Ret (this', this')) up _ Hu). apply finishes_ret.
  - apply (finishes_bind _ (fun this' _ => Ret (this', x)) down _ Hd). apply finishes_ret.
  - apply (finishes_bind _ (fun this' _ => Ret (this', this')) down _ Hd). apply finishes_ret.
  - apply (finishes_bind _ (fun this' _ => Ret (this', this')) back _ Hb). apply finishes_ret.
  - apply operator_eq_of_values; auto. lia.
Qed.

Lemma increment_and_decrement_witness :
  exists up down back,
    finishes (fun fuel => operator_post_inc fuel (BigInteger_of_int64 999999999)) 
             (up, BigInteger_of_int64 999999999) /\
    value up = value (BigInteger_of_int64 999999999) + 1 /\
    value down = value (BigInteger_of_int64 999999999) - 1 /\
    operator_eq back (BigInteger_of_int64 999999999) = true.
Proof.
  destruct (increment_and_decrement (BigInteger_of_int64 999999999) eq_refl)
    as [up [down [back [H1 [_ [_ [_ [_ [H2 [_ [H3 [_ H4]]]]]]]]]]]].
  exists up, down, back. exact (conj H1 (conj H2 (conj H3 H4))).
Defined.

(** ** Digit characters and texts *)

Lemma CharToDigit_inverse (c : ascii) :
  CharToDigit c <> -1 -> DigitToChar (CharToDigit c) = c.
Proof.
  destruct c as [[] [] [] [] [] [] [] []]; vm_compute; intros H;
    try reflexivity; exfalso; apply H; reflexivity.
Qed.

(** X16.  [DigitToChar] and [CharToDigit] are inverse to each other on
    the digits 0..35 and the characters '0'-'9', 'a'-'z': a digit below
    36 is read back from its character, and a character that
    [CharToDigit] accepts is the character of its digit, which is below
    36; no digit character is the minus sign. *)
Theorem digit_characters_round_trip :
  (forall d, 0 <= d < 36 ->
             CharToDigit (DigitToChar d) = d /\ DigitToChar d <> "-"%char) /\
  (forall c, CharToDigit c <> -1 ->
             DigitToChar (CharToDigit c) = c /\ 0 <= CharToDigit c < 36).
Proof.
  split.
  - intros d Hd. destruct (digit_char_roundtrip d Hd) as [E N]. split; [exact E|].
    intros F. rewrite F in N. discriminate N.
  - intros c Hc. split; [apply CharToDigit_inverse; exact Hc|].
    revert Hc. destruct c as [[] [] [] [] [] [] [] []]; intros H;
      first [ exfalso; apply H; vm_compute; reflexivity
            | vm_compute; split; [discriminate | reflexivity] ].
Qed.

Lemma numeral_value_snoc (base : Z) (body : list ascii) (c : ascii) :
  numeral_value base (body ++ [c]) = numeral_value base body * base + CharToDigit c.
Proof. unfold numeral_value. rewrite fold_left_app. reflexivity. Qed.

Lemma numeral_value_rev (base : Z) (l : list ascii) :
  numeral_value base (rev l) = digits_value base l.
Proof.
  induction l as [|c l IH]; [reflexivity|].
  cbn [rev digits_value]. rewrite numeral_value_snoc, IH. ring.
Qed.

Lemma digits_value_nonneg (base : Z) (l : list ascii) :
  0 <= base -> forallb (digit_ok base) l = true -> 0 <= digits_value base l.
Proof.
  intros Hb. induction l as [|c l IH]; intros H; [cbn; lia|].
  cbn [forallb] in H. apply andb_true_iff in H. destruct H as [Hc Hl].
  apply digit_ok_iff in Hc. specialize (IH Hl). cbn [digits_value]. nia.
Qed.

Lemma last_cons_cons {A : Type} (a b : A) (l : list A) (d : A) :
  last (a :: b :: l) d = last (b :: l) d.
Proof. reflexivity. Qed.

Lemma digits_value_pos (base : Z) (l : list ascii) :
  0 < base -> forallb (digit_ok base) l = true ->
  l <> [] -> CharToDigit (last l zero) <> 0 -> 0 < digits_value base l.
Proof.
  intros Hb. induction l as [|c l IH]; intros H N T; [contradiction|].
  cbn [forallb] in H. apply andb_true_iff in H. destruct H as [Hc Hl].
  apply digit_ok_iff in Hc. cbn [digits_value].
  destruct l as [|c' l].
  - cbn [last] in T. cbn [digits_value]. lia.
  - rewrite last_cons_cons in T.
    specialize (IH Hl ltac:(discriminate) T). nia.
Qed.

(** Two sequences of digits of the base without a superfluous most
    significant zero that write the same number are the same. *)
Lemma digits_unique (base : Z) (l1 : list ascii) :
  0 < base ->
  forall l2,
    forallb (digit_ok base) l1 = true -> forallb (digit_ok base) l2 = true ->
    (l1 <> [] -> CharToDigit (last l1 zero) <> 0) ->
    (l2 <> [] -> CharToDigit (last l2 zero) <> 0) ->
    digits_value base l1 = digits_value base l2 -> l1 = l2.
Proof.
  intros Hb. induction l1 as [|c1 l1 IH]; intros [|c2 l2] O1 O2 T1 T2 E.
  - reflexivity.
  - pose proof (digits_value_pos base (c2 :: l2) Hb O2 ltac:(discriminate)
                  (T2 ltac:(discriminate))). change (digits_value base []) with 0 in E. lia.
  - pose proof (digits_value_pos base (c1 :: l1) Hb O1 ltac:(discriminate)
                  (T1 ltac:(discriminate))). change (digits_value base []) with 0 in E. lia.
  - cbn [forallb] in O1, O2. apply andb_true_iff in O1, O2.
    destruct O1 as [Hc1 O1], O2 as [Hc2 O2].
    pose proof (digits_value_nonneg base l1 ltac:(lia) O1).
    pose proof (digits_value_nonneg base l2 ltac:(lia) O2).
    apply digit_ok_iff in Hc1, Hc2. cbn [digits_value] in E.
    assert (Ed : CharToDigit c1 = CharToDigit c2).
    { pose proof (f_equal (fun z => z mod base) E) as Em. cbv beta in Em.
      rewrite !(Z.mul_comm base), !Z.mod_add, !Z.mod_small in Em by lia. exact Em. }
    assert (Ev : digits_value base l1 = digits_value base l2) by nia.
    f_equal.
    + rewrite <- (CharToDigit_inverse c1), <- (CharToDigit_inverse c2) by lia.
      rewrite Ed. reflexivity.
    + apply IH; auto.
      * intros N. destruct l1 as [|x l1]; [contradiction|].
        specialize (T1 ltac:(discriminate)). rewrite last_cons_cons in T1. exact T1.
      * intros N. destruct l2 as [|x l2]; [contradiction|].
        specialize (T2 ltac:(discriminate)). rewrite last_cons_cons in T2. exact T2.
Qed.

(** ** Rendering, continued *)

(** One round of the digit loop of [ToString] on a positive value. *)
Lemma ToString_loop_step (base : Z) (temp : BigInteger) :
  2 <= base <= 36 -> canonical temp = true -> 0 < value temp ->
  exists q,
    canonical q = true /\ value q = value temp / base /\
    forall rest,
      finishes (fun fuel => ToString_loop fuel q base) rest ->
      finishes (fun fuel => ToString_loop fuel temp base)
               (DigitToChar (value temp mod base) :: rest).
Proof.
  intros Hb C Hv.
  assert (Rb : Int64.in_range base) by (apply in_range_small; lia).
  pose proof (BigInteger_of_int64_canonical base Rb) as Cb.
  pose proof (BigInteger_of_int64_value base Rb) as Vb.
  destruct (operator_div_spec temp (BigInteger_of_int64 base) C Cb ltac:(lia))
    as [q [Hq [Cq Vq]]].
  rewrite Vb in Vq. rewrite Z.quot_div_nonneg in Vq by lia.
  destruct (MultiplyByShort_spec q base (canonical_digits_ok q Cq)
              ltac:(unfold internal_base; lia)) as [Cp [_ [_ Vp]]].
  destruct (operator_sub_spec temp (MultiplyByShort q base) C Cp) as [d [Hd [Cd Vd]]].
  rewrite Vp, Vq in Vd.
  assert (Vd' : value d = value temp mod base).
  { rewrite Vd. pose proof (Z.div_mod (value temp) base ltac:(lia)). lia. }
  pose proof (Z.mod_pos_bound (value temp) base ltac:(lia)) as Hmod.
  pose proof (operator_int64_in_range d Cd
    ltac:(unfold INT64_MIN, INT64_MAX, Int64.min_signed, Int64.max_signed; lia)) as Hn.
  exists q. split; [exact Cq|]. split; [exact Vq|]. intros rest Hrest.
  rewrite <- Vd'.
  assert (Hchain : finishes
            (fun f =>
               quotient <- operator_div_int f temp base ;;
               difference <- operator_sub f temp (MultiplyByShort quotient base) ;;
               digit <- operator_int64 f difference ;;
               temp' <- operator_div_int f temp base ;;
               rest <- ToString_loop f temp' base ;;
               Ret (DigitToChar digit :: rest))
            (DigitToChar (value d) :: rest)).
  { apply (finishes_bind _ _ q _ Hq).
    apply (finishes_bind _ _ d _ Hd).
    apply (finishes_bind _ _ (value d) _ Hn).
    apply (finishes_bind _ _ q _ Hq).
    apply (finishes_bind _ (fun r _ => Ret (DigitToChar (value d) :: r)) rest _ Hrest).
    apply finishes_ret. }
  apply finishes_succ in Hchain.
  eapply finishes_ext; [|exact Hchain]. intros fuel. cbv beta.
  rewrite ToString_loop_unfold, operator_ne_int_zero by exact C.
  destruct (Z.eqb_spec (value temp) 0); [lia|]. reflexivity.
Qed.

(** The digits written by the loop of [ToString], with the fact that the
    last one written, the most significant, is not the digit 0. *)
Lemma ToString_loop_shape (base : Z) (m : nat) :
  2 <= base <= 36 ->
  forall temp : BigInteger,
    canonical temp = true -> 0 <= value temp <= Z.of_nat m ->
    exists cs,
      finishes (fun fuel => ToString_loop fuel temp base) cs /\
      forallb (digit_ok base) cs = true /\
      digits_value base cs = value temp /\
      (cs = [] <-> value temp = 0) /\
      (cs <> [] -> CharToDigit (last cs zero) <> 0).
Proof.
  intros Hb.
  assert (Hzero : forall temp : BigInteger,
             canonical temp = true -> value temp = 0 ->
             exists cs,
               finishes (fun fuel => ToString_loop fuel temp base) cs /\
               forallb (digit_ok base) cs = true /\
               digits_value base cs = value temp /\
               (cs = [] <-> value temp = 0) /\
               (cs <> [] -> CharToDigit (last cs zero) <> 0)).
  { intros temp C E0. exists []. split; [|split; [|split; [|split]]].
    - exists 0%nat. intros fuel _.
      rewrite ToString_loop_unfold, operator_ne_int_zero by exact C.
      rewrite E0. reflexivity.
    - reflexivity.
    - rewrite E0. reflexivity.
    - split; auto.
    - intros N. contradiction. }
  induction m as [|m IH]; intros temp C Hv.
  - apply Hzero; [exact C|]. change (Z.of_nat 0) with 0 in Hv. lia.
  - destruct (Z.eq_dec (value temp) 0) as [E0|N0]; [apply Hzero; assumption|].
    destruct (ToString_loop_step base temp Hb C ltac:(lia)) as [q [Cq [Vq Hstep]]].
    assert (Hq0 : 0 <= value q <= Z.of_nat m).
    { rewrite Vq. split; [apply Z.div_pos; lia|].
      assert (value temp / base < value temp) by (apply Z.div_lt; lia). lia. }
    destruct (IH q Cq Hq0) as [rest [Hrest [Orest [Vrest [Erest Trest]]]]].
    pose proof (Z.mod_pos_bound (value temp) base ltac:(lia)) as Hmod.
    destruct (digit_char_roundtrip (value temp mod base) ltac:(lia)) as [Ed _].
    exists (DigitToChar (value temp mod base) :: rest).
    split; [apply Hstep; exact Hrest|]. split; [|split; [|split]].
    + cbn [forallb]. rewrite Orest, DigitToChar_ok; auto.
    + cbn [digits_value]. rewrite Ed, Vrest, Vq.
      pose proof (Z.div_mod (value temp) base ltac:(lia)). lia.
    + split; [discriminate|]. intros; contradiction.
    + intros _. destruct rest as [|r rest].
      * cbn [last]. rewrite Ed.
        assert (value q = 0) by (apply Erest; reflexivity).
        rewrite Vq in H.
        pose proof (Z.div_mod (value temp) base ltac:(lia)). lia.
      * rewrite last_cons_cons. apply Trest. discriminate.
Qed.

Lemma hd_rev_last {A : Type} (l : list A) (d : A) : hd d (rev l) = last l d.
Proof.
  induction l as [|a l IH]; [reflexivity|].
  cbn [rev]. destruct l as [|b l]; [reflexivity|].
  rewrite last_cons_cons, <- IH. cbn [rev].
  destruct (rev l ++ [b]) eqn:E; [|reflexivity].
  destruct (rev l); discriminate.
Qed.

(** The text of [ToString] for either setting of the prefix flag: the
    sign, the prefix when asked for, then the digits. *)
Lemma ToString_text (x : BigInteger) (base : Z) :
  canonical x = true -> 2 <= base <= 36 ->
  exists body,
    (forall show : bool,
        finishes (fun fuel => ToString fuel x base show)
          (string_of_list_ascii
             ((if value x <? 0 then ["-"%char] else [])
              ++ (if show then rev (GetReversedBasePrefix base) else [])
              ++ body))) /\
    body <> [] /\
    forallb (digit_ok base) body = true /\
    numeral_value base body = Z.abs (value x) /\
    (value x = 0 -> body = ["0"%char]) /\
    (value x <> 0 -> CharToDigit (hd zero body) <> 0).
Proof.
  intros C Hb. destruct (value_Abs x C) as [Va Ca].
  destruct (ToString_loop_shape base (Z.to_nat (Z.abs (value x))) Hb (Abs x) Ca ltac:(lia))
    as [cs [Hf [O [V [E T]]]]].
  rewrite Va in V, E.
  assert (E' : cs = [] <-> value x = 0) by (rewrite E; lia).
  clear E. rename E' into E.
  set (init := if value x =? 0 then ["0"%char] else []).
  exists (rev (init ++ cs)).
  split; [|split; [|split; [|split; [|split]]]].
  - intros show. unfold ToString, ThrowIfBaseIsInvalid.
    destruct (Z.ltb_spec base 2); [lia|]. destruct (Z.gtb_spec base 36); [lia|].
    cbn [orb bind].
    rewrite (operator_eq_int_spec x 0 C ltac:(apply in_range_small; lia)).
    rewrite (operator_lt_int_spec x 0 C ltac:(apply in_range_small; lia)).
    fold init.
    apply (finishes_bind _
             (fun appended _ =>
                Ret (string_of_list_ascii
                       (rev (if value x <? 0
                             then (if show
                                   then (init ++ appended) ++ GetReversedBasePrefix base
                                   else init ++ appended) ++ ["-"%char]
                             else (if show
                                   then (init ++ appended) ++ GetReversedBasePrefix base
                                   else init ++ appended)))))
             cs _ Hf).
    match goal with
    | |- finishes _ (string_of_list_ascii ?l) =>
        replace l with (rev (if value x <? 0
                             then (if show
                                   then (init ++ cs) ++ GetReversedBasePrefix base
                                   else init ++ cs) ++ ["-"%char]
                             else (if show
                                   then (init ++ cs) ++ GetReversedBasePrefix base
                                   else init ++ cs)));
        [apply finishes_ret|]
    end.
    destruct (value x <? 0), show; rewrite ?rev_app_distr; cbn [rev app];
      rewrite ?rev_app_distr; reflexivity.
  - unfold init. destruct (Z.eqb_spec (value x) 0) as [E0|N0].
    + cbn [app]. intros F. apply (f_equal (@length ascii)) in F.
      rewrite length_rev in F. cbn in F. lia.
    + cbn [app]. intros F. apply (f_equal (@rev ascii)) in F.
      rewrite rev_involutive in F. cbn in F. apply E in F. lia.
  - rewrite forallb_rev, forallb_app, O, andb_true_r. unfold init.
    destruct (value x =? 0); [|reflexivity]. cbn [forallb]. rewrite andb_true_r.
    apply digit_ok_iff. change (CharToDigit "0") with 0. lia.
  - rewrite numeral_value_rev. unfold init.
    destruct (Z.eqb_spec (value x) 0) as [E0|N0].
    + pose proof (proj2 E E0) as Ecs. subst cs. cbn [app digits_value].
      change (CharToDigit "0") with 0. lia.
    + exact V.
  - intros E0. unfold init. rewrite (proj2 (Z.eqb_eq _ _) E0).
    rewrite (proj2 E E0). reflexivity.
  - intros N0. unfold init. rewrite (proj2 (Z.eqb_neq _ _) N0). cbn [app].
    rewrite hd_rev_last. apply T. intros F. apply E in F. lia.
Qed.

(** X17.  On a canonical [x] and a base in [[2, 36]], [ToString]
    without prefix writes a minus sign exactly for a negative value,
    followed by a non-empty run of digits of the base that denotes
    [|x|] and has no leading zero: it is the single digit 0 for zero and
    starts with a non-zero digit otherwise. *)
Theorem ToString_writes_the_numeral (x : BigInteger) (base : Z) :
  canonical x = true -> 2 <= base <= 36 ->
  exists body,
    finishes (fun fuel => ToString fuel x base false)
      (string_of_list_ascii ((if value x <? 0 then ["-"%char] else []) ++ body)) /\
    body <> [] /\
    forallb (digit_ok base) body = true /\
    numeral_value base body = Z.abs (value x) /\
    (value x = 0 -> body = ["0"%char]) /\
    (value x <> 0 -> CharToDigit (hd zero body) <> 0).
Proof.
  intros C Hb. destruct (ToString_text x base C Hb) as [body [H R]].
  exists body. split; [exact (H false) | exact R].
Qed.

Lemma ToString_writes_the_numeral_witness :
  exists body,
    finishes (fun fuel => ToString fuel (BigInteger_of_int64 (-1000000001)) 36 false)
      (string_of_list_ascii ("-"%char :: body)) /\
    numeral_value 36 body = 1000000001.
Proof.
  destruct (ToString_writes_the_numeral (BigInteger_of_int64 (-1000000001)) 36)
    as [body [H [_ [_ [V _]]]]].
  - reflexivity.
  - lia.
  - exists body. split; [exact H | exact V].
Defined.

(** X18.  [ToString] throws the invalid-base error for a base outside
    [[2, 36]], whatever the value and the prefix flag.  For a valid base
    the prefix flag inserts the marker between the sign and the digits
    that are written without it: 0x for base 16, 0 for base 8 (so that
    zero is written 00), nothing for any other base. *)
Theorem ToString_prefix_placement (x : BigInteger) (base : Z) :
  (forall fuel show, base < 2 \/ 36 < base ->
                     ToString fuel x base show = Throw (logic_error "Invalid base")) /\
  (canonical x = true -> 2 <= base <= 36 ->
   exists sign body,
     sign = (if value x <? 0 then ["-"%char] else []) /\
     finishes (fun fuel => ToString fuel x base false)
              (string_of_list_ascii (sign ++ body)) /\
     finishes (fun fuel => ToString fuel x base true)
              (string_of_list_ascii
                 (sign ++ (if base =? 16 then ["0"%char; "x"%char]
                           else if base =? 8 then ["0"%char] else []) ++ body))).
Proof.
  split.
  - intros fuel show Hb. unfold ToString, ThrowIfBaseIsInvalid.
    destruct (Z.ltb_spec base 2); [reflexivity|].
    destruct (Z.gtb_spec base 36); [reflexivity|]. lia.
  - intros C Hb. destruct (ToString_text x base C Hb) as [body [H _]].
    exists (if value x <? 0 then ["-"%char] else []), body.
    split; [reflexivity|]. split; [exact (H false)|].
    pose proof (H true) as Ht. cbv beta iota in Ht.
    replace (rev (GetReversedBasePrefix base))
      with (if base =? 16 then ["0"%char; "x"%char]
            else if base =? 8 then ["0"%char] else []) in Ht; [exact Ht|].
    unfold GetReversedBasePrefix.
    destruct (Z.eqb_spec base 8) as [->|]; [reflexivity|].
    destruct (Z.eqb_spec base 16); reflexivity.
Qed.

Lemma ToString_prefix_placement_witness :
  exists sign body,
    sign = ["-"%char] /\
    finishes (fun fuel => ToString fuel (BigInteger_of_int64 (-255)) 16 true)
             (string_of_list_ascii (sign ++ ["0"%char; "x"%char] ++ body)).
Proof.
  destruct (proj2 (ToString_prefix_placement (BigInteger_of_int64 (-255)) 16)
              eq_refl ltac:(lia)) as [sign [body [E [_ H]]]].
  exists sign, body. split; [exact E | exact H].
Defined.

(** ** Parsing, continued *)

(** X19.  [FromString] on an optional minus sign followed by digits of
    the base (leading zeros allowed, possibly no digit at all) finishes
    with a canonical result whose value is the number the digits write
    by Horner's rule, negated after a minus sign. *)
Theorem FromString_reads_the_numeral
        (input : string) (base : Z) (negative : bool) (body : list ascii) :
  2 <= base <= 36 ->
  list_ascii_of_string input = (if negative then ["-"%char] else []) ++ body ->
  forallb (digit_ok base) body = true ->
  exists y,
    finishes (fun fuel => FromString fuel input base) y /\
    canonical y = true /\
    value y = (if negative then -1 else 1) * numeral_value base body /\
    (body = [] -> digits_ y = []).
Proof.
  intros Hb Hin Hbody.
  destruct (FromString_spec input base negative body Hb Hin Hbody) as [y [Hy [Cy Vy]]].
  exists y. split; [exact Hy|]. split; [exact Cy|].
  rewrite <- numeral_value_rev, rev_involutive in Vy. split; [exact Vy|].
  intros E. apply value_zero_digits; [exact Cy|]. rewrite Vy, E. cbn. lia.
Qed.

Lemma FromString_reads_the_numeral_witness :
  exists y,
    finishes (fun fuel => FromString fuel "-007" 8) y /\
    canonical y = true /\
    value y = -1 * numeral_value 8 ["0"%char; "0"%char; "7"%char].
Proof.
  destruct (FromString_reads_the_numeral "-007" 8 true ["0"%char; "0"%char; "7"%char])
    as [y [H [C [V _]]]].
  - lia.
  - reflexivity.
  - reflexivity.
  - exists y. exact (conj H (conj C V)).
Defined.

(** X20.  Parsing then rendering gives the text back when the text is a
    numeral as [ToString] writes them: an optional minus sign followed by
    a non-empty run of digits of the base that starts with a non-zero
    digit.  A text of digits that writes zero, with or without a minus
    sign, is rendered as 0. *)
Theorem parse_then_render (input : string) (base : Z) (negative : bool) (body : list ascii) :
  2 <= base <= 36 ->
  list_ascii_of_string input = (if negative then ["-"%char] else []) ++ body ->
  forallb (digit_ok base) body = true ->
  exists y,
    finishes (fun fuel => FromString fuel input base) y /\
    (body <> [] -> CharToDigit (hd zero body) <> 0 ->
     finishes (fun fuel => ToString fuel y base false) input) /\
    (numeral_value base body = 0 ->
     finishes (fun fuel => ToString fuel y base false) "0"%string).
Proof.
  intros Hb Hin Hbody.
  destruct (FromString_spec input base negative body Hb Hin Hbody) as [y [Hy [Cy Vy]]].
  rewrite <- numeral_value_rev, rev_involutive in Vy.
  destruct (ToString_text y base Cy Hb) as [body' [Ht [N' [O' [V' [Z' T']]]]]].
  specialize (Ht false). cbv beta iota in Ht. cbn [app] in Ht.
  exists y. split; [exact Hy|]. split.
  - intros N T.
    assert (Hrev : forallb (digit_ok base) (rev body) = true)
      by (rewrite forallb_rev; exact Hbody).
    assert (Tl : rev body <> [] -> CharToDigit (last (rev body) zero) <> 0).
    { intros _. rewrite <- hd_rev_last, rev_involutive. exact T. }
    assert (Nrev : rev body <> []).
    { intros F. apply (f_equal (@rev ascii)) in F. rewrite rev_involutive in F.
      contradiction. }
    pose proof (digits_value_pos base (rev body) ltac:(lia) Hrev Nrev (Tl Nrev)) as P.
    rewrite <- numeral_value_rev, rev_involutive in P.
    assert (Ny : value y <> 0) by (destruct negative; lia).
    assert (Eb : body' = body).
    { rewrite <- (rev_involutive body'), <- (rev_involutive body). f_equal.
      apply (digits_unique base (rev body') ltac:(lia) (rev body)).
      - rewrite forallb_rev. exact O'.
      - exact Hrev.
      - intros _. rewrite <- hd_rev_last, rev_involutive. apply T'. exact Ny.
      - exact Tl.
      - rewrite <- !numeral_value_rev, !rev_involutive, V', Vy.
        destruct negative; lia. }
    rewrite Eb in Ht.
    replace (if value y <? 0 then ["-"%char] else [])
      with (if negative then ["-"%char] else []) in Ht.
    + rewrite <- Hin, string_of_list_ascii_of_string in Ht. exact Ht.
    + destruct negative, (Z.ltb_spec (value y) 0); try reflexivity; lia.
  - intros E0.
    assert (V0 : value y = 0) by (rewrite Vy, E0; lia).
    rewrite (Z' V0) in Ht. rewrite V0 in Ht. exact Ht.
Qed.

Lemma parse_then_render_witness :
  exists y,
    finishes (fun fuel => FromString fuel "-ff" 16) y /\
    finishes (fun fuel => ToString fuel y 16 false) "-ff"%string.
Proof.
  destruct (parse_then_render "-ff" 16 true ["f"%char; "f"%char])
    as [y [H1 [H2 _]]].
  - lia.
  - reflexivity.
  - reflexivity.
  - exists y. split; [exact H1|]. apply H2.
    + discriminate.
    + vm_compute. discriminate.
Defined.

(** ** The stream operators together *)


Lemma operator_mul_by_sign (y : BigInteger) (s : Z) :
  canonical y = true -> s = 1 \/ s = -1 ->
  exists r,
    finishes (fun fuel => operator_mul_assign_int fuel y s) r /\
    canonical r = true /\ value r = value y * s.
Proof.
  intros C Hs.
  assert (R : Int64.in_range s) by (apply in_range_small; lia).
  destruct (operator_mul_spec y (BigInteger_of_int64 s) C (BigInteger_of_int64_canonical s R))
    as [r [H [Cr V]]].
  rewrite BigInteger_of_int64_value in V by exact R.
  exists r. auto.
Qed.

(** X21.  Decimal round trip through the streams: what [operator<<]
    writes for a canonical [x] on a stream without [showbase] is read
    back by [operator>>], on a stream with neither the hex nor the oct
    flag, as a value equal to [x]. *)
Theorem stream_decimal_round_trip (x : BigInteger) (os : ostream) :
  canonical x = true -> showbase os = false ->
  exists (s : string) (y : BigInteger),
    finishes (fun fuel => operator_shl fuel os x) (put_string os s) /\
    (exists n, forall fuel, (n <= fuel)%nat ->
       operator_shr fuel {| in_hex := false; in_oct := false; token := s |}
       = Parsed (Ret y)) /\
    operator_eq y x = true.
Proof.
  intros C Hs.
  destruct (ToString_text x 10 C ltac:(lia)) as [body [Ht [Nb [Ob [Vb _]]]]].
  specialize (Ht false). cbv beta iota in Ht. cbn [app] in Ht.
  set (s := string_of_list_ascii ((if value x <? 0 then ["-"%char] else []) ++ body)) in *.
  assert (Hw : finishes (fun fuel => operator_shl fuel os x) (put_string os s)).
  { unfold operator_shl. rewrite Hs.
    apply (finishes_bind _ (fun str _ => Ret (put_string os str)) s _ Ht).
    apply finishes_ret. }
  assert (Hparse : exists y0,
             finishes (fun fuel => FromString fuel (string_of_list_ascii body) 10) y0 /\
             canonical y0 = true /\ value y0 = Z.abs (value x)).
  { destruct (FromString_spec (string_of_list_ascii body) 10 false body ltac:(lia))
      as [y0 [H0 [C0 V0]]].
    - cbn [app]. apply list_ascii_of_string_of_list_ascii.
    - exact Ob.
    - exists y0. split; [exact H0|]. split; [exact C0|].
      rewrite V0, <- numeral_value_rev, rev_involutive, Vb. lia. }
  destruct Hparse as [y0 [H0 [C0 V0]]].
  destruct (Z.ltb_spec (value x) 0) as [Hneg|Hpos].
  - destruct (operator_mul_by_sign y0 (-1) C0 ltac:(lia)) as [y [Hy [Cy Vy]]].
    exists s, y. split; [exact Hw|]. split.
    + pose proof (finishes_bind _ (fun big_int fuel => operator_mul_assign_int fuel big_int (-1))
                    y0 y H0 Hy) as [n Hn].
      exists n. intros fuel Hf. unfold s. cbn [app string_of_list_ascii operator_shr token].
      cbn [Ascii.eqb Bool.eqb in_hex in_oct]. rewrite (Hn fuel Hf). reflexivity.
    + apply operator_eq_of_values; auto. lia.
  - destruct (operator_mul_by_sign y0 1 C0 ltac:(lia)) as [y [Hy [Cy Vy]]].
    exists s, y. split; [exact Hw|]. split.
    + pose proof (finishes_bind _ (fun big_int fuel => operator_mul_assign_int fuel big_int 1)
                    y0 y H0 Hy) as [n Hn].
      exists n. intros fuel Hf. unfold s. cbn [app].
      destruct body as [|c body]; [contradiction|].
      cbn [forallb] in Ob. apply andb_true_iff in Ob. destruct Ob as [Oc _].
      pose proof (digit_ok_not_minus 10 c Oc) as Hc.
      cbn [string_of_list_ascii operator_shr token in_hex in_oct].
      rewrite Hc. cbn [string_of_list_ascii] in Hn. rewrite (Hn fuel Hf). reflexivity.
    + apply operator_eq_of_values; auto. lia.
Qed.

Lemma stream_decimal_round_trip_witness :
  exists (s : string) (y : BigInteger),
    finishes (fun fuel => operator_shl fuel
                            {| showbase := false; hex := false; oct := false; dec := true;
                               written := EmptyString |}
                            (BigInteger_of_int64 (-1000000001)))
             (put_string {| showbase := false; hex := false; oct := false; dec := true;
                            written := EmptyString |} s) /\
    (exists n, forall fuel, (n <= fuel)%nat ->
       operator_shr fuel {| in_hex := false; in_oct := false; token := s |}
       = Parsed (Ret y)) /\
    operator_eq y (BigInteger_of_int64 (-1000000001)) = true.
Proof.
  apply (stream_decimal_round_trip (BigInteger_of_int64 (-1000000001))
           {| showbase := false; hex := false; oct := false; dec := true;
              written := EmptyString |}); reflexivity.
Defined.



(** ** Sign changes, the bisection, inverse operations *)

(** X23.  Unary minus and [Abs] change the flag only.  Negating twice
    gives the object back, on every representation.  On a canonical
    operand they keep it canonical and give the values [- x] and [|x|],
    and the sign query of [- x] is the opposite of that of [x]. *)
Theorem negation_and_absolute_value (x : BigInteger) :
  operator_neg (operator_neg x) = x /\
  digits_ (operator_neg x) = digits_ x /\
  digits_ (Abs x) = digits_ x /\
  Sign (operator_neg x) = - Sign x /\
  (canonical x = true ->
   canonical (operator_neg x) = true /\ value (operator_neg x) = - value x /\
   canonical (Abs x) = true /\ value (Abs x) = Z.abs (value x) /\
   operator_ge_int (Abs x) 0 = true).
Proof.
  split; [destruct x as [l []]; reflexivity|].
  split; [reflexivity|]. split; [reflexivity|].
  split; [apply Sign_Negate|].
  intros C. destruct (value_Abs x C) as [Va Ca].
  split; [rewrite canonical_Negate; exact C|].
  split; [apply value_Negate|]. split; [exact Ca|]. split; [exact Va|].
  unfold operator_ge_int.
  rewrite operator_ge_spec; [|exact Ca|reflexivity].
  rewrite Va. change (value (BigInteger_of_int64 0)) with 0.
  apply Z.leb_le. lia.
Qed.

Lemma negation_and_absolute_value_witness :
  value (Abs (BigInteger_of_int64 (-1000000001)))
  = Z.abs (value (BigInteger_of_int64 (-1000000001))).
Proof.
  destruct (negation_and_absolute_value (BigInteger_of_int64 (-1000000001)))
    as [_ [_ [_ [_ H]]]].
  destruct (H eq_refl) as [_ [_ [_ [V _]]]]. exact V.
Defined.




(** X25.  Subtraction undoes addition and division undoes
    multiplication, up to [==]: on canonical operands
    [(a + b) - b == a], and [(a * b) / b == a] when [b] is not zero. *)
Theorem inverse_operations (a b : BigInteger) :
  canonical a = true -> canonical b = true ->
  (exists s d,
      finishes (fun fuel => operator_add fuel a b) s /\
      finishes (fun fuel => operator_sub fuel s b) d /\
      operator_eq d a = true) /\
  (value b <> 0 ->
   exists p q,
     finishes (fun fuel => operator_mul fuel a b) p /\
     finishes (fun fuel => operator_div fuel p b) q /\
     operator_eq q a = true).
Proof.
  intros Ca Cb. split.
  - destruct (operator_add_spec a b Ca Cb) as [s [Hs [Cs Vs]]].
    destruct (operator_sub_spec s b Cs Cb) as [d [Hd [Cd Vd]]].
    exists s, d. refine (conj Hs (conj Hd _)).
    apply operator_eq_of_values; auto. lia.
  - intros Nb.
    destruct (operator_mul_spec a b Ca Cb) as [p [Hp [Cp Vp]]].
    destruct (operator_div_spec p b Cp Cb Nb) as [q [Hq [Cq Vq]]].
    exists p, q. refine (conj Hp (conj Hq _)).
    apply operator_eq_of_values; auto. rewrite Vq, Vp. apply Z.quot_mul. exact Nb.
Qed.

Lemma inverse_operations_witness :
  exists p q,
    finishes (fun fuel => operator_mul fuel (BigInteger_of_int64 (-123456789123))
                            (BigInteger_of_int64 (-1000000001))) p /\
    finishes (fun fuel => operator_div fuel p (BigInteger_of_int64 (-1000000001))) q /\
    operator_eq q (BigInteger_of_int64 (-123456789123)) = true.
Proof.
  destruct (inverse_operations (BigInteger_of_int64 (-123456789123))
              (BigInteger_of_int64 (-1000000001)) eq_refl eq_refl) as [_ H].
  apply H. vm_compute. discriminate.
Defined.
